(** * simple-encoder: striping, placement shuffle and shard distribution

    A shallow embedding of [examples/simple-encoder.go] and the properties
    of its striping pipeline.  The program is a command line tool: it reads
    one input file stripe by stripe, hands every stripe to a Reed-Solomon
    codec, draws a random placement for the stripe and issues one write per
    destination file.

    Everything the program does to the outside world is recorded as a list
    of [event]s; everything the outside world decides (file contents, read
    sizes, failures, the clock) is a field of [World].  The codec
    ([reedsolomon.New], [Split], [Encode]) and the pseudo-random source of
    [math/rand] are libraries the program calls; they are parameters of the
    development. *)

From stdpp Require Import base numbers list strings pretty.
From Stdlib Require Import Strings.Ascii Strings.Byte.

Local Open Scope Z_scope.

(** ** Go machine integers

    [int] and [int64] are 64-bit two's complement on the platforms of
    interest; arithmetic wraps around silently, division truncates towards
    zero. *)
Module GoInt.

Definition min_int : Z := - 2 ^ 63.
Definition max_int : Z := 2 ^ 63 - 1.

Definition in_range (x : Z) : Prop := min_int <= x <= max_int.

Definition wrap (x : Z) : Z := (x + 2 ^ 63) `mod` 2 ^ 64 - 2 ^ 63.

Definition add (a b : Z) : Z := wrap (a + b).
Definition sub (a b : Z) : Z := wrap (a - b).
Definition mul (a b : Z) : Z := wrap (a * b).
(** [a / b] for [b <> 0]; the caller checks the divisor. *)
Definition quo (a b : Z) : Z := wrap (Z.quot a b).

End GoInt.

(** ** The pseudo-random source ([math/rand])

    [rand.Seed] replaces the state of the global generator; a draw
    [rng_next g bound] yields a number and the next state.  The library
    promises a result in [[0, bound)]; [Intn] reduces the drawn number
    modulo the bound, so that every function [rng_next] is a generator. *)
Record PRNG : Type := {
  rng_state : Type;
  rng_seed : Z -> rng_state;
  rng_next : rng_state -> Z -> Z * rng_state
}.

Section Shuffler.

Context (prng : PRNG).

Definition Intn (g : rng_state prng) (bound : nat) : nat * rng_state prng :=
  let '(v, g') := rng_next prng g (Z.of_nat bound) in
  (Z.to_nat (v `mod` Z.of_nat bound), g').

(** [rand.Shuffle(n, swap)]: Fisher-Yates, [for i := n - 1; i > 0; i--]
    with [j] drawn from [[0, i]].  [swap] is the caller's closure; it acts
    on the caller's variables [St] and may fail (a runtime panic). *)
Fixpoint Shuffle_from {St : Type} (i : nat) (swap : nat -> nat -> St -> option St)
    (g : rng_state prng) (st : St) : option St :=
  match i with
  | O => Some st
  | S i' =>
      let '(j, g') := Intn g (S i) in
      match swap i j st with
      | Some st' => Shuffle_from i' swap g' st'
      | None => None
      end
  end.

Definition Shuffle {St : Type} (n : nat) (swap : nat -> nat -> St -> option St)
    (g : rng_state prng) (st : St) : option St :=
  Shuffle_from (n - 1) swap g st.

(** [func(i, j int) { shuff[i], shuff[j] = shuff[j], shuff[i] }]: both
    operands are read, then both slots are written; an index out of range
    panics. *)
Definition swap_shuff (i j : nat) (shuff : list Z) : option (list Z) :=
  match shuff !! j, shuff !! i with
  | Some xj, Some xi => Some (<[j:=xi]> (<[i:=xj]> shuff))
  | _, _ => None
  end.

(** [for i := 0; i < n; i++ { shuff[i] = i }] *)
Definition fill_identity (n : nat) (shuff : list Z) : list Z :=
  foldl (fun l i => <[i:=Z.of_nat i]> l) shuff (seq 0 n).

(** [genRandomArr(n)].  [now] is the value of [time.Now().UnixNano()] read
    at the call.  [None] is the runtime panic of [make] on a negative
    length. *)
Definition genRandomArr (n : Z) (now : Z) : option (list Z) :=
  if decide (n < 0) then None
  else
    let shuff := replicate (Z.to_nat n) 0 in
    let shuff := fill_identity (Z.to_nat n) shuff in
    let g := rng_seed prng now in
    Shuffle (length shuff) swap_shuff g shuff.

End Shuffler.

(** ** The codec ([reedsolomon])

    The encoder object and its three entry points, as the program calls
    them.  [Encode] fills the parity shards of the slice it is given; the
    slice after the call is its result here. *)
Definition error : Type := string.

Record Codec : Type := {
  Encoder : Type;
  New : Z -> Z -> error + Encoder;
  Split : Encoder -> list byte -> error + list (list byte);
  Encode : Encoder -> list (list byte) -> error + list (list byte)
}.

(** ** Events and outcomes *)

(** The descriptor returned by the [os.OpenFile] call of stripe [h_stripe]
    for destination [h_index]. *)
Record handle : Type := Handle { h_stripe : Z; h_index : nat }.

Inductive event : Type :=
  | EStderr (msg : string)
  | EUsage
  | EOpenInput (fname : string) (ok : bool)
  | EStat (fname : string) (ok : bool)
  | EHashCopy (ok : bool)
  | ESeekStart (ok : bool)
  | EPrintOpening (fname : string)
  | ERead (stripe : Z) (n : nat)
  | EReadFault (stripe : Z)
  | ESplit (stripe : Z) (buf : list byte)
  | EPrintStripe (stripe : Z) (nshards shardlen : nat)
  | EEncode (stripe : Z) (shards : list (list byte))
  | ERecord (stripe : Z) (perm : list Z)
  | EOpenOut (h : handle) (dir outfn : string) (ok : bool)
  | EWrite (h : handle) (p : list byte) (ok : bool)
  | ECloseOut (h : handle)
  | EPrintTime
  | ECloseInput.

Inductive panic : Type :=
  | PanicIndex
  | PanicDivide
  | PanicMakeLen
  | PanicError (err : error).

(** How a run stops short of returning from [main].  [OutOfFuel] is the
    bound of the loop of the model; [main] never ends with it
    ([main_never_out_of_fuel]). *)
Inductive halt : Type :=
  | Exit (code : Z)
  | Panic (p : panic)
  | OutOfFuel.

(** Computations: the events issued so far and either a halt or a value. *)
Definition M (A : Type) : Type := list event * (halt + A).

Definition ret {A : Type} (a : A) : M A := ([], inr a).

Definition bind {A B : Type} (m : M A) (f : A -> M B) : M B :=
  match m with
  | (t, inl h) => (t, inl h)
  | (t, inr a) => let '(t', r) := f a in (t ++ t', r)
  end.

Definition emit (e : event) : M unit := ([e], inr tt).
Definition stop {A : Type} (h : halt) : M A := ([], inl h).

Notation "'let*' x ':=' m 'in' k" := (bind m (fun x => k))
  (at level 10, x pattern, m at level 100, k at level 200, only parsing).
Notation "m ';;;' k" := (bind m (fun _ => k))
  (at level 100, k at level 200, right associativity, only parsing).

Definition trace {A : Type} (m : M A) : list event := fst m.
Definition result {A : Type} (m : M A) : halt + A := snd m.

(** [a[i]] for a Go [int] index: out of range panics. *)
Definition index {A : Type} (a : list A) (i : Z) : M A :=
  if decide (0 <= i) then
    match a !! Z.to_nat i with
    | Some x => ret x
    | None => stop (Panic PanicIndex)
    end
  else stop (Panic PanicIndex).

(** [a[i] = x] *)
Definition assign {A : Type} (a : list A) (i : Z) (x : A) : M (list A) :=
  if decide (0 <= i < Z.of_nat (length a)) then ret (<[Z.to_nat i:=x]> a)
  else stop (Panic PanicIndex).

(** [make([]T, n)] with every slot at the zero value of [T]. *)
Definition make {A : Type} (zero : A) (n : Z) : M (list A) :=
  if decide (n < 0) then stop (Panic PanicMakeLen)
  else ret (replicate (Z.to_nat n) zero).

Fixpoint for_each {St : Type} (body : nat -> St -> M St) (idx : list nat) (st : St) : M St :=
  match idx with
  | [] => ret st
  | i :: idx' => let* st' := body i st in for_each body idx' st'
  end.

(** A deferred call runs when the function returns or panics, not when the
    process exits. *)
Definition deferred {A : Type} (e : event) (m : M A) : M A :=
  match m with
  | (t, inl (Exit c)) => (t, inl (Exit c))
  | (t, inl OutOfFuel) => (t, inl OutOfFuel)
  | (t, r) => (t ++ [e], r)
  end.

(** [filepath.Split]: the directory up to and including the last slash, and
    the file name after it. *)
Fixpoint path_split (s : string) : string * string :=
  match s with
  | EmptyString => (EmptyString, EmptyString)
  | String c s' =>
      let '(d, f) := path_split s' in
      if bool_decide (d = EmptyString) then
        if bool_decide (c = "/"%char) then (String c EmptyString, f)
        else (EmptyString, String c f)
      else (String c d, f)
  end.

(** ** The outside world *)

Inductive read_reply : Type :=
  | Deliver (n : nat)
  | Fault (err : error).

(** The flags and arguments of the command line, the input file, and what
    each system call answers.  Calls inside the stripe loop are identified
    by the stripe number (and the destination index). *)
Record World : Type := {
  w_args : list string;
  w_dataShards : Z;
  w_parShards : Z;
  w_blockSize : Z;
  w_outDir : string;
  w_input : list byte;
  w_open : option error;
  w_stat : option error;
  w_copy : option error;
  w_seek : bool;
  w_read : Z -> nat -> nat -> read_reply;
  w_now : Z -> Z;
  w_openfile : Z -> nat -> option error;
  w_write : Z -> nat -> bool
}.

(** The local variables of [main] that live across stripes; [rest] is the
    part of the input the reader has not delivered yet. *)
Record vars : Type := Vars {
  data : list byte;
  rest : list byte;
  of_ : list (option handle);
  distribution : list (list Z);
  stripeno : Z
}.

(** ** The program *)
Section Program.

Context (codec : Codec) (prng : PRNG) (w : World).

(** [checkErr(err)]: report and [os.Exit(2)] on an error. *)
Definition die {A : Type} (err : error) : M A :=
  emit (EStderr ("Error: " +:+ err)) ;;; stop (Exit 2).

Definition checkErr (err : option error) : M unit :=
  match err with
  | None => ret tt
  | Some e => die e
  end.

(** [x, err := f(...); checkErr(err)] *)
Definition checked {A : Type} (r : error + A) : M A :=
  match r with
  | inr a => checkErr None ;;; ret a
  | inl e => die e
  end.

(** [b, err := buf.Read(data); if err != nil && err != io.EOF { panic(err) }].
    The reader copies the first [b] undelivered bytes over the head of
    [data] and leaves the tail of [data] as it was.  At the end of the input
    it delivers nothing ([io.EOF]).  It never delivers more than it was
    asked for or more than is left. *)
Definition buf_Read (s : Z) (data rest : list byte) : M (nat * list byte * list byte) :=
  match w_read w s (length data) (length rest) with
  | Fault e => emit (EReadFault s) ;;; stop (Panic (PanicError e))
  | Deliver n =>
      let b := ((n `min` length data) `min` length rest)%nat in
      emit (ERead s b) ;;;
      ret (b, take b rest ++ drop b data, drop b rest)
  end.

(** The body of [for i := range shards]. *)
Definition write_shard (dir file : string) (shards : list (list byte))
    (i : nat) (v : vars) : M vars :=
  let* perm := index (distribution v) (stripeno v) in
  let* j := index perm (Z.of_nat i) in
  let outfn := file +:+ "." +:+ pretty i in
  let h := Handle (stripeno v) i in
  let err := w_openfile w (stripeno v) i in
  emit (EOpenOut h dir outfn (bool_decide (err = None))) ;;;
  let* of' := assign (of_ v) (Z.of_nat i) (if err is None then Some h else None) in
  checkErr err ;;;
  let* p := index shards j in
  emit (EWrite h p (w_write w (stripeno v) i)) ;;;
  checkErr err ;;;
  ret (Vars (data v) (rest v) of' (distribution v) (stripeno v)).

(** One pass through the body of the stripe loop.  The boolean tells
    whether the pass ended in [break]. *)
Definition stripe (enc : Encoder codec) (fname : string) (stripeSize : Z)
    (v : vars) : M (bool * vars) :=
  let* (b, data', rest') := buf_Read (stripeno v) (data v) (rest v) in
  let* shards := checked (Split codec enc data') in
  emit (ESplit (stripeno v) data') ;;;
  let* shard0 := index shards 0 in
  emit (EPrintStripe (stripeno v) (length shards) (length shard0)) ;;;
  let* shards := checked (Encode codec enc shards) in
  emit (EEncode (stripeno v) shards) ;;;
  let '(dir, file) := path_split fname in
  let dir := if bool_decide (w_outDir w = EmptyString) then dir else w_outDir w in
  let* perm :=
    match genRandomArr prng (GoInt.add (w_dataShards w) (w_parShards w))
            (w_now w (stripeno v)) with
    | Some perm => ret perm
    | None => stop (Panic PanicMakeLen)
    end in
  let* distribution' := assign (distribution v) (stripeno v) perm in
  emit (ERecord (stripeno v) perm) ;;;
  let v := Vars data' rest' (of_ v) distribution' (stripeno v) in
  let* v := for_each (write_shard dir file shards) (seq 0 (length shards)) v in
  if decide (Z.of_nat b < stripeSize) then ret (true, v)
  else ret (false, Vars (data v) (rest v) (of_ v) (distribution v)
                        (GoInt.add (stripeno v) 1)).

(** [for { ... }] *)
Fixpoint stripes (fuel : nat) (enc : Encoder codec) (fname : string)
    (stripeSize : Z) (v : vars) : M vars :=
  match fuel with
  | O => stop OutOfFuel
  | S fuel' =>
      let* (brk, v') := stripe enc fname stripeSize v in
      if brk : bool then ret v' else stripes fuel' enc fname stripeSize v'
  end.

(** [for i := range of { of[i].Close() }]; [Close] on a nil file only
    returns an error. *)
Definition close_all (of_ : list (option handle)) : M unit :=
  for_each (fun i _ =>
              match of_ !! i with
              | Some (Some h) => emit (ECloseOut h)
              | _ => ret tt
              end) (seq 0 (length of_)) tt.

(** [main], after the input file is open. *)
Definition encode_file (enc : Encoder codec) (fname : string) : M vars :=
  emit (EStat fname (bool_decide (w_stat w = None))) ;;;
  (if w_stat w is Some e then stop (Panic (PanicError e)) else ret tt) ;;;
  let fileSize := Z.of_nat (length (w_input w)) in
  emit (EHashCopy (bool_decide (w_copy w = None))) ;;;
  (if w_copy w is Some e then stop (Panic (PanicError e)) else ret tt) ;;;
  emit (ESeekStart (w_seek w)) ;;;
  emit (EPrintOpening fname) ;;;
  let stripeno := 0 in
  let stripeSize := GoInt.mul (w_dataShards w) (w_blockSize w) in
  let* data := make x00 stripeSize in
  let* of' := make None (GoInt.add (w_dataShards w) (w_parShards w)) in
  let buf := if w_seek w then w_input w else [] in
  let* stripeNum :=
    if decide (stripeSize = 0) then stop (Panic PanicDivide)
    else ret (GoInt.quo (GoInt.sub (GoInt.add fileSize stripeSize) 1) stripeSize) in
  let* distribution := make [] stripeNum in
  let* v := stripes (S (length buf)) enc fname stripeSize
              (Vars data buf of' distribution stripeno) in
  close_all (of_ v) ;;;
  emit EPrintTime ;;;
  ret v.

Definition main : M vars :=
  if decide (length (w_args w) ≠ 1%nat) then
    emit (EStderr "Error: No input filename given") ;;;
    emit EUsage ;;;
    stop (Exit 1)
  else if decide (GoInt.add (w_dataShards w) (w_parShards w) > 256) then
    emit (EStderr "Error: sum of data and parity shards cannot exceed 256") ;;;
    stop (Exit 1)
  else
    let fname := default EmptyString (w_args w !! 0%nat) in
    let* enc := checked (New codec (w_dataShards w) (w_parShards w)) in
    emit (EOpenInput fname (bool_decide (w_open w = None))) ;;;
    (if w_open w is Some e then stop (Panic (PanicError e)) else ret tt) ;;;
    deferred ECloseInput (encode_file enc fname).

End Program.

(** ** Concrete collaborators for running the program

    A generator whose draws are the mixed-radix digits of the seed, a codec
    with simple XOR parity, and a world in which every call succeeds and
    every read delivers all that was asked for.  The theorems below hold
    for every codec and generator; these instances serve to run [main] on
    concrete inputs. *)

Definition digits_rng : PRNG :=
  {| rng_state := Z;
     rng_seed := fun now => now;
     rng_next := fun g bound => (g `mod` bound, g `div` bound) |}.

Definition byte_xor (a b : byte) : byte :=
  default x00 (Byte.of_N (N.lxor (Byte.to_N a) (Byte.to_N b))).

Fixpoint chunks (per n : nat) (l : list byte) : list (list byte) :=
  match n with
  | O => []
  | S n' => take per l :: chunks per n' (drop per l)
  end.

Definition parity_New (k m : Z) : error + (nat * nat) :=
  if decide (k <= 0 \/ m < 0) then
    inl "cannot create Encoder with less than one data shard or less than zero parity shards"%string
  else if decide (k + m > 256) then
    inl "cannot create Encoder with more than 256 data+parity shards"%string
  else inr (Z.to_nat k, Z.to_nat m).

Definition parity_Split (enc : nat * nat) (buf : list byte) : error + list (list byte) :=
  let '(k, m) := enc in
  if decide (length buf = 0%nat) then
    inl "not enough data to fill the number of requested shards"%string
  else
    let per := ((length buf + k - 1) / k)%nat in
    let padded := buf ++ replicate (k * per - length buf) x00 in
    inr (chunks per k padded ++ replicate m (replicate per x00)).

Definition parity_Encode (enc : nat * nat) (shards : list (list byte)) : error + list (list byte) :=
  let '(k, m) := enc in
  if decide (length shards ≠ (k + m)%nat) then inl "too few shards given"%string
  else
    let per := length (default [] (shards !! 0%nat)) in
    if decide (per = 0%nat \/ ¬ Forall (fun s => length s = per) shards) then
      inl "shard sizes do not match"%string
    else
      let p := foldr (zip_with byte_xor) (replicate per x00) (take k shards) in
      inr (take k shards ++ replicate m p).

Definition parity_codec : Codec :=
  {| Encoder := nat * nat;
     New := parity_New;
     Split := parity_Split;
     Encode := parity_Encode |}.

Definition full_read : Z -> nat -> nat -> read_reply :=
  fun _ want _ => Deliver want.

Definition calm (fname : string) (k m bs : Z) (input : list byte) : World :=
  {| w_args := [fname];
     w_dataShards := k;
     w_parShards := m;
     w_blockSize := bs;
     w_outDir := EmptyString;
     w_input := input;
     w_open := None;
     w_stat := None;
     w_copy := None;
     w_seek := true;
     w_read := full_read;
     w_now := fun s => 5 * s;
     w_openfile := fun _ _ => None;
     w_write := fun _ _ => true |}.

(** ** Observations on a run *)

(** System calls on files: the input and the destinations. *)
Definition is_file_io (e : event) : bool :=
  match e with
  | EOpenInput _ _ | EStat _ _ | EHashCopy _ | ESeekStart _
  | ERead _ _ | EReadFault _
  | EOpenOut _ _ _ _ | EWrite _ _ _ | ECloseOut _ | ECloseInput => true
  | _ => false
  end.

(** The reads of the stripe loop: stripe number and bytes delivered. *)
Definition reads (t : list event) : list (Z * nat) :=
  omap (fun e => if e is ERead s n then Some (s, n) else None) t.

(** The buffers handed to the codec, by stripe. *)
Definition codec_inputs (t : list event) : list (Z * list byte) :=
  omap (fun e => if e is ESplit s buf then Some (s, buf) else None) t.

(** The shard sets that came back from [Encode], by stripe. *)
Definition encoded (t : list event) : list (Z * list (list byte)) :=
  omap (fun e => if e is EEncode s shards then Some (s, shards) else None) t.

(** The placements stored in [distribution], by stripe. *)
Definition ledger (t : list event) : list (Z * list Z) :=
  omap (fun e => if e is ERecord s perm then Some (s, perm) else None) t.

(** The stripes in which destination [d] was opened. *)
Definition opens_of (d : nat) (t : list event) : list Z :=
  omap (fun e => if e is EOpenOut h _ _ _
                 then if decide (h_index h = d) then Some (h_stripe h) else None
                 else None) t.

(** The [Write] calls on destination [d]: stripe, bytes, success. *)
Definition writes_of (d : nat) (t : list event) : list (Z * list byte * bool) :=
  omap (fun e => if e is EWrite h p ok
                 then if decide (h_index h = d) then Some (h_stripe h, p, ok) else None
                 else None) t.

(** The bytes that reached destination [d]: the payloads of its successful
    writes, in order (every descriptor is opened with [O_APPEND]). *)
Definition appended (d : nat) (t : list event) : list byte :=
  mjoin (omap (fun '(_, p, ok) => if ok : bool then Some p else None) (writes_of d t)).

(** The descriptors closed, in order. *)
Definition closes (t : list event) : list handle :=
  omap (fun e => if e is ECloseOut h then Some h else None) t.

(** The events on destination files. *)
Definition is_dest_event (e : event) : bool :=
  match e with
  | EOpenOut _ _ _ _ | EWrite _ _ _ | ECloseOut _ => true
  | _ => false
  end.

(** ** What a run needs from its surroundings *)

Record valid_config (k m bs : Z) : Prop := {
  vc_data : 1 <= k;
  vc_par : 0 <= m;
  vc_sum : k + m <= 256;
  vc_bs : 1 <= bs;
  vc_stripe : k * bs <= GoInt.max_int
}.

Definition shaped (n per : nat) (shards : list (list byte)) : Prop :=
  length shards = n /\ Forall (fun s => length s = per) shards.

(** Modelled from the spec: the codec of the repository is not part of the
    example's source.  Section 4.2 of the specification gives its contract:
    [Split] partitions a buffer of [k * blockSize] bytes into [k] data
    shards of [blockSize] bytes with [m] parity slots appended, [Encode]
    fills the parity slots and leaves the shape as it is. *)
Record codec_ok (codec : Codec) (enc : Encoder codec) (k m bs : Z) : Prop := {
  split_shape : forall buf,
    Z.of_nat (length buf) = k * bs ->
    exists shards, Split codec enc buf = inr shards
                   /\ shaped (Z.to_nat (k + m)) (Z.to_nat bs) shards;
  encode_shape : forall shards,
    shaped (Z.to_nat (k + m)) (Z.to_nat bs) shards ->
    exists shards', Encode codec enc shards = inr shards'
                    /\ shaped (Z.to_nat (k + m)) (Z.to_nat bs) shards'
}.

(** The input file can be opened, sized, hashed and rewound. *)
Record input_ready (w : World) : Prop := {
  ir_args : length (w_args w) = 1%nat;
  ir_open : w_open w = None;
  ir_stat : w_stat w = None;
  ir_copy : w_copy w = None;
  ir_seek : w_seek w = true
}.

(** The same world with other answers to the reads, or to the writes. *)
Definition with_read (w : World) (rd : Z -> nat -> nat -> read_reply) : World :=
  {| w_args := w_args w;
     w_dataShards := w_dataShards w;
     w_parShards := w_parShards w;
     w_blockSize := w_blockSize w;
     w_outDir := w_outDir w;
     w_input := w_input w;
     w_open := w_open w;
     w_stat := w_stat w;
     w_copy := w_copy w;
     w_seek := w_seek w;
     w_read := rd;
     w_now := w_now w;
     w_openfile := w_openfile w;
     w_write := w_write w |}.

Definition with_write (w : World) (wr : Z -> nat -> bool) : World :=
  {| w_args := w_args w;
     w_dataShards := w_dataShards w;
     w_parShards := w_parShards w;
     w_blockSize := w_blockSize w;
     w_outDir := w_outDir w;
     w_input := w_input w;
     w_open := w_open w;
     w_stat := w_stat w;
     w_copy := w_copy w;
     w_seek := w_seek w;
     w_read := w_read w;
     w_now := w_now w;
     w_openfile := w_openfile w;
     w_write := wr |}.

(** ** Two sentences of the specification, as it words them *)


(** Each of the [n] destinations is opened exactly once in the run. *)
Definition opened_exactly_once (n : nat) (t : list event) : Prop :=
  forall d : nat, (d < n)%nat -> length (opens_of d t) = 1%nat.

(** ** Sample inputs *)

Definition five_bytes : list byte := [x01; x02; x03; x04; x05].

Definition short_first_read : Z -> nat -> nat -> read_reply :=
  fun s want _ => if decide (s = 0) then Deliver 3 else Deliver want.

Definition first_write_fails : Z -> nat -> bool :=
  fun s d => negb (bool_decide (s = 0 /\ d = 0%nat)).

(** Five bytes, two data shards and one parity shard of two bytes each. *)
Definition sample_run : M vars :=
  main parity_codec digits_rng (calm "in.bin" 2 1 2 five_bytes).

(** The same run when the first [Write] call fails. *)
Definition failing_write_run : M vars :=
  main parity_codec digits_rng
    (with_write (calm "in.bin" 2 1 2 five_bytes) first_write_fails).

(** Eight bytes, stripes of four bytes, and a first read that delivers
    three bytes only. *)
Definition short_read_world : World :=
  with_read (calm "in.bin" 2 1 2 (five_bytes ++ [x06; x07; x08])) short_first_read.

(** The default configuration on 10000 bytes of value 1. *)
Definition ten_thousand_run : M vars :=
  main parity_codec digits_rng (calm "in.bin" 4 2 1024 (replicate (Z.to_nat 10000) x01)).

(** The default configuration on two full stripes. *)
Definition two_stripes_run : M vars :=
  main parity_codec digits_rng (calm "in.bin" 4 2 1024 (replicate (Z.to_nat 8192) x01)).

Definition sizes (l : list (Z * list byte * bool)) : list (Z * Z * bool) :=
  (fun '(s, p, ok) => (s, Z.of_nat (length p), ok)) <$> l.

Definition counts (l : list (Z * nat)) : list (Z * Z) :=
  (fun '(s, n) => (s, Z.of_nat n)) <$> l.

(** ** The trace of a run in which every call succeeds

    The stripes of such a run are determined by the input: each read fills
    the buffer up to what is left, and a short read ends the loop.  The
    definitions below spell out the events of one stripe; the theorems
    relate them to [main]. *)
Section Blocks.

Context (codec : Codec) (prng : PRNG) (w : World) (enc : Encoder codec).

Definition split_of (buf : list byte) : list (list byte) :=
  match Split codec enc buf with
  | inr shards => shards
  | inl _ => []
  end.

Definition encode_of (buf : list byte) : list (list byte) :=
  match Encode codec enc (split_of buf) with
  | inr shards => shards
  | inl _ => []
  end.

Definition placement (s : Z) : list Z :=
  default [] (genRandomArr prng (GoInt.add (w_dataShards w) (w_parShards w)) (w_now w s)).

(** The bytes destination [d] receives: shard number [perm[d]]. *)
Definition payload (perm : list Z) (shards : list (list byte)) (d : nat) : list byte :=
  default [] (perm !! d ≫= fun j => shards !! Z.to_nat j).

Definition write_events (dir file : string) (s : Z) (buf : list byte) (d : nat) : list event :=
  [EOpenOut (Handle s d) dir (file +:+ "." +:+ pretty d) true;
   EWrite (Handle s d) (payload (placement s) (encode_of buf) d) (w_write w s d)].

Definition stripe_head (s : Z) (b : nat) (buf : list byte) : list event :=
  [ERead s b;
   ESplit s buf;
   EPrintStripe s (length (split_of buf)) (length (default [] (split_of buf !! 0%nat)));
   EEncode s (encode_of buf)].

Definition stripe_block (dir file : string) (n : nat) (win : Z * nat * list byte) : list event :=
  let '(s, b, buf) := win in
  stripe_head s b buf ++ [ERecord s (placement s)]
  ++ flat_map (write_events dir file s buf) (seq 0 n).

End Blocks.

(** The stripes cut from the input when every read is full: stripe number,
    bytes read and buffer contents.  The buffer is the one buffer of the
    run; a short read overwrites its head only. *)
Fixpoint windows (fuel : nat) (size : nat) (s : Z) (data rest : list byte)
    : list (Z * nat * list byte) :=
  match fuel with
  | O => []
  | S fuel' =>
      let b := (size `min` length rest)%nat in
      let data' := take b rest ++ drop b data in
      (s, b, data')
      :: (if decide (b < size)%nat then []
          else windows fuel' size (s + 1) data' (drop b rest))
  end.

(** Calls succeed, reads are full, and the sizes fit a machine integer. *)
Record calm_world (w : World) : Prop := {
  cw_input : input_ready w;
  cw_read : forall s want rem,
    exists n, w_read w s want rem = Deliver n /\ (want `min` rem <= n)%nat;
  cw_openfile : forall s d, w_openfile w s d = None;
  cw_size : Z.of_nat (length (w_input w)) + w_dataShards w * w_blockSize w
            <= GoInt.max_int
}.

(** The run returned from [main]. *)
Definition returned {A : Type} (r : halt + A) : bool :=
  if r is inr _ then true else false.

(** Directory and base name of the destination files. *)
Definition dest_dir (w : World) (fname : string) : string :=
  if bool_decide (w_outDir w = EmptyString) then (path_split fname).1 else w_outDir w.

Definition dest_file (fname : string) : string := (path_split fname).2.

(** The descriptors stored in [of] by stripe [s]. *)
Definition handles (s : Z) (n : nat) : list (option handle) :=
  (fun d => Some (Handle s d)) <$> seq 0 n.

(** The stripes of the input of [w], the number of slots of the ledger
    [distribution], and the events around the stripe loop. *)
Definition stripe_bytes (w : World) : nat := Z.to_nat (w_dataShards w * w_blockSize w).

Definition shard_count (w : World) : nat := Z.to_nat (w_dataShards w + w_parShards w).

Definition input_windows (w : World) : list (Z * nat * list byte) :=
  windows (S (length (w_input w))) (stripe_bytes w) 0
          (replicate (stripe_bytes w) x00) (w_input w).

Definition ledger_slots (w : World) : nat :=
  Z.to_nat ((Z.of_nat (length (w_input w)) + w_dataShards w * w_blockSize w - 1)
            `div` (w_dataShards w * w_blockSize w)).

Definition prelude (fname : string) : list event :=
  [EOpenInput fname true; EStat fname true; EHashCopy true; ESeekStart true;
   EPrintOpening fname].

Definition epilogue (n : nat) (s : Z) : list event :=
  ((fun d => ECloseOut (Handle s d)) <$> seq 0 n) ++ [EPrintTime].

Definition input_name (w : World) : string := default EmptyString (w_args w !! 0%nat).

(** ** The calls on the destination files *)

(** The calls on destination files, in order, reduced to the descriptor
    they act on. *)
Inductive dest_op : Type :=
  | OpOpen (h : handle)
  | OpWrite (h : handle)
  | OpClose (h : handle).

Definition dest_ops (t : list event) : list dest_op :=
  omap (fun e => match e with
                 | EOpenOut h _ _ _ => Some (OpOpen h)
                 | EWrite h _ _ => Some (OpWrite h)
                 | ECloseOut h => Some (OpClose h)
                 | _ => None
                 end) t.

(** What one stripe does to the [n] destinations: open and write, one
    destination after the other. *)
Definition stripe_ops (n : nat) (s : Z) : list dest_op :=
  flat_map (fun d => [OpOpen (Handle s d); OpWrite (Handle s d)]) (seq 0 n).

(** The computation did not stop for lack of fuel. *)
Definition fuelled {A : Type} (m : M A) : Prop := result m <> inl OutOfFuel.

(** A trace with the outcome of every [Write] call forgotten. *)
Definition forget_write_result (e : event) : event :=
  match e with
  | EWrite h p _ => EWrite h p true
  | _ => e
  end.

(** Two computations that differ at most in the outcomes of their [Write]
    calls. *)
Definition same_but_writes {A : Type} (m m' : M A) : Prop :=
  forget_write_result <$> trace m = forget_write_result <$> trace m'
  /\ result m = result m'.

(** ** Properties of computations, for every world *)

(** Every event of the computation satisfies [P]. *)
Definition events_in {A : Type} (P : event -> Prop) (m : M A) : Prop :=
  Forall P (trace m).


(** Every event that satisfies [P] ends the computation: it halts, and
    the events after the [P]-event and the halt satisfy [Q]. *)
Definition ends_at {A : Type} (P : event -> Prop) (Q : list event -> halt -> Prop)
    (m : M A) : Prop :=
  forall t1 e t2, trace m = t1 ++ e :: t2 -> P e ->
                  exists h, result m = inl h /\ Q t2 h.

(** The command line passes the validation of [main]. *)
Definition accepted (w : World) : Prop :=
  length (w_args w) = 1%nat /\ GoInt.add (w_dataShards w) (w_parShards w) <= 256.

(** The name under which destination [d] is opened. *)
Definition dest_name (fname : string) (d : nat) : string :=
  dest_file fname +:+ "." +:+ pretty d.

(** The events [main] issues outside the body of the stripe loop. *)
Definition around_stripes (e : event) : bool :=
  match e with
  | EStderr _ | EUsage | EOpenInput _ _ | EStat _ _ | EHashCopy _ | ESeekStart _
  | EPrintOpening _ | ECloseOut _ | EPrintTime | ECloseInput => true
  | _ => false
  end.

(** The placements put into the ledger are permutations of [[0, n)]. *)
Definition records_permutation (n : Z) (e : event) : Prop :=
  match e with
  | ERecord _ perm => perm ≡ₚ seqZ 0 n
  | _ => True
  end.

(** Destination [d] is opened under [dest_name fname d] in [dest_dir]. *)
Definition opens_named (w : World) (fname : string) (e : event) : Prop :=
  match e with
  | EOpenOut h dir outfn _ => dir = dest_dir w fname /\ outfn = dest_name fname (h_index h)
  | _ => True
  end.

(** The read of stripe [s] failed. *)
Definition is_read_fault (s : Z) (e : event) : Prop :=
  match e with
  | EReadFault s' => s' = s
  | _ => False
  end.

(** A message on standard error. *)
Definition is_report (e : event) : Prop :=
  match e with
  | EStderr _ => True
  | _ => False
  end.

(** The open that would have returned descriptor [h] failed. *)
Definition is_failed_open (h : handle) (e : event) : Prop :=
  match e with
  | EOpenOut h' _ _ false => h' = h
  | _ => False
  end.

(** What follows a failed read of stripe [s]: nothing more inside the
    function, and a panic with the error of the reader. *)
Definition read_fault_panics (w : World) (s : Z) (t2 : list event) (h : halt) : Prop :=
  t2 = [] /\ exists err want rem,
               w_read w s want rem = Fault err /\ h = Panic (PanicError err).

(** What follows an error report: the process exits, with status 1 after
    the usage text at most, or with status 2 at once. *)
Definition report_exits (t2 : list event) (h : halt) : Prop :=
  (h = Exit 1 /\ (t2 = [EUsage] \/ t2 = [])) \/ (h = Exit 2 /\ t2 = []).

(** A world whose second read fails. *)
Definition second_read_fails : Z -> nat -> nat -> read_reply :=
  fun s want _ => if decide (s = 1) then Fault "input/output error" else Deliver want.

Definition read_fault_run : M vars :=
  main parity_codec digits_rng
    (with_read (calm "in.bin" 2 1 2 five_bytes) second_read_fails).

(** What follows the failed open for descriptor [h]: the report of its
    error and exit status 2. *)
Definition failed_open_exits (w : World) (h : handle) (t2 : list event) (hlt : halt) : Prop :=
  exists err, w_openfile w (h_stripe h) (h_index h) = Some err
              /\ t2 = [EStderr ("Error: " +:+ err)] /\ hlt = Exit 2.

(** The placement of the current stripe has no more entries than there
    are descriptor slots in [of]. *)
Definition placement_fits (v : vars) : Prop :=
  forall perm, 0 <= stripeno v ->
               distribution v !! Z.to_nat (stripeno v) = Some perm ->
               (length perm <= length (of_ v))%nat.

(** A run whose codec rejects the shard counts, and a run in which the
    open of destination 1 fails in the second stripe. *)
Definition rejected_by_codec_run : M vars :=
  main parity_codec digits_rng (calm "in.bin" 0 2 1024 five_bytes).

Definition open_fails_world : World :=
  {| w_args := ["in.bin"%string];
     w_dataShards := 2;
     w_parShards := 1;
     w_blockSize := 2;
     w_outDir := EmptyString;
     w_input := five_bytes;
     w_open := None;
     w_stat := None;
     w_copy := None;
     w_seek := true;
     w_read := full_read;
     w_now := fun s => 5 * s;
     w_openfile := fun s d => if decide (s = 1 /\ d = 1%nat)
                              then Some "permission denied"%string else None;
     w_write := fun _ _ => true |}.

Definition open_fails_run : M vars := main parity_codec digits_rng open_fails_world.

(** The payloads handed to [Write] in stripe [s], in the order of the calls. *)
Definition written_in (s : Z) (t : list event) : list (list byte) :=
  omap (fun e => if e is EWrite h p _
                 then if decide (h_stripe h = s) then Some p else None
                 else None) t.

(** Four data shards of [2^62] bytes: the stripe size wraps around to 0. *)
Definition wrapped_stripe_world : World :=
  calm "in.bin" 4 2 4611686018427387904 five_bytes.

(** The events issued while the input file is open: neither its open nor
    its close. *)
Definition inside_open (e : event) : Prop :=
  match e with
  | EOpenInput _ _ | ECloseInput => False
  | _ => True
  end.

(** No destination is closed by the event. *)
Definition no_close (e : event) : Prop :=
  match e with
  | ECloseOut _ => False
  | _ => True
  end.

(** Destinations are closed on the way to a normal return only, and at
    most [n] of them. *)
Definition closes_at_return {A : Type} (n : nat) (m : M A) : Prop :=
  (returned (result m) = false -> events_in no_close m)
  /\ (length (closes (trace m)) <= n)%nat.

(** A read of the stripe loop that delivered fewer than [size] bytes. *)
Definition is_short_read (size : Z) (e : event) : Prop :=
  match e with
  | ERead _ b => Z.of_nat b < size
  | _ => False
  end.

(** The event is not a read of the stripe loop. *)
Definition no_read (e : event) : Prop :=
  match e with
  | ERead _ _ | EReadFault _ => False
  | _ => True
  end.

(** After an event that satisfies [P], every event satisfies [Q]. *)
Fixpoint quiet_after (P Q : event -> Prop) (t : list event) : Prop :=
  match t with
  | [] => True
  | e :: t' => (P e -> Forall Q t') /\ quiet_after P Q t'
  end.

Definition then_only {A : Type} (P Q : event -> Prop) (m : M A) : Prop :=
  quiet_after P Q (trace m).

(** ** Further sample inputs *)



(** Forty bytes in stripes of four, in a process that can hold nine
    destination descriptors: no descriptor is given back before the end of
    the loop, so the tenth open, the first of stripe 3, fails. *)
Definition descriptor_limit_world : World :=
  {| w_args := ["in.bin"%string];
     w_dataShards := 2;
     w_parShards := 1;
     w_blockSize := 2;
     w_outDir := EmptyString;
     w_input := replicate 40 x01;
     w_open := None;
     w_stat := None;
     w_copy := None;
     w_seek := true;
     w_read := full_read;
     w_now := fun s => 5 * s;
     w_openfile := fun s d => if decide (3 <= s)
                              then Some "too many open files"%string else None;
     w_write := fun _ _ => true |}.

Definition descriptor_limit_run : M vars :=
  main parity_codec digits_rng descriptor_limit_world.

(** ** Events in the light of the events before them *)

(** Every event of [t] satisfies [P] of the events before it, [hist]
    being the events before [t]. *)
Fixpoint all_after (P : list event -> event -> Prop) (hist t : list event) : Prop :=
  match t with
  | [] => True
  | e :: t' => P hist e /\ all_after P (hist ++ [e]) t'
  end.

Definition events_after {A : Type} (P : list event -> event -> Prop)
    (hist : list event) (m : M A) : Prop :=
  all_after P hist (trace m).




(** ** The stripe buffer in every run *)

(** What the reader of the stripe loop has to deliver: the input, when
    the rewind after the hash pass succeeded; nothing otherwise, the file
    offset being at the end of the input. *)
Definition stream (w : World) : list byte :=
  if w_seek w then w_input w else [].

(** The bytes delivered by a list of reads. *)
Definition bytes_read (rs : list (Z * nat)) : nat := sum_list (snd <$> rs).

(** The contents of the stripe buffer after the events [hist]: what was
    handed to the codec last, or the zeros of its allocation. *)
Definition previous_buffer (w : World) (hist : list event) : list byte :=
  match last (codec_inputs hist) with
  | Some (_, buf) => buf
  | None => replicate (Z.to_nat (GoInt.mul (w_dataShards w) (w_blockSize w))) x00
  end.

(** The buffer handed to [Split] is the bytes of the read just before,
    which continue the input where the earlier reads stopped, followed by
    what the buffer held beyond them. *)
Definition split_follows_read (w : World) (hist : list event) (e : event) : Prop :=
  match e with
  | ESplit s buf =>
      exists (rs : list (Z * nat)) (b : nat),
        reads hist = rs ++ [(s, b)]
        /\ length rs = length (codec_inputs hist)
        /\ buf = take b (drop (bytes_read rs) (stream w))
                 ++ drop b (previous_buffer w hist)
  | _ => True
  end.

(** The variables of the loop agree with the events so far. *)
Definition buffer_in_step (w : World) (hist : list event) (v : vars) : Prop :=
  data v = previous_buffer w hist
  /\ rest v = drop (bytes_read (reads hist)) (stream w)
  /\ length (reads hist) = length (codec_inputs hist).

(** Neither a read of the stripe loop nor a call of [Split]. *)
Definition no_read_no_split (e : event) : Prop :=
  match e with
  | ERead _ _ | EReadFault _ | ESplit _ _ => False
  | _ => True
  end.

(** * Properties *)

(** ** Machine integers *)
Module GoIntFacts.
Import GoInt.

Lemma wrap_in_range x : in_range x -> wrap x = x.
Proof.
  unfold in_range, wrap, min_int, max_int. intros Hx.
  rewrite Z.mod_small; lia.
Qed.

Lemma wrap_range x : in_range (wrap x).
Proof.
  unfold in_range, wrap, min_int, max_int.
  pose proof (Z.mod_pos_bound (x + 2 ^ 63) (2 ^ 64)). lia.
Qed.

Lemma add_exact a b : in_range (a + b) -> add a b = a + b.
Proof. apply wrap_in_range. Qed.

Lemma sub_exact a b : in_range (a - b) -> sub a b = a - b.
Proof. apply wrap_in_range. Qed.

Lemma mul_exact a b : in_range (a * b) -> mul a b = a * b.
Proof. apply wrap_in_range. Qed.

Lemma quo_exact a b : in_range (Z.quot a b) -> quo a b = Z.quot a b.
Proof. apply wrap_in_range. Qed.

End GoIntFacts.

(** ** Slices written slot by slot *)

Lemma insert_seq_go {A : Type} (f : nat -> A) (n : nat) (pre suf : list A) :
  length suf = n ->
  foldl (fun l i => <[i:=f i]> l) (pre ++ suf) (seq (length pre) n)
  = pre ++ (f <$> seq (length pre) n).
Proof.
  revert pre suf. induction n as [|n IH]; intros pre suf Hlen.
  - destruct suf; [done|discriminate].
  - destruct suf as [|x suf]; [discriminate|]. simpl in *.
    rewrite insert_app_r_alt, Nat.sub_diag by lia. simpl.
    specialize (IH (pre ++ [f (length pre)]) suf).
    rewrite length_app in IH. simpl in IH.
    rewrite Nat.add_1_r, <- !(assoc_L (++)) in IH. simpl in IH.
    apply IH. lia.
Qed.

Lemma insert_seq_all {A : Type} (f : nat -> A) (l : list A) :
  foldl (fun l i => <[i:=f i]> l) l (seq 0 (length l)) = f <$> seq 0 (length l).
Proof. by apply (insert_seq_go f (length l) [] l). Qed.

(** ** The placement shuffler *)
Section ShufflerFacts.

Context (prng : PRNG).

Lemma Intn_lt (g : rng_state prng) bound : (0 < bound)%nat -> (fst (Intn prng g bound) < bound)%nat.
Proof.
  intros Hb. unfold Intn. destruct (rng_next prng g (Z.of_nat bound)) as [v g'].
  simpl. pose proof (Z.mod_pos_bound v (Z.of_nat bound)). lia.
Qed.

Lemma swap_shuff_perm i j shuff :
  (i < length shuff)%nat -> (j < length shuff)%nat ->
  exists shuff', swap_shuff i j shuff = Some shuff' /\ shuff' ≡ₚ shuff.
Proof.
  intros Hi Hj. unfold swap_shuff.
  destruct (lookup_lt_is_Some_2 shuff j Hj) as [xj Hxj].
  destruct (lookup_lt_is_Some_2 shuff i Hi) as [xi Hxi].
  rewrite Hxj, Hxi. eexists; split; [reflexivity|].
  by apply Permutation_insert_swap.
Qed.

Lemma Shuffle_from_perm i g shuff :
  (i < length shuff)%nat ->
  exists shuff', Shuffle_from prng i swap_shuff g shuff = Some shuff' /\ shuff' ≡ₚ shuff.
Proof.
  revert g shuff. induction i as [|i IH]; intros g shuff Hlen; simpl.
  - by exists shuff.
  - pose proof (Intn_lt g (S (S i)) ltac:(lia)) as Hj.
    destruct (Intn prng g (S (S i))) as [j g']. simpl in Hj.
    destruct (swap_shuff_perm (S i) j shuff) as (s1 & -> & Hp1); [lia..|].
    destruct (IH g' s1) as (s2 & -> & Hp2).
    { rewrite Hp1. lia. }
    exists s2. split; [done|]. by rewrite Hp2.
Qed.

Lemma Shuffle_perm g shuff :
  exists shuff', Shuffle prng (length shuff) swap_shuff g shuff = Some shuff' /\ shuff' ≡ₚ shuff.
Proof.
  unfold Shuffle. destruct shuff as [|x shuff].
  - by exists [].
  - apply Shuffle_from_perm. simpl. lia.
Qed.

Lemma fill_identity_replicate (n : nat) :
  fill_identity n (replicate n 0) = Z.of_nat <$> seq 0 n.
Proof.
  unfold fill_identity.
  pose proof (insert_seq_all Z.of_nat (replicate n 0)) as H.
  by rewrite length_replicate in H.
Qed.

Lemma fmap_seq_seqZ (n : nat) : Z.of_nat <$> seq 0 n = seqZ 0 (Z.of_nat n).
Proof.
  apply list_eq. intros i. rewrite list_lookup_fmap.
  destruct (decide (i < n)%nat) as [Hi|Hi].
  - rewrite lookup_seq_lt, lookup_seqZ_lt by lia. done.
  - rewrite lookup_seq_ge, lookup_seqZ_ge by lia. done.
Qed.

Lemma genRandomArr_perm (n now : Z) :
  0 <= n ->
  exists shuff, genRandomArr prng n now = Some shuff /\ shuff ≡ₚ seqZ 0 n.
Proof.
  intros Hn. unfold genRandomArr. rewrite decide_False by lia.
  rewrite fill_identity_replicate, fmap_seq_seqZ, Z2Nat.id by lia.
  apply Shuffle_perm.
Qed.

Lemma genRandomArr_length (n now : Z) shuff :
  genRandomArr prng n now = Some shuff -> length shuff = Z.to_nat n /\ 0 <= n.
Proof.
  intros H. destruct (decide (n < 0)) as [Hn|Hn].
  - unfold genRandomArr in H. by rewrite decide_True in H.
  - destruct (genRandomArr_perm n now) as (s & Hs & Hp); [lia|].
    rewrite H in Hs. injection Hs as <-. rewrite Hp, length_seqZ. lia.
Qed.

Lemma genRandomArr_negative (n now : Z) : n < 0 -> genRandomArr prng n now = None.
Proof. intros Hn. unfold genRandomArr. by rewrite decide_True. Qed.

End ShufflerFacts.

(** ** Computations *)
Section MonadFacts.

Context {A B : Type}.

Lemma bind_ret (a : A) (f : A -> M B) : bind (ret a) f = f a.
Proof. unfold bind, ret. by destruct (f a). Qed.

Lemma bind_stop (h : halt) (f : A -> M B) : bind (stop h) f = stop h.
Proof. done. Qed.

Lemma bind_emit (e : event) (f : unit -> M B) :
  bind (emit e) f = (e :: trace (f tt), result (f tt)).
Proof. unfold bind, emit, trace, result. by destruct (f tt). Qed.

Lemma trace_bind (m : M A) (f : A -> M B) :
  trace (bind m f) =
  match result m with
  | inl _ => trace m
  | inr a => trace m ++ trace (f a)
  end.
Proof. destruct m as [t [h|a]]; simpl; [done|]. by destruct (f a). Qed.

Lemma result_bind (m : M A) (f : A -> M B) :
  result (bind m f) =
  match result m with
  | inl h => inl h
  | inr a => result (f a)
  end.
Proof. destruct m as [t [h|a]]; simpl; [done|]. by destruct (f a). Qed.

Lemma bind_halted (m : M A) (f : A -> M B) (h : halt) :
  result m = inl h -> bind m f = (trace m, inl h).
Proof. destruct m as [t r]. simpl. by intros ->. Qed.

Lemma bind_returned (m : M A) (f : A -> M B) (a : A) :
  result m = inr a -> bind m f = (trace m ++ trace (f a), result (f a)).
Proof. destruct m as [t r]. simpl. intros ->. by destruct (f a). Qed.

Lemma deferred_panic (e : event) (t : list event) (p : panic) :
  deferred e (t, inl (Panic p) : halt + A) = (t ++ [e], inl (Panic p)).
Proof. done. Qed.

Lemma deferred_returned (e : event) (t : list event) (a : A) :
  deferred e (t, inr a : halt + A) = (t ++ [e], inr a).
Proof. done. Qed.

End MonadFacts.

(** ** Configuration validation *)

(** When the sum of the two shard counts, as the program computes it,
    exceeds 256, the run ends with exit status 1 and has touched no file:
    neither the input (open, stat, read) nor any destination (open, write).
    With a file name on the command line the only thing the run does is to
    print the message of the validation. *)
Theorem wrapped_sum_above_256_rejected (codec : Codec) (prng : PRNG) (w : World) :
  GoInt.add (w_dataShards w) (w_parShards w) > 256 ->
  result (main codec prng w) = inl (Exit 1)
  /\ Forall (fun e => is_file_io e = false) (trace (main codec prng w))
  /\ (length (w_args w) = 1%nat ->
      trace (main codec prng w)
      = [EStderr "Error: sum of data and parity shards cannot exceed 256"]).
Proof.
  intros Hsum. unfold main.
  destruct (decide (length (w_args w) ≠ 1%nat)) as [Hargs|Hargs].
  - split; [done|]. split; [|intros; done].
    repeat constructor.
  - rewrite decide_True by done.
    split; [done|]. split; [|done]. repeat constructor.
Qed.

Lemma wrapped_sum_above_256_rejected_witness :
  GoInt.add 255 2 > 256
  /\ result (main parity_codec digits_rng (calm "in.bin" 255 2 1024 [x01; x02])) = inl (Exit 1).
Proof.
  split; [done|].
  apply (wrapped_sum_above_256_rejected parity_codec digits_rng
           (calm "in.bin" 255 2 1024 [x01; x02])).
  done.
Defined.

(** Whenever the sum fits a machine integer, the program's sum is the
    mathematical one. *)
Lemma shard_sum_exact (k m : Z) :
  GoInt.in_range (k + m) -> GoInt.add k m > 256 <-> k + m > 256.
Proof. intros H. by rewrite GoIntFacts.add_exact. Qed.

(** ** The placement shuffler returns a permutation *)

(** C7. For every [n >= 0], whatever the generator and the clock,
    [genRandomArr n] returns a slice of length [n] that is a permutation of
    [0, 1, ..., n-1]: no duplicates, and its elements are exactly the
    numbers of [[0, n)].  For [n = 0] the result is empty, for [n = 1] it
    is [[0]]. *)
Theorem C7_genRandomArr_permutation (prng : PRNG) (n now : Z) :
  0 <= n ->
  exists shuff,
    genRandomArr prng n now = Some shuff
    /\ length shuff = Z.to_nat n
    /\ shuff ≡ₚ seqZ 0 n
    /\ NoDup shuff
    /\ (forall x, x ∈ shuff <-> 0 <= x < n)
    /\ (n = 0 -> shuff = [])
    /\ (n = 1 -> shuff = [0]).
Proof.
  intros Hn. destruct (genRandomArr_perm prng n now Hn) as (shuff & Hs & Hp).
  exists shuff. split_and!.
  - done.
  - rewrite Hp, length_seqZ. done.
  - done.
  - rewrite Hp. apply NoDup_seqZ.
  - intros x. rewrite Hp, elem_of_seqZ. lia.
  - intros ->. by apply Permutation_nil_r.
  - intros ->. by apply Permutation_singleton_r.
Qed.

Lemma C7_witness :
  0 <= 6
  /\ exists shuff,
       genRandomArr digits_rng 6 12345 = Some shuff
       /\ length shuff = Z.to_nat 6
       /\ shuff ≡ₚ seqZ 0 6
       /\ NoDup shuff
       /\ (forall x, x ∈ shuff <-> 0 <= x < 6)
       /\ (6 = 0 -> shuff = [])
       /\ (6 = 1 -> shuff = [0]).
Proof.
  split; [lia|]. apply (C7_genRandomArr_permutation digits_rng 6 12345). lia.
Defined.

(** ** Runs on sample inputs *)

(** The run on five bytes with two data shards, one parity shard and
    blocks of two bytes: two stripes, the second one short. *)
Lemma five_bytes_run :
  reads (trace sample_run) = [(0, 4%nat); (1, 1%nat)]
  /\ codec_inputs (trace sample_run)
     = [(0, [x01; x02; x03; x04]); (1, [x05; x02; x03; x04])]
  /\ encoded (trace sample_run)
     = [(0, [[x01; x02]; [x03; x04]; [x02; x06]]);
        (1, [[x05; x02]; [x03; x04]; [x06; x06]])]
  /\ ledger (trace sample_run) = [(0, [1; 2; 0]); (1, [0; 1; 2])]
  /\ writes_of 0 (trace sample_run) = [(0, [x03; x04], true); (1, [x05; x02], true)]
  /\ writes_of 1 (trace sample_run) = [(0, [x02; x06], true); (1, [x03; x04], true)]
  /\ writes_of 2 (trace sample_run) = [(0, [x01; x02], true); (1, [x06; x06], true)].
Proof. split_and!; vm_compute; reflexivity. Qed.

(** C2 at a failing input.  Five bytes in stripes of four: the second read
    delivers one byte, and the buffer handed to the codec for the final
    stripe is [5; 2; 3; 4]: beyond the byte read it still holds the bytes
    of the first stripe, not zeros. *)
Theorem C2_final_stripe_keeps_previous_bytes :
  reads (trace sample_run) = [(0, 4%nat); (1, 1%nat)]
  /\ codec_inputs (trace sample_run)
     = [(0, [x01; x02; x03; x04]); (1, [x05; x02; x03; x04])]
  /\ (drop 1 ∘ snd) <$> last (codec_inputs (trace sample_run))
     = Some [x02; x03; x04]
  /\ [x02; x03; x04] <> replicate 3 x00.
Proof. split_and!; [vm_compute; reflexivity..|discriminate]. Qed.


(** C4 at a failing input.  The first [Write] call fails; the run goes on,
    processes the second stripe, reports nothing and returns normally. *)
Theorem C4_failed_write_is_ignored :
  writes_of 0 (trace failing_write_run)
  = [(0, [x03; x04], false); (1, [x05; x02], true)]
  /\ ledger (trace failing_write_run) = [(0, [1; 2; 0]); (1, [0; 1; 2])]
  /\ omap (fun e => if e is EStderr msg then Some msg else None)
          (trace failing_write_run) = []
  /\ returned (result failing_write_run) = true.
Proof. split_and!; vm_compute; reflexivity. Qed.

(** C8 at a failing input.  10000 bytes of value 1 with the default
    configuration: three reads of 4096, 4096 and 1808 bytes, three stripes,
    a normal return, 3072 bytes for each of the six destinations; but the
    2288 bytes after the 1808 bytes read in the last stripe buffer are
    bytes of value 1 left from the second stripe, not zeros. *)
Theorem C8_ten_thousand_bytes :
  counts (reads (trace ten_thousand_run)) = [(0, 4096); (1, 4096); (2, 1808)]
  /\ returned (result ten_thousand_run) = true
  /\ (fun d => Z.of_nat (length (appended d (trace ten_thousand_run)))) <$> seq 0 6
     = replicate 6 3072
  /\ (drop (Z.to_nat 1808) ∘ snd) <$> last (codec_inputs (trace ten_thousand_run))
     = Some (replicate (Z.to_nat 2288) x01).
Proof. split_and!; vm_compute; reflexivity. Qed.

(** C10. A reader may deliver fewer bytes than asked for while input
    remains.  With eight bytes of input, stripes of four bytes and a first
    read that delivers three bytes, the run handles that stripe as the
    final one: it reads once, records one placement, returns normally, and
    five bytes of the input are never read. *)
Theorem C10_short_read_ends_the_run :
  exists w : World,
    let run := main parity_codec digits_rng w in
    w_read w 0 4%nat 8%nat = Deliver 3
    /\ length (w_input w) = 8%nat
    /\ GoInt.mul (w_dataShards w) (w_blockSize w) = 4
    /\ reads (trace run) = [(0, 3%nat)]
    /\ length (ledger (trace run)) = 1%nat
    /\ rest <$> (if result run is inr v then Some v else None)
       = Some [x04; x05; x06; x07; x08].
Proof.
  exists short_read_world. cbv zeta.
  split_and!; vm_compute; reflexivity.
Qed.

(** ** Steps of the program *)

Lemma index_ok {A : Type} (a : list A) (i : Z) (x : A) :
  0 <= i -> a !! Z.to_nat i = Some x -> index a i = ret x.
Proof. intros Hi Hx. unfold index. by rewrite decide_True, Hx. Qed.

Lemma index_nat_ok {A : Type} (a : list A) (i : nat) (x : A) :
  a !! i = Some x -> index a (Z.of_nat i) = ret x.
Proof. intros Hx. apply index_ok; [lia|]. by rewrite Nat2Z.id. Qed.

Lemma assign_ok {A : Type} (a : list A) (i : Z) (x : A) :
  0 <= i < Z.of_nat (length a) -> assign a i x = ret (<[Z.to_nat i:=x]> a).
Proof. intros Hi. unfold assign. by rewrite decide_True. Qed.

Lemma assign_out_of_range {A : Type} (a : list A) (i : Z) (x : A) :
  ~ 0 <= i < Z.of_nat (length a) -> assign a i x = stop (Panic PanicIndex).
Proof. intros Hi. unfold assign. by rewrite decide_False. Qed.

Lemma make_ok {A : Type} (zero : A) (n : Z) :
  0 <= n -> make zero n = ret (replicate (Z.to_nat n) zero).
Proof. intros Hn. unfold make. by rewrite decide_False by lia. Qed.


(** ** The run on two full stripes *)

(** 8192 bytes with the default configuration are exactly two stripes.
    Both are written, six shards of 1024 bytes each; then the loop runs a
    third time, reads nothing, and the assignment to [distribution[2]]
    panics. *)
Lemma two_full_stripes_run :
  counts (reads (trace two_stripes_run)) = [(0, 4096); (1, 4096); (2, 0)]
  /\ fst <$> ledger (trace two_stripes_run) = [0; 1]
  /\ (fun d => sizes (writes_of d (trace two_stripes_run))) <$> seq 0 6
     = replicate 6 [(0, 1024, true); (1, 1024, true)]
  /\ result two_stripes_run = inl (Panic PanicIndex).
Proof. split_and!; vm_compute; reflexivity. Qed.

(** ** One stripe when every call succeeds *)
Section WriteLoop.

Context (w : World) (dir file : string) (shards : list (list byte)) (perm : list Z).

Lemma payload_eq (d : nat) (j : Z) (p : list byte) :
  perm !! d = Some j -> shards !! Z.to_nat j = Some p -> payload perm shards d = p.
Proof. intros Hj Hp. unfold payload. rewrite Hj. simpl. by rewrite Hp. Qed.

Lemma write_shard_calm (d : nat) (j : Z) (p : list byte) (v : vars) :
  0 <= stripeno v ->
  distribution v !! Z.to_nat (stripeno v) = Some perm ->
  perm !! d = Some j -> 0 <= j -> shards !! Z.to_nat j = Some p ->
  (d < length (of_ v))%nat ->
  w_openfile w (stripeno v) d = None ->
  write_shard w dir file shards d v
  = ([EOpenOut (Handle (stripeno v) d) dir (file +:+ "." +:+ pretty d) true;
      EWrite (Handle (stripeno v) d) p (w_write w (stripeno v) d)],
     inr (Vars (data v) (rest v) (<[d:=Some (Handle (stripeno v) d)]> (of_ v))
               (distribution v) (stripeno v))).
Proof.
  intros Hs Hperm Hj Hj0 Hp Hd Hopen. unfold write_shard.
  rewrite (index_ok _ _ perm), bind_ret by done.
  rewrite (index_nat_ok _ _ j), bind_ret by done.
  rewrite Hopen, bind_emit, assign_ok, bind_ret by lia.
  unfold checkErr. rewrite bind_ret, (index_ok _ _ p), bind_ret by done.
  rewrite bind_emit, bind_ret, Nat2Z.id. reflexivity.
Qed.

Lemma write_loop_calm (s : Z) (n : nat) :
  0 <= s ->
  (forall d, (d < n)%nat ->
     exists j p, perm !! d = Some j /\ 0 <= j /\ shards !! Z.to_nat j = Some p) ->
  (forall d, w_openfile w s d = None) ->
  forall (c a : nat) (v : vars),
    stripeno v = s ->
    distribution v !! Z.to_nat s = Some perm ->
    length (of_ v) = n ->
    (a + c <= n)%nat ->
    for_each (write_shard w dir file shards) (seq a c) v
    = (flat_map (fun d => [EOpenOut (Handle s d) dir (file +:+ "." +:+ pretty d) true;
                           EWrite (Handle s d) (payload perm shards d) (w_write w s d)])
                (seq a c),
       inr (Vars (data v) (rest v)
                 (foldl (fun o d => <[d:=Some (Handle s d)]> o) (of_ v) (seq a c))
                 (distribution v) s)).
Proof.
  intros Hs Hall Hopen c. induction c as [|c IH]; intros a v Hv Hperm Hlen Hac.
  - simpl. unfold ret. destruct v; simpl in *. by subst.
  - simpl. destruct (Hall a) as (j & p & Hj & Hj0 & Hp); [lia|].
    rewrite (write_shard_calm a j p v); rewrite ?Hv; try done; [|lia].
    unfold bind at 1. rewrite IH; simpl; rewrite ?length_insert; try done; [|lia].
    by rewrite (payload_eq a j p).
Qed.

End WriteLoop.

Lemma bind_val {A B : Type} (t : list event) (a : A) (f : A -> M B) :
  bind (t, inr a) f = (t ++ trace (f a), result (f a)).
Proof. unfold bind, trace, result. by destruct (f a). Qed.

Section CalmStripe.

Context (codec : Codec) (prng : PRNG) (w : World) (enc : Encoder codec) (fname : string).

Let k := w_dataShards w.
Let m := w_parShards w.
Let bs := w_blockSize w.
Let size := Z.to_nat (k * bs).
Let nn := Z.to_nat (k + m).

Hypothesis Hcfg : valid_config k m bs.
Hypothesis Hcodec : codec_ok codec enc k m bs.
Lemma stripe_size_exact : GoInt.mul k bs = k * bs /\ 1 <= k * bs.
Proof.
  destruct Hcfg. split; [|nia].
  apply GoIntFacts.mul_exact. unfold GoInt.in_range, GoInt.min_int. nia.
Qed.

Lemma shard_count_exact : GoInt.add k m = k + m /\ 1 <= k + m.
Proof.
  destruct Hcfg. split; [|lia].
  apply GoIntFacts.add_exact. unfold GoInt.in_range, GoInt.min_int, GoInt.max_int. lia.
Qed.

Lemma buf_Read_calm (s : Z) (data rest : list byte) :
  (exists n, w_read w s (length data) (length rest) = Deliver n
             /\ (length data `min` length rest <= n)%nat) ->
  let b := (length data `min` length rest)%nat in
  buf_Read w s data rest
  = ([ERead s b], inr (b, take b rest ++ drop b data, drop b rest)).
Proof.
  intros (n & Hn1 & Hn) b. unfold buf_Read. rewrite Hn1.
  rewrite bind_emit. simpl.
  replace ((n `min` length data) `min` length rest)%nat with b by lia.
  reflexivity.
Qed.

Lemma codec_on_buffer (buf : list byte) :
  length buf = size ->
  exists shards0 shards,
    Split codec enc buf = inr shards0
    /\ Encode codec enc shards0 = inr shards
    /\ shaped nn (Z.to_nat bs) shards0
    /\ shaped nn (Z.to_nat bs) shards
    /\ split_of codec enc buf = shards0
    /\ encode_of codec enc buf = shards.
Proof.
  intros Hlen. destruct stripe_size_exact as [_ Hpos].
  destruct (split_shape _ _ _ _ _ Hcodec buf) as (shards0 & Hsplit & Hsh0).
  { rewrite Hlen. unfold size. lia. }
  destruct (encode_shape _ _ _ _ _ Hcodec shards0 Hsh0) as (shards & Henc & Hsh).
  exists shards0, shards. unfold encode_of, split_of. rewrite Hsplit, Henc. done.
Qed.

Lemma placement_perm (s : Z) :
  genRandomArr prng (GoInt.add k m) (w_now w s) = Some (placement prng w s)
  /\ placement prng w s ≡ₚ seqZ 0 (k + m).
Proof.
  destruct shard_count_exact as [Hadd Hpos]. unfold placement. fold k m.
  rewrite Hadd.
  destruct (genRandomArr_perm prng (k + m) (w_now w s)) as (perm & -> & Hp); [lia|].
  done.
Qed.

Lemma placement_lookup (s : Z) (shards : list (list byte)) (d : nat) :
  shaped nn (Z.to_nat bs) shards -> (d < nn)%nat ->
  exists j p, placement prng w s !! d = Some j /\ 0 <= j
              /\ shards !! Z.to_nat j = Some p /\ length p = Z.to_nat bs.
Proof.
  intros [Hlen Hall] Hd. destruct (placement_perm s) as [_ Hp].
  assert (length (placement prng w s) = nn) as Hlp.
  { rewrite Hp, length_seqZ. done. }
  destruct (lookup_lt_is_Some_2 (placement prng w s) d) as [j Hj]; [lia|].
  assert (0 <= j < k + m) as Hjr.
  { apply list_elem_of_lookup_2 in Hj. rewrite Hp, elem_of_seqZ in Hj. lia. }
  destruct (lookup_lt_is_Some_2 shards (Z.to_nat j)) as [p Hpj]; [unfold nn in *; lia|].
  exists j, p. split_and!; try done; try lia.
  by apply (Forall_lookup_1 _ _ _ _ Hall Hpj).
Qed.

Lemma stripe_calm (v : vars) :
  length (data v) = size -> length (of_ v) = nn -> 0 <= stripeno v ->
  (exists n, w_read w (stripeno v) size (length (rest v)) = Deliver n
             /\ (size `min` length (rest v) <= n)%nat) ->
  (stripeno v < Z.of_nat (length (distribution v)) ->
   forall d, w_openfile w (stripeno v) d = None) ->
  let s := stripeno v in
  let b := (size `min` length (rest v))%nat in
  let buf := take b (rest v) ++ drop b (data v) in
  stripe codec prng w enc fname (k * bs) v
  = if decide (s < Z.of_nat (length (distribution v))) then
      (stripe_block codec prng w enc (dest_dir w fname) (dest_file fname) nn (s, b, buf),
       inr (bool_decide (b < size)%nat,
            Vars buf (drop b (rest v)) (handles s nn)
                 (<[Z.to_nat s:=placement prng w s]> (distribution v))
                 (if decide (b < size)%nat then s else GoInt.add s 1)))
    else (stripe_head codec enc s b buf, inl (Panic PanicIndex)).
Proof.
  intros Hdata Hof Hs Hread Hopen s b buf. unfold stripe.
  destruct stripe_size_exact as [_ Hpos].
  rewrite buf_Read_calm, Hdata by (by rewrite Hdata). fold b. fold buf. rewrite bind_val. cbv beta iota.
  assert (length buf = size) as Hbuf.
  { unfold buf. rewrite length_app, length_take, length_drop. lia. }
  destruct (codec_on_buffer buf Hbuf) as (shards0 & shards & Hsplit & Henc & Hsh0 & Hsh & Hso & Heo).
  rewrite Hsplit. unfold checked, checkErr. rewrite !bind_ret, bind_emit.
  destruct Hsh0 as [Hlen0 Hall0]. destruct (shard_count_exact) as [Hadd Hnpos].
  destruct (lookup_lt_is_Some_2 shards0 0) as [shard0 Hshard0]; [unfold nn in *; lia|].
  rewrite (index_ok _ _ shard0), bind_ret, bind_emit by done.
  rewrite Henc, !bind_ret, bind_emit.
  unfold dest_dir, dest_file. destruct (path_split fname) as [dir file]. cbn [fst snd].
  destruct (placement_perm s) as [Hgen Hperm]. fold s. fold k m in Hgen |- *.
  rewrite Hgen, bind_ret.
  unfold stripe_block, stripe_head, trace, result. rewrite Hso, Heo, Hshard0.
  destruct (decide (s < Z.of_nat (length (distribution v)))) as [Hslot|Hslot].
  - rewrite assign_ok, bind_ret, bind_emit by lia.
    destruct Hsh as [Hlen Hall]. rewrite Hlen.
    rewrite (write_loop_calm w _ _ shards (placement prng w s) s nn); simpl; try done.
    + unfold handles, write_events. rewrite <- Hof, insert_seq_all, Hof, Heo.
      destruct (decide (b < size)%nat) as [Hb|Hb].
      * rewrite decide_True by (unfold size in *; lia).
        rewrite (bool_decide_true (b < size)%nat) by done.
        simpl. by rewrite app_nil_r.
      * rewrite decide_False by (unfold size in *; lia).
        rewrite (bool_decide_false (b < size)%nat) by done.
        simpl. by rewrite app_nil_r.
    + intros d Hd. destruct (placement_lookup s shards d) as (j & p & ? & ? & ? & ?); [done..|].
      by exists j, p.
    + by apply Hopen.
    + rewrite list_lookup_insert_eq; [done|lia].
  - rewrite assign_out_of_range by lia. simpl. done.
Qed.

Hypothesis Hread : forall s want rem,
  exists n, w_read w s want rem = Deliver n /\ (want `min` rem <= n)%nat.
Hypothesis Hopen : forall s d, w_openfile w s d = None.

(** The loop: the stripes are the windows of the input, as long as the
    ledger has a slot for them; the stripe after the last slot panics. *)
Lemma stripes_calm (fuel : nat) :
  forall (v : vars) (slots : nat),
    length (data v) = size -> length (of_ v) = nn -> 0 <= stripeno v ->
    (length (rest v) < fuel)%nat ->
    Z.of_nat (length (distribution v)) = stripeno v + Z.of_nat slots ->
    Z.of_nat (length (distribution v)) <= GoInt.max_int ->
    let W := windows fuel size (stripeno v) (data v) (rest v) in
    let run := stripes codec prng w fuel enc fname (k * bs) v in
    trace run
    = flat_map (stripe_block codec prng w enc (dest_dir w fname) (dest_file fname) nn)
               (take slots W)
      ++ (if W !! slots is Some (s', b, buf) then stripe_head codec enc s' b buf else [])
    /\ (is_Some (W !! slots) -> result run = inl (Panic PanicIndex))
    /\ (W !! slots = None ->
        exists v' s' b buf,
          result run = inr v' /\ last W = Some (s', b, buf)
          /\ of_ v' = handles s' nn /\ stripeno v' = s').
Proof.
  induction fuel as [|fuel IH]; intros v slots Hdata Hof Hs Hfuel Hslots Hmax; [lia|].
  destruct stripe_size_exact as [_ Hpos].
  cbn [windows stripes]. rewrite stripe_calm by done.
  set (s := stripeno v) in *.
  set (b := (size `min` length (rest v))%nat).
  set (buf := take b (rest v) ++ drop b (data v)).
  destruct slots as [|slots].
  - rewrite decide_False by lia. simpl. split_and!; [done|done|discriminate].
  - rewrite decide_True by lia. rewrite bind_val.
    destruct (decide (b < size)%nat) as [Hb|Hb].
    + rewrite bool_decide_true by done. cbn -[stripe_block].
      rewrite take_nil. cbn -[stripe_block]. rewrite !app_nil_r.
      split_and!; [done|by intros [? ?]|].
      intros _. eexists _, s, b, buf. done.
    + rewrite bool_decide_false by done. cbv beta iota.
      assert (GoInt.add s 1 = s + 1) as ->.
      { apply GoIntFacts.add_exact. unfold GoInt.in_range, GoInt.min_int in *. lia. }
      assert (length buf = size) as Hbuf.
      { unfold buf. rewrite length_app, length_take, length_drop. lia. }
      edestruct (IH (Vars buf (drop b (rest v)) (handles s nn)
                          (<[Z.to_nat s:=placement prng w s]> (distribution v)) (s + 1))
                    slots) as (Ht & Hpanic & Hret); simpl.
      * done.
      * unfold handles. by rewrite length_fmap, length_seq.
      * lia.
      * rewrite length_drop. unfold size in *. lia.
      * rewrite length_insert. lia.
      * by rewrite length_insert.
      * simpl in Ht, Hpanic, Hret. unfold trace, result in *. simpl.
        rewrite Ht. split_and!.
        -- by rewrite <- !(assoc_L (++)).
        -- done.
        -- intros Hnone. destruct (Hret Hnone) as (v' & s' & b' & buf' & Hr & Hlast & Hv').
           exists v', s', b', buf'. split; [done|]. split; [|done].
           rewrite last_cons, Hlast. done.
Qed.

End CalmStripe.

(** ** The stripes of an input *)
Section Windows.

Context (size : nat) (Hsize : (0 < size)%nat).

Lemma windows_length (fuel : nat) :
  forall (s : Z) (data rest : list byte),
    (length rest < fuel)%nat ->
    length (windows fuel size s data rest) = S (length rest / size).
Proof.
  induction fuel as [|fuel IH]; intros s data rest Hfuel; [lia|].
  cbn [windows]. destruct (decide (size `min` length rest < size)%nat) as [Hb|Hb].
  - simpl. rewrite Nat.div_small by lia. done.
  - simpl. rewrite IH by (rewrite length_drop; lia). f_equal.
    rewrite length_drop. replace (size `min` length rest)%nat with size by lia.
    replace (length rest) with (length rest - size + 1 * size)%nat at 2 by lia.
    rewrite Nat.div_add by lia. lia.
Qed.

Lemma windows_stripes (fuel : nat) :
  forall (s : Z) (data rest : list byte),
    (fun x => x.1.1) <$> windows fuel size s data rest
    = seqZ s (Z.of_nat (length (windows fuel size s data rest))).
Proof.
  induction fuel as [|fuel IH]; intros s data rest; [done|].
  cbn [windows]. destruct (decide (size `min` length rest < size)%nat) as [Hb|Hb].
  - done.
  - cbn [fmap list_fmap length]. rewrite (seqZ_cons s) by lia. rewrite IH.
    simpl. do 2 f_equal. lia.
Qed.

Lemma windows_counts (fuel : nat) :
  forall (s : Z) (data rest : list byte),
    (length rest < fuel)%nat ->
    (fun x => x.1.2) <$> windows fuel size s data rest
    = replicate (length rest / size) size ++ [(length rest `mod` size)%nat].
Proof.
  induction fuel as [|fuel IH]; intros s data rest Hfuel; [lia|].
  cbn [windows]. destruct (decide (size `min` length rest < size)%nat) as [Hb|Hb].
  - simpl. rewrite Nat.div_small, Nat.mod_small by lia. simpl. f_equal. lia.
  - cbn [fmap list_fmap]. rewrite IH by (rewrite length_drop; lia).
    rewrite length_drop. replace (size `min` length rest)%nat with size by lia.
    replace (length rest) with (length rest - size + 1 * size)%nat at 3 4 by lia.
    rewrite Nat.div_add, Nat.Div0.mod_add by lia.
    rewrite Nat.add_1_r. done.
Qed.

Lemma windows_buffers (fuel : nat) :
  forall (s : Z) (data rest : list byte),
    length data = size ->
    Forall (fun x => length x.2 = size) (windows fuel size s data rest).
Proof.
  induction fuel as [|fuel IH]; intros s data rest Hdata; [constructor|].
  cbn [windows].
  assert (length (take (size `min` length rest) rest
                  ++ drop (size `min` length rest) data) = size) as Hbuf.
  { rewrite length_app, length_take, length_drop. lia. }
  constructor; [done|]. destruct (decide _); [constructor|]. by apply IH.
Qed.

End Windows.

(** ** Closing the destinations *)

Lemma for_each_emit {St : Type} (body : nat -> St -> M St) (f : nat -> event)
    (idx : list nat) (st : St) :
  (forall i, i ∈ idx -> body i st = ([f i], inr st)) ->
  for_each body idx st = (f <$> idx, inr st).
Proof.
  induction idx as [|i idx IH]; intros Hbody; [done|].
  simpl. rewrite Hbody by apply list_elem_of_here. rewrite bind_val.
  rewrite IH; [done|]. intros j Hj. apply Hbody. by apply list_elem_of_further.
Qed.

Lemma close_all_handles (s : Z) (n : nat) :
  close_all (handles s n) = ((fun d => ECloseOut (Handle s d)) <$> seq 0 n, inr tt).
Proof.
  unfold close_all, handles. rewrite length_fmap, length_seq.
  apply for_each_emit. intros i Hi. apply elem_of_seq in Hi.
  rewrite list_lookup_fmap, lookup_seq_lt by lia. done.
Qed.

(** ** The whole run when every call succeeds *)

Lemma stripe_num_exact (len size : Z) :
  0 <= len -> 1 <= size -> len + size <= GoInt.max_int ->
  GoInt.quo (GoInt.sub (GoInt.add len size) 1) size = (len + size - 1) `div` size
  /\ 0 <= (len + size - 1) `div` size <= GoInt.max_int.
Proof.
  intros Hlen Hsize Hmax.
  assert (0 <= (len + size - 1) `div` size <= len + size - 1) as Hq.
  { split; [apply Z.div_pos; lia|]. apply Z.div_le_upper_bound; nia. }
  split; [|lia].
  rewrite GoIntFacts.add_exact by (unfold GoInt.in_range, GoInt.min_int in *; lia).
  rewrite GoIntFacts.sub_exact by (unfold GoInt.in_range, GoInt.min_int in *; lia).
  rewrite GoIntFacts.quo_exact; rewrite Z.quot_div_nonneg by lia; [done|].
  unfold GoInt.in_range, GoInt.min_int in *. lia.
Qed.

Section CalmMain.

Context (codec : Codec) (prng : PRNG) (w : World) (enc : Encoder codec).

Let k := w_dataShards w.
Let m := w_parShards w.
Let bs := w_blockSize w.

Hypothesis Hcfg : valid_config k m bs.
Hypothesis Hnew : New codec k m = inr enc.
Hypothesis Hcodec : codec_ok codec enc k m bs.

Lemma encode_file_stripes (fname : string) :
  w_stat w = None -> w_copy w = None -> w_seek w = true ->
  Z.of_nat (length (w_input w)) + k * bs <= GoInt.max_int ->
  encode_file codec prng w enc fname
  = bind ([EStat fname true; EHashCopy true; ESeekStart true; EPrintOpening fname], inr tt)
      (fun _ =>
         bind (stripes codec prng w (S (length (w_input w))) enc fname (k * bs)
                 (Vars (replicate (stripe_bytes w) x00) (w_input w)
                       (replicate (shard_count w) None)
                       (replicate (ledger_slots w) []) 0))
           (fun v => bind (close_all (of_ v)) (fun _ => bind (emit EPrintTime) (fun _ => ret v)))).
Proof.
  intros Hstat Hcopy Hseek Hmax. unfold encode_file.
  destruct (stripe_size_exact w Hcfg) as [Hmul Hpos].
  destruct (shard_count_exact w Hcfg) as [Hadd Hnpos].
  destruct (stripe_num_exact (Z.of_nat (length (w_input w))) (k * bs)) as [Hnum Hnum'];
    [lia..|].
  unfold k, m, bs in *. rewrite Hstat, Hcopy, Hseek, Hmul, Hadd.
  rewrite !bind_emit, !bind_ret. rewrite !make_ok, !bind_ret by lia.
  rewrite decide_False, bind_ret by lia.
  rewrite Hnum. rewrite make_ok, bind_ret by lia.
  rewrite bind_val. reflexivity.
Qed.

(** [main] up to the stripe loop, when the input file is ready. *)
Lemma main_stripes :
  input_ready w ->
  Z.of_nat (length (w_input w)) + k * bs <= GoInt.max_int ->
  main codec prng w
  = bind (prelude (input_name w), inr tt)
      (fun _ => deferred ECloseInput
         (bind (stripes codec prng w (S (length (w_input w))) enc (input_name w) (k * bs)
                  (Vars (replicate (stripe_bytes w) x00) (w_input w)
                        (replicate (shard_count w) None)
                        (replicate (ledger_slots w) []) 0))
            (fun v => bind (close_all (of_ v))
                        (fun _ => bind (emit EPrintTime) (fun _ => ret v))))).
Proof.
  intros [Hargs Hopen Hstat Hcopy Hseek] Hsize.
  destruct (shard_count_exact w Hcfg) as [Hadd Hnpos].
  unfold main. rewrite decide_False by (by intros ?).
  rewrite decide_False by (destruct Hcfg; unfold k, m in *; lia).
  fold k m. rewrite Hnew. unfold checked, checkErr. rewrite !bind_ret.
  rewrite Hopen. rewrite bind_emit, bind_ret.
  fold (input_name w). rewrite encode_file_stripes by done.
  rewrite !bind_val.
  set (body := bind (stripes _ _ _ _ _ _ _ _) _).
  unfold prelude, deferred, trace, result.
  destruct body as [t [[c| |]|v]]; simpl; by rewrite ?app_nil_r.
Qed.

Lemma main_calm :
  calm_world w ->
  let W := input_windows w in
  let L := ledger_slots w in
  let run := main codec prng w in
  trace run
  = prelude (input_name w)
    ++ flat_map (stripe_block codec prng w enc (dest_dir w (input_name w))
                   (dest_file (input_name w)) (shard_count w))
                (take L W)
    ++ match W !! L with
       | Some (s, b, buf) => stripe_head codec enc s b buf
       | None => if last W is Some (s, _, _) then epilogue (shard_count w) s else []
       end
    ++ [ECloseInput]
  /\ (is_Some (W !! L) -> result run = inl (Panic PanicIndex))
  /\ (W !! L = None -> returned (result run) = true).
Proof.
  intros [Hready Hread Hopenfile Hsize] W L run.
  destruct (stripe_num_exact (Z.of_nat (length (w_input w))) (k * bs)) as [Hnum Hnum'];
    [lia|apply (stripe_size_exact w Hcfg)|done|].
  set (loop := stripes codec prng w (S (length (w_input w))) enc (input_name w) (k * bs)
                (Vars (replicate (stripe_bytes w) x00) (w_input w)
                      (replicate (shard_count w) None)
                      (replicate (ledger_slots w) []) 0)).
  assert (trace loop
          = flat_map (stripe_block codec prng w enc (dest_dir w (input_name w))
                        (dest_file (input_name w)) (shard_count w)) (take L W)
            ++ (if W !! L is Some (s', b, buf) then stripe_head codec enc s' b buf else [])
          /\ (is_Some (W !! L) -> result loop = inl (Panic PanicIndex))
          /\ (W !! L = None ->
              exists v' s' b buf,
                result loop = inr v' /\ last W = Some (s', b, buf)
                /\ of_ v' = handles s' (shard_count w) /\ stripeno v' = s'))
    as (Ht & Hpanic & Hret).
  { apply (stripes_calm codec prng w enc (input_name w) Hcfg Hcodec Hread Hopenfile
             (S (length (w_input w)))
             (Vars (replicate (stripe_bytes w) x00) (w_input w)
                   (replicate (shard_count w) None)
                   (replicate (ledger_slots w) []) 0) L);
      cbn [data rest of_ distribution stripeno]; rewrite ?length_replicate;
      try done; try lia.
    unfold L, ledger_slots. fold k bs. lia. }
  unfold run. rewrite main_stripes by done. fold loop.
  rewrite bind_val. unfold trace at 1, result at 1 2.
  destruct (W !! L) as [[[s b] buf]|] eqn:HWL.
  - rewrite (bind_halted loop _ (Panic PanicIndex)) by (by apply Hpanic).
    rewrite deferred_panic. cbn [fst snd]. rewrite Ht.
    split_and!; [|done|done]. by rewrite <- !(assoc_L (++)).
  - destruct (Hret eq_refl) as (v' & s' & b' & buf' & Hr & Hlast & Hof & Hs').
    rewrite (bind_returned loop _ v') by done.
    rewrite Hof, close_all_handles, bind_val, bind_emit. cbn [trace result fst snd ret].
    rewrite deferred_returned. cbn [fst snd]. rewrite Ht, Hlast.
    split_and!; [|done|done]. unfold epilogue, trace. cbn [fst].
    by rewrite app_nil_r, <- !(assoc_L (++)).
Qed.

End CalmMain.

(** ** The XOR-parity codec meets the contract of the codec *)

Lemma chunks_shaped (per n : nat) (l : list byte) :
  length l = (n * per)%nat -> shaped n per (chunks per n l).
Proof.
  revert l. induction n as [|n IH]; intros l Hl; simpl.
  - split; [done|constructor].
  - destruct (IH (drop per l)) as [Hlen Hall].
    { rewrite length_drop. lia. }
    split; simpl; [by rewrite Hlen|].
    constructor; [|done]. rewrite length_take. lia.
Qed.

Lemma xor_fold_length (per : nat) (shards : list (list byte)) :
  Forall (fun s => length s = per) shards ->
  length (foldr (zip_with byte_xor) (replicate per x00) shards) = per.
Proof.
  induction 1 as [|s shards Hs _ IH]; simpl.
  - apply length_replicate.
  - rewrite length_zip_with. lia.
Qed.

Lemma shaped_app (n1 n2 per : nat) (l1 l2 : list (list byte)) :
  shaped n1 per l1 -> shaped n2 per l2 -> shaped (n1 + n2) per (l1 ++ l2).
Proof.
  intros [H1 F1] [H2 F2]. split.
  - rewrite length_app. lia.
  - by apply Forall_app.
Qed.

Lemma shaped_replicate (n per : nat) (p : list byte) :
  length p = per -> shaped n per (replicate n p).
Proof.
  intros Hp. split; [apply length_replicate|].
  apply Forall_forall. intros x Hx. by apply elem_of_replicate in Hx as [-> _].
Qed.

Lemma parity_codec_ok (k m bs : Z) :
  1 <= k -> 0 <= m -> 1 <= bs ->
  codec_ok parity_codec (Z.to_nat k, Z.to_nat m) k m bs.
Proof.
  intros Hk Hm Hbs.
  assert (Z.to_nat (k + m) = (Z.to_nat k + Z.to_nat m)%nat) as Hn by lia.
  split.
  - intros buf Hbuf. simpl. unfold parity_Split.
    assert (length buf = (Z.to_nat k * Z.to_nat bs)%nat) as Hlen by nia.
    rewrite decide_False by nia.
    assert ((length buf + Z.to_nat k - 1) / Z.to_nat k = Z.to_nat bs)%nat as ->.
    { rewrite Hlen. symmetry. apply (Nat.div_unique _ _ _ (Z.to_nat k - 1)); lia. }
    eexists. split; [done|]. rewrite Hn.
    apply shaped_app.
    + apply chunks_shaped. rewrite length_app, length_replicate. lia.
    + apply shaped_replicate, length_replicate.
  - intros shards [Hlen Hall]. simpl. unfold parity_Encode.
    rewrite decide_False by lia.
    destruct shards as [|s0 shards]; [simpl in Hlen; lia|].
    assert (length s0 = Z.to_nat bs) as Hs0 by (by inversion Hall).
    cbn [lookup list_lookup default from_option id]. rewrite Hs0.
    rewrite decide_False by (intros [?|Hn']; [lia|by apply Hn']).
    eexists. split; [done|]. rewrite Hn.
    apply shaped_app.
    + split; [rewrite length_take; lia|]. by apply Forall_take.
    + apply shaped_replicate, xor_fold_length. by apply Forall_take.
Qed.

(** ** The empty input *)

(** C9. On an input file of length 0, with a valid configuration and a
    codec that accepts it, the ledger [distribution] has no slot, the
    stripe loop still runs once (a read of 0 bytes, then [Split] and
    [Encode] on the zero buffer), and the assignment to [distribution[0]]
    panics: the run does not return from [main]. *)
Theorem C9_empty_input_panics (codec : Codec) (prng : PRNG) (w : World)
    (enc : Encoder codec) :
  valid_config (w_dataShards w) (w_parShards w) (w_blockSize w) ->
  New codec (w_dataShards w) (w_parShards w) = inr enc ->
  codec_ok codec enc (w_dataShards w) (w_parShards w) (w_blockSize w) ->
  input_ready w ->
  w_input w = [] ->
  (exists n, w_read w 0 (stripe_bytes w) 0%nat = Deliver n) ->
  ledger_slots w = 0%nat
  /\ result (main codec prng w) = inl (Panic PanicIndex)
  /\ trace (main codec prng w)
     = prelude (input_name w)
       ++ stripe_head codec enc 0 0 (replicate (stripe_bytes w) x00)
       ++ [ECloseInput]
  /\ reads (trace (main codec prng w)) = [(0, 0%nat)]
  /\ ledger (trace (main codec prng w)) = [].
Proof.
  intros Hcfg Hnew Hcodec Hready Hinput [n Hn].
  destruct (stripe_size_exact w Hcfg) as [_ Hpos].
  assert (ledger_slots w = 0%nat) as Hslots.
  { unfold ledger_slots. rewrite Hinput. simpl. rewrite Z.div_small; lia. }
  assert (main codec prng w
          = (prelude (input_name w)
             ++ stripe_head codec enc 0 0 (replicate (stripe_bytes w) x00)
             ++ [ECloseInput], inl (Panic PanicIndex))) as Hmain.
  { rewrite (main_stripes codec prng w enc Hcfg Hnew Hready).
    2:{ rewrite Hinput. destruct Hcfg. simpl. lia. }
    rewrite Hinput, Hslots. cbn [length stripes].
    rewrite (stripe_calm codec prng w enc (input_name w) Hcfg Hcodec);
      cbn [data rest of_ distribution stripeno length]; rewrite ?length_replicate;
      try done; [|exists n; split; [done|lia]|lia..].
    rewrite decide_False by lia. rewrite Nat.min_0_r. cbn [take drop app].
    rewrite bind_val. rewrite (bind_halted _ _ (Panic PanicIndex)) by done.
    rewrite (bind_halted _ _ (Panic PanicIndex)) by done.
    rewrite deferred_panic. cbn [trace result fst snd]. by rewrite drop_0. }
  rewrite Hmain. split_and!; try done.
Qed.

Lemma C9_witness :
  w_input (calm "in.bin" 4 2 1024 []) = []
  /\ result (main parity_codec digits_rng (calm "in.bin" 4 2 1024 []))
     = inl (Panic PanicIndex).
Proof.
  split; [done|].
  apply (C9_empty_input_panics parity_codec digits_rng (calm "in.bin" 4 2 1024 [])
           (4%nat, 2%nat)).
  - split; simpl; unfold GoInt.max_int; lia.
  - reflexivity.
  - apply (parity_codec_ok 4 2 1024); lia.
  - by split.
  - reflexivity.
  - by exists (Z.to_nat 4096).
Defined.

(** ** Observations on the events of a stripe *)

Lemma omap_flat_map {A B C : Type} (f : B -> option C) (g : A -> list B) (l : list A) :
  omap f (flat_map g l) = flat_map (fun x => omap f (g x)) l.
Proof. induction l as [|x l IH]; simpl; [done|]. by rewrite omap_app, IH. Qed.

Lemma flat_map_singleton {A B : Type} (g : A -> B) (l : list A) :
  flat_map (fun x => [g x]) l = g <$> l.
Proof. induction l as [|x l IH]; simpl; [done|]. by rewrite IH. Qed.

Lemma flat_map_nil {A B : Type} (l : list A) :
  flat_map (fun _ => @nil B) l = [].
Proof. by induction l. Qed.

Lemma omap_fmap_None {A B C : Type} (f : B -> option C) (g : A -> B) (l : list A) :
  (forall x, f (g x) = None) -> omap f (g <$> l) = [].
Proof. intros H. induction l as [|x l IH]; simpl; [done|]. by rewrite H. Qed.

Lemma omap_fmap_Some {A B C : Type} (f : B -> option C) (g : A -> B) (h : A -> C)
    (l : list A) :
  (forall x, f (g x) = Some (h x)) -> omap f (g <$> l) = h <$> l.
Proof.
  intros H. induction l as [|x l IH]; [done|].
  rewrite fmap_cons. simpl. rewrite H. f_equal. exact IH.
Qed.

Lemma flat_map_pick {C : Type} (d : nat) (x : nat -> C) (a n : nat) :
  flat_map (fun i => if decide (i = d) then [x i] else []) (seq a n)
  = if decide (a <= d < a + n)%nat then [x d] else [].
Proof.
  revert a. induction n as [|n IH]; intros a; simpl.
  - by rewrite decide_False by lia.
  - rewrite IH. repeat case_decide; subst; simpl; (done || lia).
Qed.

Section BlockObserved.

Context (codec : Codec) (prng : PRNG) (w : World) (enc : Encoder codec).
Context (dir file : string) (n : nat).

Local Notation "'block'" := (stripe_block codec prng w enc dir file n).

Lemma reads_block s b buf : reads (block (s, b, buf)) = [(s, b)].
Proof.
  unfold stripe_block, reads. rewrite !omap_app, omap_flat_map. simpl.
  by rewrite flat_map_nil.
Qed.

Lemma codec_inputs_block s b buf : codec_inputs (block (s, b, buf)) = [(s, buf)].
Proof.
  unfold stripe_block, codec_inputs. rewrite !omap_app, omap_flat_map. simpl.
  by rewrite flat_map_nil.
Qed.

Lemma encoded_block s b buf : encoded (block (s, b, buf)) = [(s, encode_of codec enc buf)].
Proof.
  unfold stripe_block, encoded. rewrite !omap_app, omap_flat_map. simpl.
  by rewrite flat_map_nil.
Qed.

Lemma ledger_block s b buf : ledger (block (s, b, buf)) = [(s, placement prng w s)].
Proof.
  unfold stripe_block, ledger. rewrite !omap_app, omap_flat_map. simpl.
  by rewrite flat_map_nil.
Qed.

Lemma closes_block s b buf : closes (block (s, b, buf)) = [].
Proof.
  unfold stripe_block, closes. rewrite !omap_app, omap_flat_map. simpl.
  by rewrite flat_map_nil.
Qed.

Lemma opens_of_block d s b buf :
  (d < n)%nat -> opens_of d (block (s, b, buf)) = [s].
Proof.
  intros Hd. unfold stripe_block, opens_of. rewrite !omap_app, omap_flat_map. simpl.
  rewrite (flat_map_ext _ (fun i => if decide (i = d) then [s] else [])).
  - rewrite flat_map_pick. by rewrite decide_True by lia.
  - intros i. by destruct (decide (i = d)).
Qed.

Lemma writes_of_block d s b buf :
  (d < n)%nat ->
  writes_of d (block (s, b, buf))
  = [(s, payload (placement prng w s) (encode_of codec enc buf) d, w_write w s d)].
Proof.
  intros Hd. unfold stripe_block, writes_of. rewrite !omap_app, omap_flat_map. simpl.
  rewrite (flat_map_ext _ (fun i => if decide (i = d)
             then [(s, payload (placement prng w s) (encode_of codec enc buf) i, w_write w s i)]
             else [])).
  - rewrite flat_map_pick. by rewrite decide_True by lia.
  - intros i. by destruct (decide (i = d)).
Qed.

Lemma dest_ops_block s b buf : dest_ops (block (s, b, buf)) = stripe_ops n s.
Proof.
  unfold stripe_block, dest_ops, stripe_ops. rewrite !omap_app, omap_flat_map. simpl.
  by apply flat_map_ext.
Qed.

End BlockObserved.

(** ** Observations on a run in which every call succeeds *)

Lemma slots_windows (w : World) :
  valid_config (w_dataShards w) (w_parShards w) (w_blockSize w) ->
  let len := length (w_input w) in
  let size := stripe_bytes w in
  length (input_windows w) = S (len / size)
  /\ ledger_slots w
     = (if decide (len `mod` size = 0) then len / size else S (len / size))%nat.
Proof.
  intros Hcfg len size. destruct (stripe_size_exact w Hcfg) as [_ Hpos].
  assert (0 < size)%nat as Hsize by (unfold size, stripe_bytes; lia).
  split.
  - unfold input_windows. rewrite windows_length; [done|done|lia].
  - unfold ledger_slots. fold len.
    assert (w_dataShards w * w_blockSize w = Z.of_nat size) as -> by (unfold size, stripe_bytes; lia).
    pose proof (Nat.div_mod_eq len size) as Hdm.
    pose proof (Nat.mod_upper_bound len size ltac:(lia)) as Hr.
    case_decide as Hz.
    + rewrite <- (Z.div_unique (Z.of_nat len + Z.of_nat size - 1) (Z.of_nat size)
                   (Z.of_nat (len / size)) (Z.of_nat size - 1)); [lia|lia|nia].
    + rewrite <- (Z.div_unique (Z.of_nat len + Z.of_nat size - 1) (Z.of_nat size)
                   (Z.of_nat (S (len / size))) (Z.of_nat (len `mod` size) - 1)); [lia|lia|nia].
Qed.

Section CalmObserved.

Context (codec : Codec) (prng : PRNG) (w : World) (enc : Encoder codec).

Hypothesis Hcfg : valid_config (w_dataShards w) (w_parShards w) (w_blockSize w).
Hypothesis Hnew : New codec (w_dataShards w) (w_parShards w) = inr enc.
Hypothesis Hcodec : codec_ok codec enc (w_dataShards w) (w_parShards w) (w_blockSize w).
Hypothesis Hcalm : calm_world w.

Local Notation "'W'" := (input_windows w).
Local Notation "'L'" := (ledger_slots w).
Local Notation "'run'" := (main codec prng w).

Lemma slots_le_windows : (L <= length W)%nat.
Proof. destruct (slots_windows w Hcfg) as [-> ->]. case_decide; lia. Qed.

Lemma processed_stripes : (fun x => x.1.1) <$> take L W = seqZ 0 (Z.of_nat L).
Proof.
  assert (0 < stripe_bytes w)%nat as Hsize.
  { destruct (stripe_size_exact w Hcfg). unfold stripe_bytes. lia. }
  rewrite fmap_take. unfold input_windows at 1.
  rewrite (windows_stripes _ Hsize). fold (input_windows w).
  pose proof slots_le_windows as Hle.
  apply list_eq. intros i. rewrite lookup_take.
  case_decide as Hi.
  - rewrite !lookup_seqZ_lt by lia. done.
  - rewrite lookup_seqZ_ge by lia. done.
Qed.

Lemma ledger_calm :
  ledger (trace run) = (fun x => (x.1.1, placement prng w x.1.1)) <$> take L W.
Proof.
  destruct (main_calm codec prng w enc Hcfg Hnew Hcodec Hcalm) as (Ht & _ & _).
  rewrite Ht. unfold ledger. rewrite !omap_app, omap_flat_map.
  rewrite (flat_map_ext _ (fun x => [(x.1.1, placement prng w x.1.1)]))
    by (intros [[s b] buf]; apply ledger_block).
  rewrite flat_map_singleton.
  destruct (W !! L) as [[[s b] buf]|]; [|destruct (last W) as [[[s b] buf]|]];
    unfold prelude, epilogue; rewrite ?omap_app, ?omap_fmap_None by done;
    simpl; by rewrite ?app_nil_r.
Qed.

Lemma opens_of_calm (d : nat) :
  (d < shard_count w)%nat ->
  opens_of d (trace run) = seqZ 0 (Z.of_nat L).
Proof.
  intros Hd. rewrite <- processed_stripes.
  destruct (main_calm codec prng w enc Hcfg Hnew Hcodec Hcalm) as (Ht & _ & _).
  rewrite Ht. unfold opens_of. rewrite !omap_app, omap_flat_map.
  rewrite (flat_map_ext _ (fun x => [x.1.1]))
    by (intros [[s b] buf]; by apply opens_of_block).
  rewrite flat_map_singleton.
  destruct (W !! L) as [[[s b] buf]|]; [|destruct (last W) as [[[s b] buf]|]];
    unfold prelude, epilogue; rewrite ?omap_app, ?omap_fmap_None by done;
    simpl; by rewrite ?app_nil_r.
Qed.

Lemma writes_of_calm (d : nat) :
  (d < shard_count w)%nat ->
  writes_of d (trace run)
  = (fun x => (x.1.1, payload (placement prng w x.1.1) (encode_of codec enc x.2) d,
               w_write w x.1.1 d)) <$> take L W.
Proof.
  intros Hd.
  destruct (main_calm codec prng w enc Hcfg Hnew Hcodec Hcalm) as (Ht & _ & _).
  rewrite Ht. unfold writes_of. rewrite !omap_app, omap_flat_map.
  rewrite (flat_map_ext _ (fun x => [(x.1.1,
             payload (placement prng w x.1.1) (encode_of codec enc x.2) d,
             w_write w x.1.1 d)]))
    by (intros [[s b] buf]; by apply writes_of_block).
  rewrite flat_map_singleton.
  destruct (W !! L) as [[[s b] buf]|]; [|destruct (last W) as [[[s b] buf]|]];
    unfold prelude, epilogue; rewrite ?omap_app, ?omap_fmap_None by done;
    simpl; by rewrite ?app_nil_r.
Qed.

Lemma take_S_lookup {A : Type} (l : list A) (i : nat) :
  take (S i) l = take i l ++ (if l !! i is Some x then [x] else []).
Proof.
  destruct (l !! i) as [x|] eqn:E.
  - by apply take_S_r.
  - apply lookup_ge_None in E. rewrite !take_ge by lia. by rewrite app_nil_r.
Qed.

Lemma reads_calm :
  reads (trace run) = (fun x => (x.1.1, x.1.2)) <$> take (S L) W.
Proof.
  destruct (main_calm codec prng w enc Hcfg Hnew Hcodec Hcalm) as (Ht & _ & _).
  rewrite Ht, take_S_lookup, fmap_app. unfold reads. rewrite !omap_app, omap_flat_map.
  rewrite (flat_map_ext _ (fun x => [(x.1.1, x.1.2)]))
    by (intros [[s b] buf]; apply reads_block).
  rewrite flat_map_singleton.
  destruct (W !! L) as [[[s b] buf]|]; [|destruct (last W) as [[[s b] buf]|]];
    unfold prelude, epilogue; rewrite ?omap_app, ?omap_fmap_None by done;
    simpl; by rewrite ?app_nil_r.
Qed.

Lemma codec_inputs_calm :
  codec_inputs (trace run) = (fun x => (x.1.1, x.2)) <$> take (S L) W.
Proof.
  destruct (main_calm codec prng w enc Hcfg Hnew Hcodec Hcalm) as (Ht & _ & _).
  rewrite Ht, take_S_lookup, fmap_app. unfold codec_inputs.
  rewrite !omap_app, omap_flat_map.
  rewrite (flat_map_ext _ (fun x => [(x.1.1, x.2)]))
    by (intros [[s b] buf]; apply codec_inputs_block).
  rewrite flat_map_singleton.
  destruct (W !! L) as [[[s b] buf]|]; [|destruct (last W) as [[[s b] buf]|]];
    unfold prelude, epilogue; rewrite ?omap_app, ?omap_fmap_None by done;
    simpl; by rewrite ?app_nil_r.
Qed.

Lemma encoded_calm :
  encoded (trace run) = (fun x => (x.1.1, encode_of codec enc x.2)) <$> take (S L) W.
Proof.
  destruct (main_calm codec prng w enc Hcfg Hnew Hcodec Hcalm) as (Ht & _ & _).
  rewrite Ht, take_S_lookup, fmap_app. unfold encoded.
  rewrite !omap_app, omap_flat_map.
  rewrite (flat_map_ext _ (fun x => [(x.1.1, encode_of codec enc x.2)]))
    by (intros [[s b] buf]; apply encoded_block).
  rewrite flat_map_singleton.
  destruct (W !! L) as [[[s b] buf]|]; [|destruct (last W) as [[[s b] buf]|]];
    unfold prelude, epilogue; rewrite ?omap_app, ?omap_fmap_None by done;
    simpl; by rewrite ?app_nil_r.
Qed.

Lemma last_window_stripe (s : Z) (b : nat) (buf : list byte) :
  last W = Some (s, b, buf) -> s = Z.of_nat (length W) - 1.
Proof.
  intros Hlast. rewrite last_lookup in Hlast.
  assert (0 < stripe_bytes w)%nat as Hsize.
  { destruct (stripe_size_exact w Hcfg). unfold stripe_bytes. lia. }
  pose proof (windows_stripes _ Hsize (S (length (w_input w))) 0
                (replicate (stripe_bytes w) x00) (w_input w)) as Hst.
  fold (input_windows w) in Hst.
  assert (seqZ 0 (Z.of_nat (length W)) !! pred (length W) = Some s) as Hs.
  { rewrite <- Hst, list_lookup_fmap, Hlast. reflexivity. }
  apply lookup_seqZ in Hs. lia.
Qed.

Lemma closes_calm :
  closes (trace run)
  = if W !! L is Some _ then []
    else (fun d => Handle (Z.of_nat L - 1) d) <$> seq 0 (shard_count w).
Proof.
  destruct (main_calm codec prng w enc Hcfg Hnew Hcodec Hcalm) as (Ht & _ & _).
  rewrite Ht. unfold closes. rewrite !omap_app, omap_flat_map.
  rewrite (flat_map_ext _ (fun x => []))
    by (intros [[s b] buf]; apply closes_block).
  rewrite flat_map_nil.
  destruct (W !! L) as [[[s b] buf]|] eqn:HWL; [done|].
  pose proof slots_le_windows as Hle. apply lookup_ge_None in HWL.
  destruct (last W) as [[[s b] buf]|] eqn:Hlast.
  - apply last_window_stripe in Hlast as ->.
    unfold prelude, epilogue. rewrite omap_app.
    rewrite (omap_fmap_Some _ _ (fun d => Handle (Z.of_nat (length W) - 1) d)) by done.
    replace (length W) with L by lia. cbn [omap list_omap app].
    by rewrite !app_nil_r.
  - apply last_None in Hlast. destruct (slots_windows w Hcfg) as [Hlen _].
    rewrite Hlast in Hlen. discriminate Hlen.
Qed.

Lemma ragged_returns :
  (length (w_input w) `mod` stripe_bytes w)%nat <> 0%nat ->
  W !! L = None /\ returned (result run) = true
  /\ L = S (length (w_input w) / stripe_bytes w).
Proof.
  intros Hr. destruct (slots_windows w Hcfg) as [Hlen HL].
  rewrite decide_False in HL by done.
  assert (W !! L = None) as HWL by (apply lookup_ge_None; lia).
  split; [done|]. split; [|done].
  by apply (main_calm codec prng w enc Hcfg Hnew Hcodec Hcalm).
Qed.

Lemma exact_panics :
  (length (w_input w) `mod` stripe_bytes w)%nat = 0%nat ->
  is_Some (W !! L) /\ result run = inl (Panic PanicIndex)
  /\ L = (length (w_input w) / stripe_bytes w)%nat.
Proof.
  intros Hr. destruct (slots_windows w Hcfg) as [Hlen HL].
  rewrite decide_True in HL by done.
  assert (is_Some (W !! L)) as HWL by (apply lookup_lt_is_Some; lia).
  split; [done|]. split; [|done].
  by apply (main_calm codec prng w enc Hcfg Hnew Hcodec Hcalm).
Qed.

Lemma payload_length (s : Z) (buf : list byte) (d : nat) :
  length buf = stripe_bytes w -> (d < shard_count w)%nat ->
  exists j p,
    placement prng w s !! d = Some j /\ 0 <= j < w_dataShards w + w_parShards w
    /\ encode_of codec enc buf !! Z.to_nat j = Some p
    /\ payload (placement prng w s) (encode_of codec enc buf) d = p
    /\ Z.of_nat (length p) = w_blockSize w.
Proof.
  intros Hbuf Hd.
  destruct (codec_on_buffer codec w enc Hcfg Hcodec buf Hbuf)
    as (shards0 & shards & _ & _ & _ & Hsh & _ & Heo).
  rewrite Heo.
  destruct (placement_lookup prng w Hcfg s shards d Hsh Hd) as (j & p & Hj & Hj0 & Hp & Hlen).
  exists j, p. split_and!; try done.
  - destruct (placement_perm prng w Hcfg s) as [_ Hperm].
    apply list_elem_of_lookup_2 in Hj. rewrite Hperm, elem_of_seqZ in Hj. lia.
  - by apply (payload_eq _ _ d j p).
  - destruct Hcfg. lia.
Qed.

Lemma window_buffers_sized (i : nat) (x : Z * nat * list byte) :
  W !! i = Some x -> length x.2 = stripe_bytes w.
Proof.
  intros Hx.
  assert (0 < stripe_bytes w)%nat as Hsize.
  { destruct (stripe_size_exact w Hcfg). unfold stripe_bytes. lia. }
  pose proof (windows_buffers (stripe_bytes w) Hsize (S (length (w_input w))) 0
                (replicate (stripe_bytes w) x00) (w_input w)
                (length_replicate _ _)) as Hall.
  by apply (Forall_lookup_1 _ _ _ _ Hall Hx).
Qed.

Lemma window_stripe_index (i : nat) (x : Z * nat * list byte) :
  W !! i = Some x -> x.1.1 = Z.of_nat i.
Proof.
  intros Hx.
  assert (0 < stripe_bytes w)%nat as Hsize.
  { destruct (stripe_size_exact w Hcfg). unfold stripe_bytes. lia. }
  pose proof (windows_stripes _ Hsize (S (length (w_input w))) 0
                (replicate (stripe_bytes w) x00) (w_input w)) as Hst.
  fold (input_windows w) in Hst.
  assert (seqZ 0 (Z.of_nat (length W)) !! i = Some x.1.1) as Hs.
  { rewrite <- Hst, list_lookup_fmap, Hx. reflexivity. }
  apply lookup_seqZ in Hs. lia.
Qed.

Lemma flat_map_fmap {A B C : Type} (f : B -> list C) (g : A -> B) (l : list A) :
  flat_map f (g <$> l) = flat_map (fun x => f (g x)) l.
Proof. induction l as [|x l IH]; simpl; [done|]. by rewrite <- IH. Qed.

Lemma dest_ops_calm :
  dest_ops (trace run)
  = flat_map (stripe_ops (shard_count w)) (seqZ 0 (Z.of_nat L))
    ++ (OpClose <$> closes (trace run)).
Proof.
  rewrite closes_calm, <- processed_stripes, flat_map_fmap.
  destruct (main_calm codec prng w enc Hcfg Hnew Hcodec Hcalm) as (Ht & _ & _).
  rewrite Ht. unfold dest_ops. rewrite !omap_app, omap_flat_map.
  rewrite (flat_map_ext _ (fun x => stripe_ops (shard_count w) x.1.1))
    by (intros [[s b] buf]; apply dest_ops_block).
  destruct (W !! L) as [[[s b] buf]|] eqn:HWL; [simpl; by rewrite !app_nil_r|].
  pose proof slots_le_windows as Hle. apply lookup_ge_None in HWL.
  destruct (last W) as [[[s b] buf]|] eqn:Hlast.
  - apply last_window_stripe in Hlast as ->.
    unfold prelude, epilogue. rewrite omap_app.
    rewrite (omap_fmap_Some _ _ (fun d => OpClose (Handle (Z.of_nat (length W) - 1) d)))
      by done.
    replace (length W) with L by lia. cbn [omap list_omap app].
    by rewrite !app_nil_r, <- list_fmap_compose.
  - apply last_None in Hlast. destruct (slots_windows w Hcfg) as [Hlen _].
    rewrite Hlast in Hlen. discriminate Hlen.
Qed.

Lemma ledger_stripes_calm : fst <$> ledger (trace run) = seqZ 0 (Z.of_nat L).
Proof. by rewrite ledger_calm, <- list_fmap_compose, <- processed_stripes. Qed.

Lemma writes_stripes_calm (d : nat) :
  (d < shard_count w)%nat ->
  (fun x => x.1.1) <$> writes_of d (trace run) = seqZ 0 (Z.of_nat L).
Proof.
  intros Hd. by rewrite writes_of_calm, <- list_fmap_compose, <- processed_stripes.
Qed.

Lemma writes_sizes_calm (d : nat) :
  (d < shard_count w)%nat ->
  sizes (writes_of d (trace run))
  = (fun s => (s, w_blockSize w, w_write w s d)) <$> seqZ 0 (Z.of_nat L).
Proof.
  intros Hd. rewrite writes_of_calm by done. unfold sizes.
  rewrite <- processed_stripes, <- !list_fmap_compose.
  apply list_fmap_ext. intros i x Hx. simpl.
  apply lookup_take_Some in Hx as [Hx _].
  destruct (payload_length x.1.1 x.2 d) as (j & p & _ & _ & _ & -> & ->);
    [by apply (window_buffers_sized i)|done|done].
Qed.

Lemma window_count_index (i : nat) (x : Z * nat * list byte) :
  W !! i = Some x ->
  x.1.2 = if decide (i < length (w_input w) / stripe_bytes w)%nat
          then stripe_bytes w
          else (length (w_input w) `mod` stripe_bytes w)%nat.
Proof.
  intros Hx.
  assert (0 < stripe_bytes w)%nat as Hsize.
  { destruct (stripe_size_exact w Hcfg). unfold stripe_bytes. lia. }
  pose proof (windows_counts _ Hsize (S (length (w_input w))) 0
                (replicate (stripe_bytes w) x00) (w_input w) ltac:(lia)) as Hc.
  fold (input_windows w) in Hc.
  assert (((fun x => x.1.2) <$> W) !! i = Some x.1.2) as Hi
    by (rewrite list_lookup_fmap, Hx; reflexivity).
  rewrite Hc in Hi. case_decide as Hlt.
  - rewrite lookup_app_l in Hi by (by rewrite length_replicate).
    by apply lookup_replicate_1 in Hi as [-> _].
  - rewrite lookup_app_r in Hi by (rewrite length_replicate; lia).
    apply list_lookup_singleton_Some in Hi as [_ <-]. done.
Qed.

End CalmObserved.

(** ** The claims on runs in which every call succeeds *)

Lemma calm_is_calm (fname : string) (k m bs : Z) (input : list byte) :
  Z.of_nat (length input) + k * bs <= GoInt.max_int ->
  calm_world (calm fname k m bs input).
Proof.
  intros Hsize. split; simpl; try done.
  intros s want rem. exists want. split; [done|lia].
Qed.

(** C1, in general.  When every call succeeds and the input is exactly
    [N >= 1] stripes long, the run records and writes [N] stripes, each of
    them one write of [blockSize] bytes on each of the [k + m] destinations;
    it then reads once more, gets 0 bytes, and panics on the assignment to
    [distribution[N]]: it does not terminate normally. *)
Theorem C1_exact_multiple_panics (codec : Codec) (prng : PRNG) (w : World)
    (enc : Encoder codec) (N : nat) :
  valid_config (w_dataShards w) (w_parShards w) (w_blockSize w) ->
  New codec (w_dataShards w) (w_parShards w) = inr enc ->
  codec_ok codec enc (w_dataShards w) (w_parShards w) (w_blockSize w) ->
  calm_world w ->
  (0 < N)%nat ->
  length (w_input w) = (N * stripe_bytes w)%nat ->
  result (main codec prng w) = inl (Panic PanicIndex)
  /\ fst <$> ledger (trace (main codec prng w)) = seqZ 0 (Z.of_nat N)
  /\ (forall d, (d < shard_count w)%nat ->
        sizes (writes_of d (trace (main codec prng w)))
        = (fun s => (s, w_blockSize w, w_write w s d)) <$> seqZ 0 (Z.of_nat N))
  /\ counts (reads (trace (main codec prng w)))
     = ((fun s => (s, w_dataShards w * w_blockSize w)) <$> seqZ 0 (Z.of_nat N))
       ++ [(Z.of_nat N, 0)].
Proof.
  intros Hcfg Hnew Hcodec Hcalm HN Hlen.
  assert (0 < stripe_bytes w)%nat as Hsize.
  { destruct (stripe_size_exact w Hcfg). unfold stripe_bytes. lia. }
  assert (length (w_input w) `mod` stripe_bytes w = 0)%nat as Hmod
    by (rewrite Hlen; apply Nat.Div0.mod_mul).
  assert (length (w_input w) / stripe_bytes w = N)%nat as Hdiv
    by (rewrite Hlen; apply Nat.div_mul; lia).
  destruct (exact_panics codec prng w enc Hcfg Hnew Hcodec Hcalm Hmod) as (HWL & Hres & HL).
  rewrite Hdiv in HL.
  split_and!.
  - done.
  - by rewrite (ledger_stripes_calm codec prng w enc), HL.
  - intros d Hd. by rewrite (writes_sizes_calm codec prng w enc), HL.
  - rewrite (reads_calm codec prng w enc) by done. unfold counts.
    rewrite <- list_fmap_compose, HL. apply list_eq. intros i.
    rewrite list_lookup_fmap, lookup_take.
    destruct (slots_windows w Hcfg) as [HlenW _]. rewrite Hdiv in HlenW.
    destruct (decide (i < S N)%nat) as [Hi|Hi].
    + destruct (lookup_lt_is_Some_2 (input_windows w) i) as [x Hx]; [lia|].
      rewrite Hx. simpl.
      rewrite (window_stripe_index w Hcfg i x Hx).
      rewrite (window_count_index w Hcfg i x Hx), Hdiv, Hmod.
      destruct (decide (i < N)%nat) as [Hlt|Hge].
      * rewrite lookup_app_l by (rewrite length_fmap, length_seqZ; lia).
        rewrite list_lookup_fmap, lookup_seqZ_lt by lia. simpl.
        unfold stripe_bytes. destruct (stripe_size_exact w Hcfg).
        do 2 f_equal; lia.
      * rewrite lookup_app_r by (rewrite length_fmap, length_seqZ; lia).
        rewrite length_fmap, length_seqZ.
        replace (i - Z.to_nat (Z.of_nat N))%nat with 0%nat by lia.
        simpl. do 2 f_equal; lia.
    + symmetry. apply lookup_ge_None.
      rewrite length_app, length_fmap, length_seqZ. simpl. lia.
Qed.

Lemma C1_witness :
  (0 < 1)%nat
  /\ length (w_input (calm "in.bin" 2 1 2 [x01; x02; x03; x04]))
     = (1 * stripe_bytes (calm "in.bin" 2 1 2 [x01; x02; x03; x04]))%nat
  /\ result (main parity_codec digits_rng (calm "in.bin" 2 1 2 [x01; x02; x03; x04]))
     = inl (Panic PanicIndex).
Proof.
  split; [lia|]. split; [reflexivity|].
  apply (C1_exact_multiple_panics parity_codec digits_rng
           (calm "in.bin" 2 1 2 [x01; x02; x03; x04]) (2%nat, 1%nat) 1).
  - split; simpl; unfold GoInt.max_int; lia.
  - reflexivity.
  - apply (parity_codec_ok 2 1 2); lia.
  - apply calm_is_calm. simpl. unfold GoInt.max_int. lia.
  - lia.
  - reflexivity.
Defined.

(** For a valid configuration and a codec that keeps the shape of the
    shards: when every call succeeds and every read delivers all the bytes
    asked for or all that remain, the stripes
    recorded are [0, ..., L-1] with [L] the number of slots of the ledger;
    every destination is opened once in every one of these stripes, each
    time right before the write of that stripe, so its opens and its writes
    both run through the stripes in increasing order; no descriptor is
    closed before the last write; and when the run returns, the
    descriptors closed are those opened in the last stripe. *)
Theorem every_stripe_reopens_destinations (codec : Codec) (prng : PRNG) (w : World)
    (enc : Encoder codec) :
  valid_config (w_dataShards w) (w_parShards w) (w_blockSize w) ->
  New codec (w_dataShards w) (w_parShards w) = inr enc ->
  codec_ok codec enc (w_dataShards w) (w_parShards w) (w_blockSize w) ->
  calm_world w ->
  fst <$> ledger (trace (main codec prng w)) = seqZ 0 (Z.of_nat (ledger_slots w))
  /\ (forall d, (d < shard_count w)%nat ->
        opens_of d (trace (main codec prng w)) = seqZ 0 (Z.of_nat (ledger_slots w))
        /\ (fun x => x.1.1) <$> writes_of d (trace (main codec prng w))
           = seqZ 0 (Z.of_nat (ledger_slots w)))
  /\ dest_ops (trace (main codec prng w))
     = flat_map (stripe_ops (shard_count w)) (seqZ 0 (Z.of_nat (ledger_slots w)))
       ++ (OpClose <$> closes (trace (main codec prng w)))
  /\ (returned (result (main codec prng w)) = true ->
      closes (trace (main codec prng w))
      = (fun d => Handle (Z.of_nat (ledger_slots w) - 1) d) <$> seq 0 (shard_count w)).
Proof.
  intros Hcfg Hnew Hcodec Hcalm. split_and!.
  - by apply (ledger_stripes_calm codec prng w enc).
  - intros d Hd. split.
    + by apply (opens_of_calm codec prng w enc).
    + by apply (writes_stripes_calm codec prng w enc).
  - by apply (dest_ops_calm codec prng w enc).
  - intros Hret. rewrite (closes_calm codec prng w enc) by done.
    destruct (input_windows w !! ledger_slots w) as [x|] eqn:HWL; [|done].
    destruct (main_calm codec prng w enc Hcfg Hnew Hcodec Hcalm) as (_ & Hpanic & _).
    rewrite Hpanic in Hret by done. discriminate Hret.
Qed.

Lemma every_stripe_reopens_destinations_witness :
  opens_of 0 (trace sample_run) = seqZ 0 2
  /\ closes (trace sample_run) = (fun d => Handle 1 d) <$> seq 0 3.
Proof.
  destruct (every_stripe_reopens_destinations parity_codec digits_rng
              (calm "in.bin" 2 1 2 five_bytes) (2%nat, 1%nat))
    as (_ & Hopens & _ & Hcloses).
  - split; simpl; unfold GoInt.max_int; lia.
  - reflexivity.
  - apply (parity_codec_ok 2 1 2); lia.
  - apply calm_is_calm. simpl. unfold GoInt.max_int. lia.
  - split.
    + apply (Hopens 0%nat). unfold shard_count. simpl. lia.
    + apply Hcloses. reflexivity.
Defined.

(** ** The loop bound of the model is never reached *)

Lemma result_bind_inr {A B : Type} (m : M A) (f : A -> M B) (b : B) :
  result (bind m f) = inr b -> exists a, result m = inr a /\ result (f a) = inr b.
Proof.
  rewrite result_bind. destruct (result m) as [h|a]; [discriminate|]. by exists a.
Qed.

Lemma fuelled_bind {A B : Type} (m : M A) (f : A -> M B) :
  fuelled m -> (forall a, result m = inr a -> fuelled (f a)) -> fuelled (bind m f).
Proof.
  unfold fuelled. intros Hm Hf. rewrite result_bind.
  destruct (result m) as [h|a]; [congruence|]. by apply Hf.
Qed.

Lemma fuelled_ret {A : Type} (a : A) : fuelled (ret a).
Proof. discriminate. Qed.

Lemma fuelled_emit (e : event) : fuelled (emit e).
Proof. discriminate. Qed.

Lemma fuelled_exit {A : Type} (c : Z) : fuelled (@stop A (Exit c)).
Proof. discriminate. Qed.

Lemma fuelled_panic {A : Type} (p : panic) : fuelled (@stop A (Panic p)).
Proof. discriminate. Qed.

Lemma fuelled_index {A : Type} (a : list A) (i : Z) : fuelled (index a i).
Proof. unfold index. repeat case_match; discriminate. Qed.

Lemma fuelled_assign {A : Type} (a : list A) (i : Z) (x : A) : fuelled (assign a i x).
Proof. unfold assign. case_decide; discriminate. Qed.

Lemma fuelled_make {A : Type} (zero : A) (n : Z) : fuelled (make zero n).
Proof. unfold make. case_decide; discriminate. Qed.

Lemma fuelled_checkErr (err : option error) : fuelled (checkErr err).
Proof. destruct err; discriminate. Qed.

Lemma fuelled_checked {A : Type} (r : error + A) : fuelled (checked r).
Proof. destruct r; discriminate. Qed.

Lemma fuelled_buf_Read (w : World) (s : Z) (data rest : list byte) :
  fuelled (buf_Read w s data rest).
Proof. unfold buf_Read. case_match; discriminate. Qed.

Lemma fuelled_for_each {St : Type} (body : nat -> St -> M St) (idx : list nat) (st : St) :
  (forall i st', fuelled (body i st')) -> fuelled (for_each body idx st).
Proof.
  intros Hbody. revert st. induction idx as [|i idx IH]; intros st; simpl.
  - apply fuelled_ret.
  - apply fuelled_bind; [apply Hbody|]. intros st' _. apply IH.
Qed.

Ltac fuelled_steps :=
  repeat first
    [ apply fuelled_ret | apply fuelled_emit | apply fuelled_exit | apply fuelled_panic
    | apply fuelled_index | apply fuelled_assign | apply fuelled_make
    | apply fuelled_checkErr | apply fuelled_checked | apply fuelled_buf_Read
    | apply fuelled_bind; [|intros ? _]
    | match goal with
      | |- fuelled (match ?x with _ => _ end) => destruct x
      end ].

Lemma fuelled_write_shard (w : World) (dir file : string) (shards : list (list byte))
    (i : nat) (v : vars) :
  fuelled (write_shard w dir file shards i v).
Proof. unfold write_shard. fuelled_steps. Qed.

Lemma fuelled_close_all (of' : list (option handle)) : fuelled (close_all of').
Proof.
  unfold close_all. apply fuelled_for_each. intros i []. repeat case_match; discriminate.
Qed.

Lemma fuelled_stripe (codec : Codec) (prng : PRNG) (w : World) (enc : Encoder codec)
    (fname : string) (stripeSize : Z) (v : vars) :
  fuelled (stripe codec prng w enc fname stripeSize v).
Proof.
  unfold stripe. fuelled_steps.
  apply fuelled_for_each. intros. apply fuelled_write_shard.
Qed.

Lemma write_shard_rest (w : World) (dir file : string) (shards : list (list byte))
    (i : nat) (v v' : vars) :
  result (write_shard w dir file shards i v) = inr v' -> rest v' = rest v.
Proof.
  unfold write_shard. intros H.
  repeat (apply result_bind_inr in H as (? & _ & H)).
  by injection H as <-.
Qed.

Lemma for_each_rest (body : nat -> vars -> M vars) (idx : list nat) :
  (forall i v v', result (body i v) = inr v' -> rest v' = rest v) ->
  forall v v', result (for_each body idx v) = inr v' -> rest v' = rest v.
Proof.
  intros Hbody. induction idx as [|i idx IH]; intros v v' H; simpl in H.
  - by injection H as <-.
  - apply result_bind_inr in H as (v1 & H1 & H).
    rewrite (IH _ _ H). by apply (Hbody i).
Qed.

Lemma stripe_consumes (codec : Codec) (prng : PRNG) (w : World) (enc : Encoder codec)
    (fname : string) (stripeSize : Z) (v v' : vars) :
  1 <= stripeSize ->
  result (stripe codec prng w enc fname stripeSize v) = inr (false, v') ->
  (length (rest v') < length (rest v))%nat.
Proof.
  intros Hsize H. unfold stripe in H.
  apply result_bind_inr in H as ([[b data'] rest'] & Hread & H).
  assert (rest' = drop b (rest v) /\ (b <= length (rest v))%nat) as [-> Hb].
  { unfold buf_Read in Hread.
    destruct (w_read w (stripeno v) (length (data v)) (length (rest v))) as [n|e];
      [|discriminate Hread].
    rewrite result_bind in Hread. simpl in Hread. injection Hread as <- _ <-.
    split; [done|lia]. }
  do 6 (apply result_bind_inr in H as (? & _ & H)).
  destruct (path_split fname) as [dir file].
  do 3 (apply result_bind_inr in H as (? & _ & H)).
  apply result_bind_inr in H as (v1 & Hloop & H).
  apply (for_each_rest _ _ (write_shard_rest w _ _ _)) in Hloop. simpl in Hloop.
  case_decide as Hlt; [discriminate|]. injection H as <-. simpl.
  rewrite Hloop, length_drop. lia.
Qed.

Lemma fuelled_stripes (codec : Codec) (prng : PRNG) (w : World) (enc : Encoder codec)
    (fname : string) (stripeSize : Z) (fuel : nat) :
  1 <= stripeSize ->
  forall v, (length (rest v) < fuel)%nat ->
            fuelled (stripes codec prng w fuel enc fname stripeSize v).
Proof.
  intros Hsize. induction fuel as [|fuel IH]; intros v Hfuel; [lia|].
  cbn [stripes]. apply fuelled_bind; [apply fuelled_stripe|].
  intros [[] v'] Hv'; [apply fuelled_ret|].
  apply IH. apply stripe_consumes in Hv'; [lia|done].
Qed.

Lemma fuelled_encode_file (codec : Codec) (prng : PRNG) (w : World) (enc : Encoder codec)
    (fname : string) :
  fuelled (encode_file codec prng w enc fname).
Proof.
  unfold encode_file.
  apply fuelled_bind; [fuelled_steps|intros _ _].
  apply fuelled_bind; [fuelled_steps|intros _ _].
  apply fuelled_bind; [fuelled_steps|intros _ _].
  apply fuelled_bind; [fuelled_steps|intros _ _].
  apply fuelled_bind; [fuelled_steps|intros _ _].
  apply fuelled_bind; [fuelled_steps|intros _ _].
  apply fuelled_bind; [fuelled_steps|intros data0 Hdata].
  apply fuelled_bind; [fuelled_steps|intros of0 _].
  apply fuelled_bind; [fuelled_steps|intros stripeNum Hnum].
  apply fuelled_bind; [fuelled_steps|intros distribution0 _].
  apply fuelled_bind; [|intros v _; fuelled_steps; apply fuelled_close_all].
  apply fuelled_stripes; [|simpl; lia].
  unfold make in Hdata. repeat case_decide; try discriminate. lia.
Qed.

(** [main] always ends by returning, exiting or panicking: the bound of
    the stripe loop is large enough in every world. *)
Lemma main_never_out_of_fuel (codec : Codec) (prng : PRNG) (w : World) :
  result (main codec prng w) <> inl OutOfFuel.
Proof.
  change (fuelled (main codec prng w)). unfold main.
  repeat case_decide; fuelled_steps.
  pose proof (fuelled_encode_file codec prng w a (default EmptyString (w_args w !! 0%nat)))
    as Hf.
  unfold fuelled, deferred, result in *.
  destruct (encode_file _ _ _ _ _) as [t [[c|p|]|v]]; simpl in *; congruence.
Qed.

(** ** The stripe buffer after a read *)

(** Whatever the reader delivers, the bytes of the buffer beyond the
    count read are the bytes the buffer held before the read. *)
Lemma buf_Read_keeps_tail (w : World) (s : Z) (data rest : list byte)
    (b : nat) (data' rest' : list byte) :
  result (buf_Read w s data rest) = inr (b, data', rest') ->
  (b <= length data)%nat /\ (b <= length rest)%nat
  /\ take b data' = take b rest /\ drop b data' = drop b data
  /\ rest' = drop b rest.
Proof.
  unfold buf_Read. destruct (w_read w s (length data) (length rest)) as [n|e];
    [|discriminate].
  rewrite result_bind. simpl. intros [= <- <- <-].
  set (b := ((n `min` length data) `min` length rest)%nat).
  assert (length (take b rest) = b) as Hlen by (rewrite length_take; lia).
  split_and!; try lia; try done.
  - rewrite take_app_length'; done.
  - rewrite drop_app_length'; done.
Qed.

(** ** The outcomes of the writes do not influence the run *)

Lemma same_but_writes_refl {A : Type} (m : M A) : same_but_writes m m.
Proof. done. Qed.

Lemma same_but_writes_bind {A B : Type} (m m' : M A) (f f' : A -> M B) :
  same_but_writes m m' ->
  (forall a, result m = inr a -> same_but_writes (f a) (f' a)) ->
  same_but_writes (bind m f) (bind m' f').
Proof.
  intros [Ht Hr] Hf. unfold same_but_writes.
  rewrite !trace_bind, !result_bind, <- Hr.
  destruct (result m) as [h|a]; [done|].
  destruct (Hf a eq_refl) as [Hft Hfr]. by rewrite !fmap_app, Ht, Hft.
Qed.

Lemma same_but_writes_for_each {St : Type} (body body' : nat -> St -> M St)
    (idx : list nat) :
  (forall i st, same_but_writes (body i st) (body' i st)) ->
  forall st, same_but_writes (for_each body idx st) (for_each body' idx st).
Proof.
  intros Hbody. induction idx as [|i idx IH]; intros st; simpl; [done|].
  apply same_but_writes_bind; [apply Hbody|]. intros st' _. apply IH.
Qed.

Lemma same_but_writes_deferred {A : Type} (e : event) (m m' : M A) :
  same_but_writes m m' -> same_but_writes (deferred e m) (deferred e m').
Proof.
  destruct m as [t1 r1], m' as [t2 r2]. unfold same_but_writes. simpl.
  intros [Ht <-]. destruct r1 as [[c|p|]|v]; simpl; by rewrite ?fmap_app, ?Ht.
Qed.

Ltac same_steps leaf :=
  repeat first
    [ leaf
    | apply same_but_writes_bind; [|intros ? _]
    | match goal with
      | |- same_but_writes (match ?x with _ => _ end) (match ?x with _ => _ end) =>
          destruct x
      end
    | apply same_but_writes_refl ].

Section WritesIgnored.

Context (codec : Codec) (prng : PRNG) (w : World) (wr : Z -> nat -> bool).

Lemma write_shard_same dir file shards i v :
  same_but_writes (write_shard (with_write w wr) dir file shards i v)
                  (write_shard w dir file shards i v).
Proof.
  unfold write_shard. cbn [w_openfile w_write with_write].
  same_steps ltac:(fail). done.
Qed.

Lemma stripe_same enc fname stripeSize v :
  same_but_writes (stripe codec prng (with_write w wr) enc fname stripeSize v)
                  (stripe codec prng w enc fname stripeSize v).
Proof.
  unfold stripe, buf_Read. cbn [w_read w_now w_outDir w_dataShards w_parShards with_write].
  same_steps ltac:(apply same_but_writes_for_each; intros; apply write_shard_same).
Qed.

Lemma stripes_same enc fname stripeSize fuel :
  forall v, same_but_writes (stripes codec prng (with_write w wr) fuel enc fname stripeSize v)
                            (stripes codec prng w fuel enc fname stripeSize v).
Proof.
  induction fuel as [|fuel IH]; intros v; [done|]. cbn [stripes].
  apply same_but_writes_bind; [apply stripe_same|].
  intros [[] v'] _; [done|apply IH].
Qed.

Lemma encode_file_same enc fname :
  same_but_writes (encode_file codec prng (with_write w wr) enc fname)
                  (encode_file codec prng w enc fname).
Proof.
  unfold encode_file.
  cbn [w_stat w_copy w_seek w_input w_dataShards w_parShards w_blockSize with_write].
  same_steps ltac:(apply stripes_same).
Qed.

(** Replacing the outcomes of the [Write] calls by any others changes
    neither how [main] ends nor any other event of the run. *)
Lemma main_ignores_write_results :
  same_but_writes (main codec prng (with_write w wr)) (main codec prng w).
Proof.
  unfold main.
  cbn [w_args w_open w_dataShards w_parShards with_write].
  repeat case_decide;
    same_steps ltac:(apply same_but_writes_deferred, encode_file_same).
Qed.

End WritesIgnored.

(** ** Reasoning about every world *)

Section Compositional.

Context {A B : Type}.

Lemma events_in_bind (P : event -> Prop) (m : M A) (f : A -> M B) :
  events_in P m -> (forall a, result m = inr a -> events_in P (f a)) ->
  events_in P (bind m f).
Proof.
  unfold events_in. intros Hm Hf. rewrite trace_bind.
  destruct (result m) as [h|a] eqn:Hr; [done|].
  apply Forall_app. split; [done|]. by apply Hf.
Qed.


Lemma ends_at_bind (P : event -> Prop) (Q : list event -> halt -> Prop)
    (m : M A) (f : A -> M B) :
  ends_at P Q m -> (forall a, result m = inr a -> ends_at P Q (f a)) ->
  ends_at P Q (bind m f).
Proof.
  unfold ends_at. intros Hm Hf t1 e t2. rewrite trace_bind, result_bind.
  destruct (result m) as [h|a] eqn:Hr.
  - intros Ht HP. destruct (Hm t1 e t2 Ht HP) as (h' & [= <-] & HQ). by exists h.
  - intros Ht HP.
    apply app_eq_app in Ht as [t' [[Ht1 Ht2]|[Ht1 Ht2]]].
    + destruct t' as [|e' t'].
      * simpl in Ht2. rewrite app_nil_r in Ht1. subst t1.
        by apply (Hf a eq_refl [] e t2).
      * injection Ht2 as <- ->.
        destruct (Hm t1 e t' Ht1 HP) as (h' & [=] & _).
    + apply (Hf a eq_refl t' e t2); done.
Qed.

End Compositional.

Lemma events_in_quiet {A : Type} (P : event -> Prop) (r : halt + A) :
  events_in P (([], r) : M A).
Proof. constructor. Qed.

Lemma events_in_emit (P : event -> Prop) (e : event) : P e -> events_in P (emit e).
Proof. intros He. by constructor. Qed.

Lemma ends_at_without {A : Type} (P : event -> Prop) (Q : list event -> halt -> Prop)
    (m : M A) :
  events_in (fun e => ~ P e) m -> ends_at P Q m.
Proof.
  intros Hall t1 e t2 Ht HP. unfold events_in in Hall. rewrite Ht in Hall.
  apply Forall_app in Hall as [_ Hall]. by inversion Hall.
Qed.

Lemma events_in_for_each {St : Type} (P : event -> Prop) (I : St -> Prop)
    (body : nat -> St -> M St) (idx : list nat) :
  (forall i st, I st -> events_in P (body i st)) ->
  (forall i st st', I st -> result (body i st) = inr st' -> I st') ->
  forall st, I st -> events_in P (for_each body idx st).
Proof.
  intros Hbody Hinv. induction idx as [|i idx IH]; intros st Hst; simpl.
  - apply events_in_quiet.
  - apply events_in_bind; [by apply Hbody|]. intros st' Hr. apply IH. by apply (Hinv i st).
Qed.


Lemma ends_at_for_each {St : Type} (P : event -> Prop) (Q : list event -> halt -> Prop)
    (I : St -> Prop) (body : nat -> St -> M St) (idx : list nat) :
  (forall i st, I st -> ends_at P Q (body i st)) ->
  (forall i st st', I st -> result (body i st) = inr st' -> I st') ->
  forall st, I st -> ends_at P Q (for_each body idx st).
Proof.
  intros Hbody Hinv. induction idx as [|i idx IH]; intros st Hst; simpl.
  - apply ends_at_without, events_in_quiet.
  - apply ends_at_bind; [by apply Hbody|]. intros st' Hr. apply IH. by apply (Hinv i st).
Qed.

(** ** How a run can halt *)
Section Halts.

Context (H : halt -> Prop).
Hypothesis Hexit2 : H (Exit 2).
Hypothesis Hpanic : forall p, H (Panic p).
Hypothesis Hfuel : H OutOfFuel.


















End Halts.


(** ** Events of a run, for every world *)

Ltac events_steps :=
  repeat first
    [ apply events_in_quiet
    | apply events_in_emit; first [done | simpl; done | simpl; tauto]
    | apply events_in_bind; [|intros ? ?]
    | match goal with
      | |- events_in _ (match ?x with _ => _ end) => destruct x eqn:?
      end ].

Section EventsOfMain.

Context (codec : Codec) (prng : PRNG) (w : World) (P : event -> Prop).

Hypothesis Haround : forall e, around_stripes e = true -> P e.
Hypothesis Hstripe : forall enc stripeSize v,
  events_in P (stripe codec prng w enc (input_name w) stripeSize v).

Lemma events_in_stripes enc stripeSize fuel :
  forall v, events_in P (stripes codec prng w fuel enc (input_name w) stripeSize v).
Proof.
  induction fuel as [|fuel IH]; intros v; [apply events_in_quiet|].
  cbn [stripes]. apply events_in_bind; [apply Hstripe|].
  intros [[] v'] _; [apply events_in_quiet|apply IH].
Qed.

Lemma events_in_close_all (of' : list (option handle)) : events_in P (close_all of').
Proof.
  unfold close_all. apply (events_in_for_each P (fun _ => True)); [|done|done].
  intros i [] _. repeat case_match; try apply events_in_quiet.
  apply events_in_emit. by apply Haround.
Qed.

Lemma events_in_encode_file enc :
  events_in P (encode_file codec prng w enc (input_name w)).
Proof.
  unfold encode_file, make.
  do 10 (apply events_in_bind;
         [repeat case_match; first [apply events_in_quiet|apply events_in_emit, Haround; done]
         |intros ? _]).
  apply events_in_bind; [apply events_in_stripes|intros v _].
  apply events_in_bind; [apply events_in_close_all|intros _ _].
  apply events_in_bind; [apply events_in_emit, Haround; done|intros _ _].
  apply events_in_quiet.
Qed.

Lemma events_in_main : events_in P (main codec prng w).
Proof.
  unfold main. fold (input_name w). repeat case_decide.
  - repeat constructor; by apply Haround.
  - repeat constructor; by apply Haround.
  - apply events_in_bind.
    { unfold checked, die, checkErr. case_match; [|apply events_in_quiet].
      repeat constructor. by apply Haround. }
    intros enc _.
    apply events_in_bind; [apply events_in_emit, Haround; done|intros _ _].
    apply events_in_bind; [case_match; apply events_in_quiet|intros _ _].
    pose proof (events_in_encode_file enc) as He.
    unfold events_in, deferred, trace in *.
    destruct (encode_file _ _ _ _ _) as [t [[c|p|]|v]]; simpl in *; try done;
      apply Forall_app; (split; [done|]); repeat constructor; by apply Haround.
Qed.

End EventsOfMain.

(** *** The ledger holds permutations only *)

Lemma write_shard_events_quiet (P : event -> Prop) (w : World) (dir file : string)
    (shards : list (list byte)) (i : nat) (v : vars) :
  (forall msg, P (EStderr msg)) ->
  (forall p ok, P (EWrite (Handle (stripeno v) i) p ok)) ->
  (forall ok, P (EOpenOut (Handle (stripeno v) i) dir (file +:+ "." +:+ pretty i) ok)) ->
  events_in P (write_shard w dir file shards i v).
Proof.
  intros Herr Hwrite Hopen.
  unfold write_shard, index, assign, checkErr, die. events_steps.
Qed.

Lemma write_shard_stripeno (w : World) (dir file : string) (shards : list (list byte))
    (i : nat) (v v' : vars) :
  result (write_shard w dir file shards i v) = inr v' -> stripeno v' = stripeno v.
Proof.
  unfold write_shard. intros H.
  repeat (apply result_bind_inr in H as (? & _ & H)).
  by injection H as <-.
Qed.

Lemma stripe_records_permutation (codec : Codec) (prng : PRNG) (w : World)
    (enc : Encoder codec) (fname : string) (stripeSize : Z) (v : vars) :
  events_in (records_permutation (GoInt.add (w_dataShards w) (w_parShards w)))
            (stripe codec prng w enc fname stripeSize v).
Proof.
  unfold stripe, buf_Read, checked, checkErr, die, index, assign. events_steps.
  - apply events_in_emit. simpl.
    match goal with
    | H : result (match genRandomArr _ ?n ?now with _ => _ end) = inr ?a |- ?a ≡ₚ _ =>
        destruct (genRandomArr prng n now) as [perm|] eqn:Hgen; [|discriminate H];
        injection H as <-;
        destruct (genRandomArr_length prng n now _ Hgen) as [_ Hn];
        destruct (genRandomArr_perm prng n now Hn) as (perm' & Hperm & Hp);
        rewrite Hgen in Hperm; injection Hperm as <-
    end.
    done.
  - apply (events_in_for_each _ (fun _ => True)); [|done|done].
    intros i st _. by apply write_shard_events_quiet.
Qed.

(** Whatever happens in a run, every placement stored in the ledger
    [distribution] is a permutation of [0, ..., n-1], where [n] is the sum
    of the two shard counts as the program computes it. *)
Theorem ledger_holds_permutations (codec : Codec) (prng : PRNG) (w : World)
    (s : Z) (perm : list Z) :
  (s, perm) ∈ ledger (trace (main codec prng w)) ->
  perm ≡ₚ seqZ 0 (GoInt.add (w_dataShards w) (w_parShards w)).
Proof.
  intros Hin.
  pose proof (events_in_main codec prng w
                (records_permutation (GoInt.add (w_dataShards w) (w_parShards w))))
    as Hall.
  unfold events_in in Hall. rewrite Forall_forall in Hall.
  assert (ERecord s perm ∈ trace (main codec prng w)) as He.
  { unfold ledger in Hin. apply list_elem_of_omap in Hin as (e & He & Hs).
    destruct e; try discriminate Hs. by injection Hs as -> ->. }
  apply (Hall ltac:(by intros [] ?) ltac:(intros; apply stripe_records_permutation)
              _ He).
Qed.

Lemma ledger_holds_permutations_witness :
  (0, [1; 2; 0]) ∈ ledger (trace sample_run)
  /\ [1; 2; 0] ≡ₚ seqZ 0 (GoInt.add 2 1).
Proof.
  assert ((0, [1; 2; 0]) ∈ ledger (trace sample_run)) as Hin.
  { pose proof five_bytes_run as (_ & _ & _ & -> & _). apply list_elem_of_here. }
  split; [done|].
  apply (ledger_holds_permutations parity_codec digits_rng
           (calm "in.bin" 2 1 2 five_bytes) 0 [1; 2; 0] Hin).
Defined.

(** *** The names of the destination files *)

Lemma dest_name_inj (fname : string) (d d' : nat) :
  dest_name fname d = dest_name fname d' -> d = d'.
Proof.
  unfold dest_name. intros H.
  apply String.app_inj in H. apply String.app_inj in H.
  by apply pretty_nat_inj in H.
Qed.

Lemma stripe_opens_named (codec : Codec) (prng : PRNG) (w : World)
    (enc : Encoder codec) (fname : string) (stripeSize : Z) (v : vars) :
  events_in (opens_named w fname) (stripe codec prng w enc fname stripeSize v).
Proof.
  unfold stripe, buf_Read, checked, checkErr, die, index, assign, opens_named.
  unfold dest_dir, dest_name, dest_file.
  destruct (path_split fname) as [dir file]. events_steps.
  apply (events_in_for_each _ (fun _ => True)); [|done|done].
  intros i st _. by apply write_shard_events_quiet.
Qed.

(** In every run, destination [d] is only ever opened under the name
    [<base>.<d>], where [<base>] is the file name of the input without its
    directory, in the directory given by [-out] or else in the directory
    of the input; and a name opened for one destination index is never
    opened for another. *)
Theorem destination_names (codec : Codec) (prng : PRNG) (w : World)
    (h : handle) (dir outfn : string) (ok : bool) :
  EOpenOut h dir outfn ok ∈ trace (main codec prng w) ->
  dir = dest_dir w (input_name w)
  /\ outfn = dest_name (input_name w) (h_index h)
  /\ forall h' dir' ok',
       EOpenOut h' dir' outfn ok' ∈ trace (main codec prng w) ->
       h_index h' = h_index h.
Proof.
  intros He.
  pose proof (events_in_main codec prng w (opens_named w (input_name w))
                ltac:(by intros [] ?)
                ltac:(intros; apply stripe_opens_named)) as Hall.
  unfold events_in in Hall. rewrite Forall_forall in Hall.
  destruct (Hall _ He) as [-> ->]. split_and!; [done..|].
  intros h' dir' ok' He'. destruct (Hall _ He') as [_ Hname].
  by apply dest_name_inj in Hname.
Qed.

Lemma destination_names_witness :
  EOpenOut (Handle 1 2) "out/" "in.bin.2" true
    ∈ trace (main parity_codec digits_rng (calm "out/in.bin" 2 1 2 five_bytes))
  /\ "in.bin.2"%string = dest_name "out/in.bin" 2.
Proof.
  assert (EOpenOut (Handle 1 2) "out/" "in.bin.2" true
            ∈ trace (main parity_codec digits_rng (calm "out/in.bin" 2 1 2 five_bytes)))
    as Hin.
  { apply list_elem_of_In. vm_compute. tauto. }
  split; [done|].
  apply (destination_names parity_codec digits_rng
           (calm "out/in.bin" 2 1 2 five_bytes) _ _ _ _ Hin).
Defined.

(** *** What a run does not touch *)

Lemma main_rejected (codec : Codec) (prng : PRNG) (w : World) :
  ~ accepted w ->
  Forall (fun e => is_file_io e = false) (trace (main codec prng w)).
Proof.
  intros Hn. unfold main, accepted in *.
  repeat case_decide; try (repeat constructor; done). destruct Hn. split; [|lia].
  destruct (decide (length (w_args w) = 1%nat)); done.
Qed.

Lemma main_accepted (codec : Codec) (prng : PRNG) (w : World) :
  accepted w ->
  main codec prng w
  = bind (checked (New codec (w_dataShards w) (w_parShards w)))
      (fun enc =>
         bind (emit (EOpenInput (input_name w) (bool_decide (w_open w = None))))
           (fun _ =>
              bind (if w_open w is Some e then stop (Panic (PanicError e)) else ret tt)
                (fun _ => deferred ECloseInput
                            (encode_file codec prng w enc (input_name w))))).
Proof.
  intros [Hargs Hsum]. unfold main.
  rewrite decide_False by (by intros ?). by rewrite decide_False by lia.
Qed.

Lemma file_io_after_validation (codec : Codec) (prng : PRNG) (w : World)
    (e : event) :
  e ∈ trace (main codec prng w) -> is_file_io e = true ->
  accepted w
  /\ exists enc, New codec (w_dataShards w) (w_parShards w) = inr enc.
Proof.
  intros He Hio.
  destruct (decide (accepted w)) as [Hacc|Hn].
  - split; [done|].
    destruct (New codec (w_dataShards w) (w_parShards w)) as [err|enc] eqn:Hnew;
      [|by exists enc].
    rewrite main_accepted, Hnew in He by done. simpl in He.
    apply list_elem_of_singleton in He as ->. discriminate Hio.
  - pose proof (main_rejected codec prng w Hn) as Hall.
    rewrite Forall_forall in Hall. rewrite (Hall e He) in Hio. discriminate Hio.
Qed.

(** In every run, a system call on a file (the input or a destination) is
    only made after the command line has been accepted and the codec has
    been created for the two shard counts. *)
Theorem file_io_needs_valid_configuration (codec : Codec) (prng : PRNG) (w : World)
    (e : event) :
  e ∈ trace (main codec prng w) -> is_file_io e = true ->
  accepted w
  /\ exists enc, New codec (w_dataShards w) (w_parShards w) = inr enc.
Proof. apply file_io_after_validation. Qed.

Lemma file_io_needs_valid_configuration_witness :
  EOpenInput "in.bin" true ∈ trace sample_run
  /\ accepted (calm "in.bin" 2 1 2 five_bytes).
Proof.
  assert (EOpenInput "in.bin" true ∈ trace sample_run) as Hin.
  { apply list_elem_of_In. vm_compute. tauto. }
  split; [done|].
  apply (file_io_needs_valid_configuration parity_codec digits_rng
           (calm "in.bin" 2 1 2 five_bytes) _ Hin eq_refl).
Defined.

(** In every run, a destination file is only opened, written or closed
    after the input file has been opened, sized and read through for the
    hash without error, and only when the stripe size [k * blockSize], as
    the program computes it, is at least 1. *)
Theorem destinations_need_ready_input (codec : Codec) (prng : PRNG) (w : World)
    (e : event) :
  e ∈ trace (main codec prng w) -> is_dest_event e = true ->
  w_open w = None /\ w_stat w = None /\ w_copy w = None
  /\ 1 <= GoInt.mul (w_dataShards w) (w_blockSize w).
Proof.
  intros He Hdest.
  assert (is_file_io e = true) as Hio by (by destruct e).
  destruct (file_io_after_validation codec prng w e He Hio)
    as [Hacc [enc Hnew]].
  rewrite main_accepted, Hnew in He by done.
  unfold checked, checkErr in He. rewrite !bind_ret, bind_emit in He.
  destruct (w_open w) as [err|] eqn:Hopen.
  { simpl in He. apply list_elem_of_singleton in He as ->. discriminate Hdest. }
  rewrite bind_ret in He. unfold encode_file in He. rewrite bind_emit in He.
  destruct (w_stat w) as [err|] eqn:Hstat.
  { simpl in He. rewrite !elem_of_cons, elem_of_nil in He.
    destruct He as [->|[->|[->|[]]]]; discriminate Hdest. }
  rewrite bind_ret, bind_emit in He.
  destruct (w_copy w) as [err|] eqn:Hcopy.
  { simpl in He. rewrite !elem_of_cons, elem_of_nil in He.
    destruct He as [->|[->|[->|[->|[]]]]]; discriminate Hdest. }
  split_and!; try done.
  rewrite bind_ret, !bind_emit in He. unfold make in He.
  destruct (decide (GoInt.mul (w_dataShards w) (w_blockSize w) < 0)) as [Hneg|Hneg].
  { simpl in He. rewrite !elem_of_cons, elem_of_nil in He.
    destruct He as [->|[->|[->|[->|[->|[->|[]]]]]]]; discriminate Hdest. }
  rewrite bind_ret in He.
  destruct (decide (GoInt.add (w_dataShards w) (w_parShards w) < 0)) as [Hneg'|Hneg'].
  { simpl in He. rewrite !elem_of_cons, elem_of_nil in He.
    destruct He as [->|[->|[->|[->|[->|[->|[]]]]]]]; discriminate Hdest. }
  rewrite bind_ret in He.
  destruct (decide (GoInt.mul (w_dataShards w) (w_blockSize w) = 0)) as [Hz|Hz]; [|lia].
  simpl in He. rewrite !elem_of_cons, elem_of_nil in He.
  destruct He as [->|[->|[->|[->|[->|[->|[]]]]]]]; discriminate Hdest.
Qed.

Lemma destinations_need_ready_input_witness :
  EWrite (Handle 0 0) [x03; x04] true ∈ trace sample_run
  /\ 1 <= GoInt.mul 2 2.
Proof.
  assert (EWrite (Handle 0 0) [x03; x04] true ∈ trace sample_run) as Hin.
  { apply list_elem_of_In. vm_compute. tauto. }
  split; [done|].
  apply (destinations_need_ready_input parity_codec digits_rng
           (calm "in.bin" 2 1 2 five_bytes) _ Hin eq_refl).
Defined.

(** ** Fatal events *)

Lemma ends_at_deferred {A : Type} (P : event -> Prop) (Q Q' : list event -> halt -> Prop)
    (e0 : event) (m : M A) :
  ~ P e0 ->
  (forall t h, Q t h -> Q' (match h with Exit _ | OutOfFuel => t | _ => t ++ [e0] end) h) ->
  ends_at P Q m -> ends_at P Q' (deferred e0 m).
Proof.
  intros He0 HQ Hm t1 e t2 Ht HP.
  destruct m as [t r]. unfold ends_at in Hm. simpl in *.
  assert (forall t2', t = t1 ++ e :: t2' ->
                      exists h, r = inl h /\ Q t2' h) as Hin
    by (intros t2' ->; by apply (Hm t1 e t2')).
  destruct r as [[c|p|]|a]; simpl in Ht.
  - destruct (Hin t2 Ht) as (h & [= <-] & HQ1). exists (Exit c). split; [done|].
    apply (HQ _ _ HQ1).
  - apply app_eq_app in Ht as [t' [[Ht1 Ht2]|[Ht1 Ht2]]].
    + destruct t' as [|e' t']; simpl in Ht2.
      * injection Ht2 as -> _. contradiction.
      * injection Ht2 as <- ->.
        destruct (Hin _ Ht1) as (h & [= <-] & HQ1). exists (Panic p). split; [done|].
        apply (HQ _ _ HQ1).
    + destruct t' as [|e' t']; simpl in Ht2.
      * injection Ht2 as -> _. contradiction.
      * injection Ht2 as _ Ht2. by destruct t'.
  - destruct (Hin t2 Ht) as (h & [= <-] & HQ1). exists OutOfFuel. split; [done|].
    apply (HQ _ _ HQ1).
  - apply app_eq_app in Ht as [t' [[Ht1 Ht2]|[Ht1 Ht2]]].
    + destruct t' as [|e' t']; simpl in Ht2.
      * injection Ht2 as -> _. contradiction.
      * injection Ht2 as <- ->. destruct (Hin _ Ht1) as (h & [=] & _).
    + destruct t' as [|e' t']; simpl in Ht2.
      * injection Ht2 as -> _. contradiction.
      * injection Ht2 as _ Ht2. by destruct t'.
Qed.

Ltac quiet_steps :=
  apply ends_at_without;
  unfold checked, checkErr, die, index, assign, make;
  events_steps.

(** *** A failed read *)
Section ReadFault.

Context (codec : Codec) (prng : PRNG) (w : World) (s : Z).

Lemma ends_at_buf_Read (s' : Z) (data rest : list byte) :
  ends_at (is_read_fault s) (read_fault_panics w s) (buf_Read w s' data rest).
Proof.
  unfold buf_Read.
  destruct (w_read w s' (length data) (length rest)) as [n|err] eqn:Hread.
  - quiet_steps.
  - intros t1 e t2 Ht HP. rewrite bind_emit in Ht. simpl in Ht.
    destruct t1 as [|e1 t1]; [|by destruct t1].
    injection Ht as <- <-. simpl in HP. subst s'.
    eexists. split; [reflexivity|]. split; [done|].
    by exists err, (length data), (length rest).
Qed.

Lemma write_shard_no_read_fault dir file shards i v :
  events_in (fun e => ~ is_read_fault s e) (write_shard w dir file shards i v).
Proof. apply write_shard_events_quiet; intros; by intros []. Qed.

Lemma ends_at_stripe_read_fault enc fname stripeSize v :
  ends_at (is_read_fault s) (read_fault_panics w s)
          (stripe codec prng w enc fname stripeSize v).
Proof.
  unfold stripe. apply ends_at_bind; [apply ends_at_buf_Read|].
  intros [[b data'] rest'] _. quiet_steps.
  apply (events_in_for_each _ (fun _ => True)); [|done|done].
  intros. apply write_shard_no_read_fault.
Qed.

Lemma ends_at_stripes_read_fault enc fname stripeSize fuel :
  forall v, ends_at (is_read_fault s) (read_fault_panics w s)
                    (stripes codec prng w fuel enc fname stripeSize v).
Proof.
  induction fuel as [|fuel IH]; intros v; [apply ends_at_without, events_in_quiet|].
  cbn [stripes]. apply ends_at_bind; [apply ends_at_stripe_read_fault|].
  intros [[] v'] _; [apply ends_at_without, events_in_quiet|apply IH].
Qed.

Lemma ends_at_encode_file_read_fault enc fname :
  ends_at (is_read_fault s) (read_fault_panics w s) (encode_file codec prng w enc fname).
Proof.
  unfold encode_file.
  do 10 (apply ends_at_bind; [quiet_steps|intros ? _]).
  apply ends_at_bind; [apply ends_at_stripes_read_fault|intros v _].
  apply ends_at_without. apply events_in_bind.
  - apply events_in_close_all. by intros [] ? [].
  - intros _ _. events_steps.
Qed.

End ReadFault.

(** A read error other than the end of the input is fatal in every run:
    when the read of stripe [s] fails, the run panics with the error of the
    reader, and the only thing done after the failed read is the deferred
    close of the input file. *)
Theorem read_fault_is_fatal (codec : Codec) (prng : PRNG) (w : World) (s : Z)
    (t1 t2 : list event) :
  trace (main codec prng w) = t1 ++ EReadFault s :: t2 ->
  t2 = [ECloseInput]
  /\ exists err want rem,
       w_read w s want rem = Fault err
       /\ result (main codec prng w) = inl (Panic (PanicError err)).
Proof.
  intros Ht.
  assert (ends_at (is_read_fault s)
            (fun t h => t = [ECloseInput] /\
                        exists err want rem,
                          w_read w s want rem = Fault err /\ h = Panic (PanicError err))
            (main codec prng w)) as Hends.
  { unfold main. case_decide; [quiet_steps|]. case_decide; [quiet_steps|].
    apply ends_at_bind; [quiet_steps|intros enc _].
    apply ends_at_bind; [quiet_steps|intros _ _].
    apply ends_at_bind; [quiet_steps|intros _ _].
    apply (ends_at_deferred _ (read_fault_panics w s)); [by intros []| |].
    - intros t h (-> & err & want & rem & Hw & ->). split; [done|].
      by exists err, want, rem.
    - apply ends_at_encode_file_read_fault. }
  destruct (Hends t1 _ t2 Ht eq_refl) as (h & Hr & -> & err & want & rem & Hw & ->).
  split; [done|]. by exists err, want, rem.
Qed.

Lemma read_fault_is_fatal_witness :
  trace read_fault_run
  = take 16 (trace read_fault_run) ++ EReadFault 1 :: drop 17 (trace read_fault_run)
  /\ drop 17 (trace read_fault_run) = [ECloseInput].
Proof.
  assert (trace read_fault_run
          = take 16 (trace read_fault_run) ++ EReadFault 1 :: drop 17 (trace read_fault_run))
    as Ht by (vm_compute; reflexivity).
  split; [exact Ht|].
  apply (read_fault_is_fatal parity_codec digits_rng
           (with_read (calm "in.bin" 2 1 2 five_bytes) second_read_fails) 1 _ _ Ht).
Defined.

(** *** An error report *)

Lemma close_all_only_closes (P : event -> Prop) (of' : list (option handle)) :
  (forall h, P (ECloseOut h)) -> events_in P (close_all of').
Proof.
  intros HP. unfold close_all. apply (events_in_for_each P (fun _ => True)); [|done|done].
  intros i [] _. repeat case_match; try apply events_in_quiet.
  apply events_in_emit, HP.
Qed.

Lemma ends_at_die {A : Type} (err : error) :
  ends_at is_report report_exits (@die A err).
Proof.
  intros t1 e t2 Ht HP. unfold die in *. rewrite bind_emit in *. simpl in *.
  destruct t1 as [|e1 t1]; [|by destruct t1]. injection Ht as <- <-.
  exists (Exit 2). split; [done|]. by right.
Qed.

Lemma ends_at_checkErr (err : option error) :
  ends_at is_report report_exits (checkErr err).
Proof. destruct err; [apply ends_at_die|apply ends_at_without, events_in_quiet]. Qed.

Lemma ends_at_checked {A : Type} (r : error + A) :
  ends_at is_report report_exits (checked r).
Proof.
  destruct r; [apply ends_at_die|]. apply ends_at_without. unfold checked, checkErr.
  events_steps.
Qed.

Ltac report_steps :=
  repeat first
    [ apply ends_at_bind; [|intros ? _]
    | apply ends_at_checked
    | apply ends_at_checkErr
    | match goal with
      | |- ends_at _ _ (match ?x with _ => _ end) => destruct x
      end
    | solve [apply ends_at_without; unfold index, assign, make, buf_Read; events_steps] ].

Section Reports.

Context (codec : Codec) (prng : PRNG) (w : World).

Lemma ends_at_write_shard_report dir file shards i v :
  ends_at is_report report_exits (write_shard w dir file shards i v).
Proof. unfold write_shard. report_steps. Qed.

Lemma ends_at_stripe_report enc fname stripeSize v :
  ends_at is_report report_exits (stripe codec prng w enc fname stripeSize v).
Proof.
  unfold stripe. report_steps.
  apply (ends_at_for_each _ _ (fun _ => True)); [|done|done].
  intros. apply ends_at_write_shard_report.
Qed.

Lemma ends_at_stripes_report enc fname stripeSize fuel :
  forall v, ends_at is_report report_exits
                    (stripes codec prng w fuel enc fname stripeSize v).
Proof.
  induction fuel as [|fuel IH]; intros v; [apply ends_at_without, events_in_quiet|].
  cbn [stripes]. apply ends_at_bind; [apply ends_at_stripe_report|].
  intros [[] v'] _; [apply ends_at_without, events_in_quiet|apply IH].
Qed.

Lemma ends_at_encode_file_report enc fname :
  ends_at is_report report_exits (encode_file codec prng w enc fname).
Proof.
  unfold encode_file.
  do 10 (apply ends_at_bind; [report_steps|intros ? _]).
  apply ends_at_bind; [apply ends_at_stripes_report|intros v _].
  apply ends_at_without. apply events_in_bind.
  - apply close_all_only_closes. by intros ? [].
  - intros _ _. events_steps.
Qed.

Lemma ends_at_main_report : ends_at is_report report_exits (main codec prng w).
Proof.
  unfold main. case_decide; [|case_decide].
  - intros t1 e t2 Ht HP. simpl in Ht.
    destruct t1 as [|e1 [|e2 t1]]; simplify_eq/=;
      [|by destruct t1]. exists (Exit 1). split; [done|]. left. eauto.
  - intros t1 e t2 Ht HP. simpl in Ht.
    destruct t1 as [|e1 t1]; simplify_eq/=; [|by destruct t1].
    exists (Exit 1). split; [done|]. left. eauto.
  - apply ends_at_bind; [apply ends_at_checked|intros enc _].
    apply ends_at_bind; [report_steps|intros _ _].
    apply ends_at_bind; [report_steps|intros _ _].
    apply (ends_at_deferred _ report_exits); [by intros []| |].
    + intros t h [[-> ?]|[-> ?]]; [by left|by right].
    + apply ends_at_encode_file_report.
Qed.

End Reports.

(** In every run an error report is the last thing done: after a message
    on standard error the process exits, with status 1 when the command
    line was rejected (the usage text may follow), with status 2 when
    [checkErr] reported an error; no file is touched after the report. *)
Theorem error_report_is_fatal (codec : Codec) (prng : PRNG) (w : World)
    (msg : string) (t1 t2 : list event) :
  trace (main codec prng w) = t1 ++ EStderr msg :: t2 ->
  (result (main codec prng w) = inl (Exit 1) /\ (t2 = [EUsage] \/ t2 = []))
  \/ (result (main codec prng w) = inl (Exit 2) /\ t2 = []).
Proof.
  intros Ht.
  destruct (ends_at_main_report codec prng w t1 _ t2 Ht I) as (h & Hr & HQ).
  rewrite Hr. destruct HQ as [[-> ?]|[-> ?]]; [by left|by right].
Qed.

Lemma error_report_is_fatal_witness :
  trace rejected_by_codec_run
  = [] ++ EStderr "Error: cannot create Encoder with less than one data shard or less than zero parity shards" :: []
  /\ result rejected_by_codec_run = inl (Exit 2).
Proof.
  assert (trace rejected_by_codec_run
          = [] ++ EStderr "Error: cannot create Encoder with less than one data shard or less than zero parity shards" :: [])
    as Ht by (vm_compute; reflexivity).
  split; [exact Ht|].
  destruct (error_report_is_fatal parity_codec digits_rng
              (calm "in.bin" 0 2 1024 five_bytes) _ _ _ Ht) as [[Hr _]|[Hr _]].
  - vm_compute in Hr. discriminate Hr.
  - exact Hr.
Defined.

(** *** A failed open of a destination *)

Lemma index_inv {A : Type} (a : list A) (i : Z) (x : A) :
  result (index a i) = inr x -> 0 <= i /\ a !! Z.to_nat i = Some x.
Proof.
  unfold index. case_decide; [|discriminate].
  destruct (a !! Z.to_nat i) as [y|]; [|discriminate]. by intros [= ->].
Qed.

Lemma assign_inv {A : Type} (a a' : list A) (i : Z) (x : A) :
  result (assign a i x) = inr a' ->
  0 <= i < Z.of_nat (length a) /\ a' = <[Z.to_nat i:=x]> a.
Proof. unfold assign. case_decide; [|discriminate]. by intros [= <-]. Qed.

Lemma write_shard_frame (w : World) (dir file : string) (shards : list (list byte))
    (i : nat) (v v' : vars) :
  result (write_shard w dir file shards i v) = inr v' ->
  stripeno v' = stripeno v /\ distribution v' = distribution v
  /\ length (of_ v') = length (of_ v).
Proof.
  unfold write_shard. intros H.
  do 3 (apply result_bind_inr in H as (? & _ & H)).
  apply result_bind_inr in H as (of' & Hassign & H).
  repeat (apply result_bind_inr in H as (? & _ & H)).
  injection H as <-. simpl. apply assign_inv in Hassign as [_ ->].
  by rewrite length_insert.
Qed.

Lemma for_each_preserves {St : Type} (I : St -> Prop) (body : nat -> St -> M St)
    (idx : list nat) :
  (forall i st st', I st -> result (body i st) = inr st' -> I st') ->
  forall st st', I st -> result (for_each body idx st) = inr st' -> I st'.
Proof.
  intros Hbody. induction idx as [|i idx IH]; intros st st' Hst H; simpl in H.
  - by injection H as <-.
  - apply result_bind_inr in H as (st1 & H1 & H).
    apply (IH st1); [by apply (Hbody i st)|done].
Qed.

Section FailedOpen.

Context (codec : Codec) (prng : PRNG) (w : World) (h : handle).

Lemma ends_at_write_shard_open dir file shards i v :
  placement_fits v ->
  ends_at (is_failed_open h) (failed_open_exits w h) (write_shard w dir file shards i v).
Proof.
  intros Hfits. unfold write_shard.
  apply ends_at_bind; [quiet_steps|intros perm Hperm].
  apply ends_at_bind; [quiet_steps|intros j Hj].
  apply index_inv in Hperm as [Hs Hperm]. apply index_inv in Hj as [_ Hj].
  rewrite Nat2Z.id in Hj. apply lookup_lt_Some in Hj.
  specialize (Hfits perm Hs Hperm).
  destruct (w_openfile w (stripeno v) i) as [err|] eqn:Hopen.
  - rewrite bind_emit, assign_ok, bind_ret by lia. unfold checkErr, die.
    rewrite !bind_emit. simpl.
    intros t1 e t2 Ht HP. destruct t1 as [|e1 t1]; simpl in Ht.
    + injection Ht as <- <-. simpl in HP. subst h.
      exists (Exit 2). split; [done|]. exists err. simpl. done.
    + injection Ht as <- Ht. destruct t1 as [|e2 t1]; simpl in Ht.
      * injection Ht as <- <-. destruct HP.
      * injection Ht as _ Ht. by destruct t1.
  - quiet_steps.
Qed.

Lemma placement_fits_write_shard dir file shards i v v' :
  placement_fits v -> result (write_shard w dir file shards i v) = inr v' ->
  placement_fits v'.
Proof.
  intros Hfits Hr. apply write_shard_frame in Hr as (Hs & Hd & Hl).
  unfold placement_fits. rewrite Hs, Hd, Hl. apply Hfits.
Qed.

Lemma ends_at_stripe_open enc fname stripeSize v :
  length (of_ v) = Z.to_nat (GoInt.add (w_dataShards w) (w_parShards w)) ->
  ends_at (is_failed_open h) (failed_open_exits w h)
          (stripe codec prng w enc fname stripeSize v).
Proof.
  intros Hof. unfold stripe.
  apply ends_at_bind; [unfold buf_Read; quiet_steps|intros [[b data'] rest'] _].
  do 6 (apply ends_at_bind; [quiet_steps|intros ? _]).
  destruct (path_split fname) as [dir file].
  apply ends_at_bind; [quiet_steps|intros perm Hperm].
  apply ends_at_bind; [quiet_steps|intros distribution' Hassign].
  apply ends_at_bind; [quiet_steps|intros _ _].
  apply ends_at_bind; [|intros ? _; quiet_steps].
  apply (ends_at_for_each _ _ placement_fits).
  - intros. by apply ends_at_write_shard_open.
  - intros i st st'. apply placement_fits_write_shard.
  - intros perm' Hs Hlook. simpl in *.
    apply assign_inv in Hassign as [Hrange ->].
    rewrite list_lookup_insert_eq in Hlook by lia. injection Hlook as <-.
    destruct (genRandomArr prng _ _) as [perm''|] eqn:Hgen; [|discriminate Hperm].
    injection Hperm as ->.
    apply genRandomArr_length in Hgen as [-> _]. lia.
Qed.

Lemma stripe_keeps_slots enc fname stripeSize v brk v' :
  result (stripe codec prng w enc fname stripeSize v) = inr (brk, v') ->
  length (of_ v') = length (of_ v).
Proof.
  unfold stripe. intros H.
  apply result_bind_inr in H as ([[b data'] rest'] & _ & H).
  do 6 (apply result_bind_inr in H as (? & _ & H)).
  destruct (path_split fname) as [dir file].
  do 3 (apply result_bind_inr in H as (? & _ & H)).
  apply result_bind_inr in H as (v1 & Hloop & H).
  apply (for_each_preserves (fun st => length (of_ st) = length (of_ v))) in Hloop.
  - case_decide; injection H as <- <-; done.
  - intros i st st' Hst Hr. apply write_shard_frame in Hr as (_ & _ & ->). done.
  - done.
Qed.

Lemma ends_at_stripes_open enc fname stripeSize fuel :
  forall v,
    length (of_ v) = Z.to_nat (GoInt.add (w_dataShards w) (w_parShards w)) ->
    ends_at (is_failed_open h) (failed_open_exits w h)
            (stripes codec prng w fuel enc fname stripeSize v).
Proof.
  induction fuel as [|fuel IH]; intros v Hof; [apply ends_at_without, events_in_quiet|].
  cbn [stripes]. apply ends_at_bind; [by apply ends_at_stripe_open|].
  intros [[] v'] Hr; [apply ends_at_without, events_in_quiet|].
  apply IH. apply stripe_keeps_slots in Hr. by rewrite Hr.
Qed.

Lemma ends_at_encode_file_open enc fname :
  ends_at (is_failed_open h) (failed_open_exits w h) (encode_file codec prng w enc fname).
Proof.
  unfold encode_file.
  do 7 (apply ends_at_bind; [quiet_steps|intros ? _]).
  apply ends_at_bind; [quiet_steps|intros of' Hof].
  do 2 (apply ends_at_bind; [quiet_steps|intros ? _]).
  apply ends_at_bind; [|intros v _].
  - apply ends_at_stripes_open. simpl.
    unfold make in Hof. case_decide; [discriminate Hof|]. injection Hof as <-.
    apply length_replicate.
  - apply ends_at_without. apply events_in_bind.
    + apply close_all_only_closes. by intros ? [].
    + intros _ _. events_steps.
Qed.

End FailedOpen.

(** A failed open of a destination file is fatal in every run: when
    [os.OpenFile] fails for destination [d] in stripe [s], the error is
    reported and the process exits with status 2; no other destination is
    opened or written after it, and none is closed. *)
Theorem failed_open_is_fatal (codec : Codec) (prng : PRNG) (w : World)
    (h : handle) (dir outfn : string) (t1 t2 : list event) :
  trace (main codec prng w) = t1 ++ EOpenOut h dir outfn false :: t2 ->
  result (main codec prng w) = inl (Exit 2)
  /\ exists err, w_openfile w (h_stripe h) (h_index h) = Some err
                 /\ t2 = [EStderr ("Error: " +:+ err)].
Proof.
  intros Ht.
  assert (ends_at (is_failed_open h) (failed_open_exits w h) (main codec prng w))
    as Hends.
  { unfold main. case_decide; [quiet_steps|]. case_decide; [quiet_steps|].
    apply ends_at_bind; [quiet_steps|intros enc _].
    apply ends_at_bind; [quiet_steps|intros _ _].
    apply ends_at_bind; [quiet_steps|intros _ _].
    apply (ends_at_deferred _ (failed_open_exits w h)); [by intros []| |].
    - intros t hlt (err & ? & ? & ->). by exists err.
    - apply ends_at_encode_file_open. }
  destruct (Hends t1 _ t2 Ht eq_refl) as (hlt & Hr & err & Herr & -> & ->).
  split; [done|]. by exists err.
Qed.

Lemma failed_open_is_fatal_witness :
  trace open_fails_run
  = take 23 (trace open_fails_run)
    ++ EOpenOut (Handle 1 1) "" "in.bin.1" false :: drop 24 (trace open_fails_run)
  /\ result open_fails_run = inl (Exit 2).
Proof.
  assert (trace open_fails_run
          = take 23 (trace open_fails_run)
            ++ EOpenOut (Handle 1 1) "" "in.bin.1" false :: drop 24 (trace open_fails_run))
    as Ht by (vm_compute; reflexivity).
  split; [exact Ht|].
  apply (failed_open_is_fatal parity_codec digits_rng open_fails_world _ _ _ _ _ Ht).
Defined.

(** ** Sizes and shards of runs in which every call succeeds *)

Lemma flat_map_keyed {A B : Type} (key : A -> Z) (g : A -> list B) (l : list A)
    (i0 : nat) :
  (forall i x, l !! i = Some x -> key x = Z.of_nat i) ->
  flat_map (fun x => if decide (key x = Z.of_nat i0) then g x else []) l
  = from_option g [] (l !! i0).
Proof.
  induction l as [|x l IH] using rev_ind; intros Hkey; [done|].
  rewrite flat_map_app, IH
    by (intros i y Hy; apply Hkey; by rewrite lookup_app_l by (by eapply lookup_lt_Some)).
  assert (key x = Z.of_nat (length l)) as Hx
    by (apply Hkey; by rewrite list_lookup_middle).
  simpl. rewrite app_nil_r. case_decide as Hi.
  - assert (i0 = length l) as -> by lia.
    rewrite list_lookup_middle by done.
    by rewrite (proj2 (lookup_ge_None l (length l))) by lia.
  - destruct (decide (i0 < length l)%nat).
    + rewrite lookup_app_l by done. by rewrite app_nil_r.
    + rewrite !(proj2 (lookup_ge_None _ i0)); [done|rewrite length_app; simpl; lia|lia].
Qed.

Lemma payloads_permutation (perm : list Z) (shards : list (list byte)) :
  perm ≡ₚ seqZ 0 (Z.of_nat (length shards)) ->
  payload perm shards <$> seq 0 (length shards) ≡ₚ shards.
Proof.
  intros Hperm.
  assert (length perm = length shards) as Hlen by (by rewrite Hperm, length_seqZ, Nat2Z.id).
  assert (payload perm shards <$> seq 0 (length shards)
          = (fun j => default [] (shards !! Z.to_nat j)) <$> perm) as ->.
  { apply list_eq. intros d. rewrite !list_lookup_fmap.
    destruct (decide (d < length shards)%nat) as [Hd|Hd].
    - rewrite lookup_seq_lt by done.
      destruct (lookup_lt_is_Some_2 perm d) as [j Hj]; [lia|].
      unfold payload. simpl. by rewrite Hj.
    - rewrite lookup_seq_ge by lia.
      by rewrite (proj2 (lookup_ge_None perm d)) by lia. }
  rewrite Hperm.
  assert ((fun j => default [] (shards !! Z.to_nat j)) <$> seqZ 0 (Z.of_nat (length shards))
          = shards) as Heq; [|by rewrite Heq].
  apply list_eq. intros i. rewrite list_lookup_fmap.
  destruct (decide (i < length shards)%nat) as [Hi|Hi].
  - rewrite lookup_seqZ_lt by lia. simpl.
    destruct (lookup_lt_is_Some_2 shards i) as [p Hp]; [done|].
    replace (Z.to_nat (0 + Z.of_nat i)) with i by lia. by rewrite Hp.
  - rewrite lookup_seqZ_ge by lia. by rewrite (proj2 (lookup_ge_None shards i)) by lia.
Qed.

Lemma written_in_block (codec : Codec) (prng : PRNG) (w : World) (enc : Encoder codec)
    (dir file : string) (n : nat) (s' s : Z) (b : nat) (buf : list byte) :
  written_in s' (stripe_block codec prng w enc dir file n (s, b, buf))
  = if decide (s = s')
    then payload (placement prng w s) (encode_of codec enc buf) <$> seq 0 n
    else [].
Proof.
  unfold stripe_block, written_in. rewrite !omap_app, omap_flat_map. simpl.
  case_decide as Hs.
  - apply flat_map_singleton.
  - apply flat_map_nil.
Qed.

Lemma appended_all (b : nat) (ws : list (Z * list byte * bool)) :
  Forall (fun x => length x.1.2 = b /\ x.2 = true) ws ->
  length (mjoin (omap (fun '(_, p, ok) => if ok : bool then Some p else None) ws))
  = (length ws * b)%nat.
Proof.
  induction 1 as [|[[s p] ok] ws [Hp Hok] _ IH]; [done|].
  simpl in Hp, Hok. subst ok. simpl. rewrite length_app.
  change (list_omap _ _ ?f ws) with (omap f ws). rewrite IH. lia.
Qed.

Section CalmBuffers.

Context (codec : Codec) (prng : PRNG) (w : World) (enc : Encoder codec).

Hypothesis Hcfg : valid_config (w_dataShards w) (w_parShards w) (w_blockSize w).
Hypothesis Hnew : New codec (w_dataShards w) (w_parShards w) = inr enc.
Hypothesis Hcodec : codec_ok codec enc (w_dataShards w) (w_parShards w) (w_blockSize w).
Hypothesis Hcalm : calm_world w.

Local Notation "'W'" := (input_windows w).
Local Notation "'L'" := (ledger_slots w).
Local Notation "'run'" := (main codec prng w).

Lemma written_in_calm (s : Z) :
  written_in s (trace run)
  = flat_map (fun x => if decide (x.1.1 = s)
                       then payload (placement prng w x.1.1) (encode_of codec enc x.2)
                              <$> seq 0 (shard_count w)
                       else []) (take L W).
Proof.
  destruct (main_calm codec prng w enc Hcfg Hnew Hcodec Hcalm) as (Ht & _ & _).
  rewrite Ht. unfold written_in. rewrite !omap_app, omap_flat_map.
  rewrite (flat_map_ext _ (fun x => if decide (x.1.1 = s)
                       then payload (placement prng w x.1.1) (encode_of codec enc x.2)
                              <$> seq 0 (shard_count w)
                       else []))
    by (intros [[s0 b] buf]; apply written_in_block).
  destruct (W !! L) as [[[s0 b] buf]|]; [|destruct (last W) as [[[s0 b] buf]|]];
    unfold prelude, epilogue; rewrite ?omap_app, ?omap_fmap_None by done;
    simpl; by rewrite ?app_nil_r.
Qed.

End CalmBuffers.

(** For a valid configuration and a codec that keeps the shape of the
    shards: when every call succeeds, every read delivers all the bytes
    asked for or all that remain, and the length of the input is not a
    multiple of the stripe size, [main] returns normally.  It has then
    recorded and
    written [len / stripeSize + 1] stripes, every destination has received
    one write of [blockSize] bytes for each of them, and, the writes
    succeeding, holds [(len / stripeSize + 1) * blockSize] bytes: the last
    stripe is stored at full length. *)
Theorem ragged_input_returns (codec : Codec) (prng : PRNG) (w : World)
    (enc : Encoder codec) :
  valid_config (w_dataShards w) (w_parShards w) (w_blockSize w) ->
  New codec (w_dataShards w) (w_parShards w) = inr enc ->
  codec_ok codec enc (w_dataShards w) (w_parShards w) (w_blockSize w) ->
  calm_world w ->
  (length (w_input w) `mod` stripe_bytes w)%nat <> 0%nat ->
  returned (result (main codec prng w)) = true
  /\ fst <$> ledger (trace (main codec prng w))
     = seqZ 0 (Z.of_nat (length (w_input w) / stripe_bytes w) + 1)
  /\ (forall d, (d < shard_count w)%nat ->
        sizes (writes_of d (trace (main codec prng w)))
        = (fun s => (s, w_blockSize w, w_write w s d))
            <$> seqZ 0 (Z.of_nat (length (w_input w) / stripe_bytes w) + 1))
  /\ ((forall s d, w_write w s d = true) ->
      forall d, (d < shard_count w)%nat ->
        Z.of_nat (length (appended d (trace (main codec prng w))))
        = (Z.of_nat (length (w_input w) / stripe_bytes w) + 1) * w_blockSize w).
Proof.
  intros Hcfg Hnew Hcodec Hcalm Hmod.
  destruct (ragged_returns codec prng w enc Hcfg Hnew Hcodec Hcalm Hmod) as (_ & Hres & HL).
  assert (Z.of_nat (length (w_input w) / stripe_bytes w) + 1 = Z.of_nat (ledger_slots w))
    as -> by lia.
  split_and!.
  - done.
  - by apply (ledger_stripes_calm codec prng w enc).
  - intros d Hd. by apply (writes_sizes_calm codec prng w enc).
  - intros Hok d Hd. unfold appended.
    rewrite (appended_all (Z.to_nat (w_blockSize w))).
    + pose proof (writes_stripes_calm codec prng w enc Hcfg Hnew Hcodec Hcalm d Hd) as Hst.
      apply (f_equal length) in Hst. rewrite length_fmap, length_seqZ in Hst.
      rewrite Hst. destruct Hcfg. lia.
    + rewrite (writes_of_calm codec prng w enc) by done.
      apply Forall_fmap, Forall_lookup. intros i x Hx. simpl.
      apply lookup_take_Some in Hx as [Hx _].
      destruct (payload_length codec prng w enc Hcfg Hcodec x.1.1 x.2 d)
        as (j & p & _ & _ & _ & -> & Hp);
        [by apply (window_buffers_sized w Hcfg i)|done|].
      split; [lia|apply Hok].
Qed.

Lemma ragged_input_returns_witness :
  returned (result sample_run) = true
  /\ fst <$> ledger (trace sample_run) = seqZ 0 2.
Proof.
  pose proof (ragged_input_returns parity_codec digits_rng
                (calm "in.bin" 2 1 2 five_bytes) (2%nat, 1%nat)) as H.
  destruct H as (Hres & Hledger & _).
  - split; simpl; unfold GoInt.max_int; lia.
  - reflexivity.
  - apply (parity_codec_ok 2 1 2); lia.
  - apply calm_is_calm. simpl. unfold GoInt.max_int. lia.
  - vm_compute. discriminate.
  - split; [exact Hres|exact Hledger].
Defined.

(** For a valid configuration and a codec that keeps the shape of the
    shards: when every call succeeds and every read delivers all the bytes
    asked for or all that remain, the payloads written in a recorded
    stripe are the shards the codec returned for that stripe, each of them
    exactly once: the placement loses no shard and duplicates none. *)
Theorem stripe_writes_every_shard_once (codec : Codec) (prng : PRNG) (w : World)
    (enc : Encoder codec) (s : Z) (perm : list Z) (shards : list (list byte)) :
  valid_config (w_dataShards w) (w_parShards w) (w_blockSize w) ->
  New codec (w_dataShards w) (w_parShards w) = inr enc ->
  codec_ok codec enc (w_dataShards w) (w_parShards w) (w_blockSize w) ->
  calm_world w ->
  (s, perm) ∈ ledger (trace (main codec prng w)) ->
  (s, shards) ∈ encoded (trace (main codec prng w)) ->
  written_in s (trace (main codec prng w)) ≡ₚ shards.
Proof.
  intros Hcfg Hnew Hcodec Hcalm Hl He.
  rewrite (ledger_calm codec prng w enc) in Hl by done.
  rewrite (encoded_calm codec prng w enc) in He by done.
  apply list_elem_of_fmap in Hl as (x & Hx & Hxin).
  apply list_elem_of_fmap in He as (y & Hy & Hyin).
  apply elem_of_take in Hxin as (i & Hxi & Hi).
  apply elem_of_take in Hyin as (i' & Hyi & Hi').
  injection Hx as Hs ->. injection Hy as Hs' ->.
  pose proof (window_stripe_index w Hcfg i x Hxi) as Hix.
  pose proof (window_stripe_index w Hcfg i' y Hyi) as Hiy.
  assert (i' = i) as -> by lia.
  assert (y = x) as -> by congruence.
  clear Hs'. rewrite (written_in_calm codec prng w enc) by done.
  rewrite Hs, Hix.
  rewrite (flat_map_keyed (fun x => x.1.1)
             (fun x => payload (placement prng w x.1.1) (encode_of codec enc x.2)
                         <$> seq 0 (shard_count w))).
  - rewrite lookup_take_lt by done. rewrite Hxi. cbn [from_option].
    destruct (codec_on_buffer codec w enc Hcfg Hcodec x.2)
      as (shards0 & shards & _ & _ & _ & [Hlen _] & _ & Heo);
      [by apply (window_buffers_sized w Hcfg i)|].
    rewrite Heo. unfold shard_count. rewrite <- Hlen.
    apply payloads_permutation.
    destruct (placement_perm prng w Hcfg x.1.1) as [_ ->].
    destruct (shard_count_exact w Hcfg). rewrite Hlen. by rewrite Z2Nat.id by lia.
  - intros j z Hz. apply lookup_take_Some in Hz as [Hz _].
    by apply (window_stripe_index w Hcfg j).
Qed.

Lemma stripe_writes_every_shard_once_witness :
  written_in 0 (trace sample_run) ≡ₚ [[x01; x02]; [x03; x04]; [x02; x06]].
Proof.
  pose proof five_bytes_run as (_ & _ & Henc & Hledger & _).
  apply (stripe_writes_every_shard_once parity_codec digits_rng
           (calm "in.bin" 2 1 2 five_bytes) (2%nat, 1%nat) 0 [1; 2; 0]).
  - split; simpl; unfold GoInt.max_int; lia.
  - reflexivity.
  - apply (parity_codec_ok 2 1 2); lia.
  - apply calm_is_calm. simpl. unfold GoInt.max_int. lia.
  - fold sample_run. rewrite Hledger. apply list_elem_of_here.
  - fold sample_run. rewrite Henc. apply list_elem_of_here.
Defined.

(** ** A stripe size that is not positive *)

(** When the product [dataShards * blockSize], taken in 64 bits, is zero
    or negative, [main] panics after it has opened, sized, hashed and
    rewound the input: on the allocation of the buffer when the product is
    negative, on the division by the stripe size when it is zero.  Nothing
    is read for a stripe and no destination is opened; the deferred close
    of the input is the last event. *)
Theorem nonpositive_stripe_size_panics (codec : Codec) (prng : PRNG) (w : World)
    (enc : Encoder codec) :
  accepted w ->
  New codec (w_dataShards w) (w_parShards w) = inr enc ->
  w_open w = None -> w_stat w = None -> w_copy w = None ->
  GoInt.mul (w_dataShards w) (w_blockSize w) <= 0 ->
  trace (main codec prng w)
  = [EOpenInput (input_name w) true; EStat (input_name w) true; EHashCopy true;
     ESeekStart (w_seek w); EPrintOpening (input_name w); ECloseInput]
  /\ result (main codec prng w)
     = inl (Panic (if decide (GoInt.mul (w_dataShards w) (w_blockSize w) = 0
                              /\ 0 <= GoInt.add (w_dataShards w) (w_parShards w))
                   then PanicDivide else PanicMakeLen)).
Proof.
  intros Hacc Hnew Hopen Hstat Hcopy Hsize.
  rewrite (main_accepted codec prng w Hacc), Hnew, Hopen.
  unfold checked, checkErr, encode_file, make. rewrite Hstat, Hcopy.
  rewrite !bind_ret, !bind_emit.
  destruct (decide (GoInt.mul (w_dataShards w) (w_blockSize w) < 0)) as [Hneg|Hneg].
  - rewrite (decide_False (P := _ /\ _)) by lia. by rewrite !bind_stop.
  - rewrite !bind_ret.
    destruct (decide (GoInt.add (w_dataShards w) (w_parShards w) < 0)) as [Hn|Hn].
    + rewrite (decide_False (P := _ /\ _)) by lia. by rewrite !bind_stop.
    + rewrite !bind_ret. rewrite (decide_True (P := _ = 0)) by lia.
      rewrite (decide_True (P := _ /\ _)) by lia. by rewrite !bind_stop.
Qed.

Lemma nonpositive_stripe_size_panics_witness :
  GoInt.mul (w_dataShards wrapped_stripe_world) (w_blockSize wrapped_stripe_world) <= 0
  /\ result (main parity_codec digits_rng wrapped_stripe_world)
     = inl (Panic PanicDivide).
Proof.
  assert (GoInt.mul (w_dataShards wrapped_stripe_world)
                    (w_blockSize wrapped_stripe_world) <= 0) as Hsize
    by (vm_compute; discriminate).
  split; [exact Hsize|].
  apply (nonpositive_stripe_size_panics parity_codec digits_rng wrapped_stripe_world
           (4%nat, 2%nat)).
  - split; [reflexivity|vm_compute; discriminate].
  - reflexivity.
  - reflexivity.
  - reflexivity.
  - reflexivity.
  - exact Hsize.
Defined.

(** ** The deferred close of the input *)

Lemma stripe_inside_open (codec : Codec) (prng : PRNG) (w : World)
    (enc : Encoder codec) (fname : string) (stripeSize : Z) (v : vars) :
  events_in inside_open (stripe codec prng w enc fname stripeSize v).
Proof.
  unfold stripe, buf_Read, checked, checkErr, die, index, assign.
  destruct (path_split fname) as [dir file]. events_steps.
  apply (events_in_for_each _ (fun _ => True)); [|done|done].
  intros i st _. by apply write_shard_events_quiet.
Qed.

Lemma stripes_inside_open (codec : Codec) (prng : PRNG) (w : World)
    (enc : Encoder codec) (fname : string) (stripeSize : Z) (fuel : nat) :
  forall v, events_in inside_open (stripes codec prng w fuel enc fname stripeSize v).
Proof.
  induction fuel as [|fuel IH]; intros v; [apply events_in_quiet|].
  cbn [stripes]. apply events_in_bind; [apply stripe_inside_open|].
  intros [[] v'] _; [apply events_in_quiet|apply IH].
Qed.

Lemma encode_file_inside_open (codec : Codec) (prng : PRNG) (w : World)
    (enc : Encoder codec) (fname : string) :
  events_in inside_open (encode_file codec prng w enc fname).
Proof.
  unfold encode_file, make.
  do 10 (apply events_in_bind;
         [repeat case_match; first [apply events_in_quiet|by apply events_in_emit]
         |intros ? _]).
  apply events_in_bind; [apply stripes_inside_open|intros v _].
  apply events_in_bind; [by apply close_all_only_closes|intros _ _].
  apply events_in_bind; [by apply events_in_emit|intros _ _].
  apply events_in_quiet.
Qed.

(** In every run, the input file is closed exactly when it was opened and
    [main] did not end in [os.Exit]: the deferred [Close] runs on a normal
    return and on a panic, and is skipped when [checkErr] exits.  When it
    runs, it is the last event of the run and the only close of the
    input. *)
Theorem input_closed_unless_exit (codec : Codec) (prng : PRNG) (w : World) :
  (ECloseInput ∈ trace (main codec prng w)
   <-> EOpenInput (input_name w) true ∈ trace (main codec prng w)
       /\ forall c, result (main codec prng w) <> inl (Exit c))
  /\ (ECloseInput ∈ trace (main codec prng w) ->
      exists t, trace (main codec prng w) = t ++ [ECloseInput] /\ ECloseInput ∉ t).
Proof.
  unfold main. fold (input_name w). repeat case_decide.
  - simpl. rewrite !elem_of_cons, !elem_of_nil. split; [split|]; intros Hx.
    + by destruct Hx as [|[|]].
    + destruct Hx as [_ Hx]. by destruct (Hx 1).
    + by destruct Hx as [|[|]].
  - simpl. rewrite !elem_of_cons, !elem_of_nil. split; [split|]; intros Hx.
    + by destruct Hx as [|].
    + destruct Hx as [_ Hx]. by destruct (Hx 1).
    + by destruct Hx as [|].
  - unfold checked, checkErr, die.
    destruct (New codec (w_dataShards w) (w_parShards w)) as [e|enc].
    { simpl. rewrite !elem_of_cons, !elem_of_nil. split; [split|]; intros Hx.
      + by destruct Hx as [|].
      + destruct Hx as [_ Hx]. by destruct (Hx 2).
      + by destruct Hx as [|]. }
    rewrite !bind_ret, bind_emit.
    destruct (w_open w) as [e|].
    { simpl. rewrite !elem_of_cons, !elem_of_nil. split; [split|]; intros Hx.
      + by destruct Hx as [|].
      + destruct Hx as [[Hx|[]] _]. discriminate Hx.
      + by destruct Hx as [|]. }
    rewrite bind_ret. rewrite bool_decide_true by done.
    pose proof (encode_file_inside_open codec prng w enc (input_name w)) as Hin.
    pose proof (fuelled_encode_file codec prng w enc (input_name w)) as Hfuel.
    unfold events_in, fuelled, deferred, trace, result in *.
    destruct (encode_file codec prng w enc (input_name w)) as [t [[c|p|]|v]];
      simpl in *; try done.
    + assert (ECloseInput ∉ t) as Hnot.
      { intros Hc. rewrite Forall_forall in Hin. by apply Hin in Hc. }
      rewrite !elem_of_cons. split; [split|]; intros Hx.
      * by destruct Hx as [|].
      * destruct Hx as [_ Hx]. by destruct (Hx c).
      * by destruct Hx as [|].
    + assert (ECloseInput ∉ t) as Hnot.
      { intros Hc. rewrite Forall_forall in Hin. by apply Hin in Hc. }
      split; [split|].
      * intros _. split; [apply list_elem_of_here|done].
      * intros _. rewrite elem_of_cons, elem_of_app, elem_of_cons. tauto.
      * intros _. exists (EOpenInput (input_name w) true :: t). split; [done|].
        rewrite elem_of_cons. by intros [|].
    + assert (ECloseInput ∉ t) as Hnot.
      { intros Hc. rewrite Forall_forall in Hin. by apply Hin in Hc. }
      split; [split|].
      * intros _. split; [apply list_elem_of_here|done].
      * intros _. rewrite elem_of_cons, elem_of_app, elem_of_cons. tauto.
      * intros _. exists (EOpenInput (input_name w) true :: t). split; [done|].
        rewrite elem_of_cons. by intros [|].
Qed.

(** ** The close of the destinations *)

Lemma no_close_closes (t : list event) : Forall no_close t -> closes t = [].
Proof.
  induction 1 as [|e t He _ IH]; [done|].
  destruct e; try exact IH. destruct He.
Qed.

Lemma closes_at_return_bind {A B : Type} (n : nat) (m : M A) (f : A -> M B) :
  events_in no_close m ->
  (forall a, result m = inr a -> closes_at_return n (f a)) ->
  closes_at_return n (bind m f).
Proof.
  unfold closes_at_return, events_in. intros Hm Hf.
  rewrite trace_bind, result_bind.
  destruct (result m) as [h|a] eqn:Hr.
  - split; [done|]. rewrite no_close_closes by done. simpl. lia.
  - destruct (Hf a eq_refl) as [Hhalt Hlen]. split.
    + intros Hret. apply Forall_app. split; [done|by apply Hhalt].
    + unfold closes in *. rewrite omap_app. fold (closes (trace m)).
      rewrite no_close_closes by done. done.
Qed.

Lemma closes_at_return_quiet {A : Type} (n : nat) (m : M A) :
  events_in no_close m -> closes_at_return n m.
Proof.
  intros Hm. split; [done|]. rewrite no_close_closes by done. simpl. lia.
Qed.

Lemma close_all_returns (of' : list (option handle)) :
  result (close_all of') = inr tt
  /\ (length (trace (close_all of')) <= length of')%nat.
Proof.
  unfold close_all.
  assert (forall idx, result (for_each (fun i (_ : unit) =>
              match of' !! i with
              | Some (Some h) => emit (ECloseOut h)
              | _ => ret tt
              end) idx tt) = inr tt
            /\ (length (trace (for_each (fun i (_ : unit) =>
              match of' !! i with
              | Some (Some h) => emit (ECloseOut h)
              | _ => ret tt
              end) idx tt)) <= length idx)%nat) as Hall.
  { induction idx as [|i idx [IHr IHt]]; [split; [done|simpl; lia]|].
    cbn [for_each]. rewrite result_bind, trace_bind.
    destruct (of' !! i) as [[h|]|]; simpl; (split; [done|]);
      rewrite ?length_app; simpl; lia. }
  destruct (Hall (seq 0 (length of'))) as [Hr Ht].
  split; [done|]. by rewrite length_seq in Ht.
Qed.

Lemma length_closes (t : list event) : (length (closes t) <= length t)%nat.
Proof.
  unfold closes. induction t as [|e t IH]; simpl; [lia|].
  change (list_omap _ _ ?f t) with (omap f t).
  destruct e; simpl; lia.
Qed.

Lemma stripe_no_close (codec : Codec) (prng : PRNG) (w : World)
    (enc : Encoder codec) (fname : string) (stripeSize : Z) (v : vars) :
  events_in no_close (stripe codec prng w enc fname stripeSize v).
Proof.
  unfold stripe, buf_Read, checked, checkErr, die, index, assign.
  destruct (path_split fname) as [dir file]. events_steps.
  apply (events_in_for_each _ (fun _ => True)); [|done|done].
  intros i st _. by apply write_shard_events_quiet.
Qed.

Lemma stripes_no_close (codec : Codec) (prng : PRNG) (w : World)
    (enc : Encoder codec) (fname : string) (stripeSize : Z) (fuel : nat) :
  forall v v',
    events_in no_close (stripes codec prng w fuel enc fname stripeSize v)
    /\ (result (stripes codec prng w fuel enc fname stripeSize v) = inr v' ->
        length (of_ v') = length (of_ v)).
Proof.
  induction fuel as [|fuel IH]; intros v v'; [split; [apply events_in_quiet|done]|].
  cbn [stripes]. split.
  - apply events_in_bind; [apply stripe_no_close|].
    intros [[] v1] _; [apply events_in_quiet|apply (IH v1 v1)].
  - intros Hr. apply result_bind_inr in Hr as ([brk v1] & Hstripe & Hr).
    apply stripe_keeps_slots in Hstripe. destruct brk.
    + injection Hr as <-. done.
    + apply (IH v1 v') in Hr. congruence.
Qed.

Lemma encode_file_closes (codec : Codec) (prng : PRNG) (w : World)
    (enc : Encoder codec) (fname : string) :
  closes_at_return (Z.to_nat (GoInt.add (w_dataShards w) (w_parShards w)))
                   (encode_file codec prng w enc fname).
Proof.
  unfold encode_file, make.
  do 7 (apply closes_at_return_bind;
        [repeat case_match; first [apply events_in_quiet|by apply events_in_emit]
        |intros ? _]).
  apply closes_at_return_bind; [case_decide; apply events_in_quiet|intros of0 Hof0].
  case_decide; [discriminate Hof0|]. injection Hof0 as <-.
  do 2 (apply closes_at_return_bind;
        [repeat case_match; apply events_in_quiet|intros ? _]).
  apply closes_at_return_bind; [apply (stripes_no_close _ _ _ _ _ _ _ _ (Vars [] [] [] [] 0))|].
  intros v Hv. apply stripes_no_close in Hv. simpl in Hv.
  rewrite length_replicate in Hv.
  destruct (close_all_returns (of_ v)) as [Hret Hlen].
  unfold closes_at_return. rewrite !result_bind, !trace_bind, Hret. simpl.
  split; [done|]. unfold closes. rewrite omap_app. simpl. rewrite app_nil_r.
  fold (closes (trace (close_all (of_ v)))).
  pose proof (length_closes (trace (close_all (of_ v)))). lia.
Qed.

(** In every run, a destination file is closed only when [main] returns
    normally: a run that panics or exits closes none of the destinations
    it has opened.  And whatever the number of stripes, a run closes at
    most [dataShards + parShards] destinations. *)
Theorem destinations_closed_only_on_return (codec : Codec) (prng : PRNG) (w : World) :
  (forall h, ECloseOut h ∈ trace (main codec prng w) ->
             returned (result (main codec prng w)) = true)
  /\ (length (closes (trace (main codec prng w)))
      <= Z.to_nat (GoInt.add (w_dataShards w) (w_parShards w)))%nat.
Proof.
  assert (closes_at_return (Z.to_nat (GoInt.add (w_dataShards w) (w_parShards w)))
                           (main codec prng w)) as [Hhalt Hlen].
  { unfold main. fold (input_name w). repeat case_decide.
    - apply closes_at_return_quiet. by repeat constructor.
    - apply closes_at_return_quiet. by repeat constructor.
    - apply closes_at_return_bind.
      { unfold checked, checkErr, die. case_match; [|apply events_in_quiet].
        by repeat constructor. }
      intros enc _.
      apply closes_at_return_bind; [by apply events_in_emit|intros _ _].
      apply closes_at_return_bind; [case_match; apply events_in_quiet|intros _ _].
      destruct (encode_file_closes codec prng w enc (input_name w)) as [Hh Hl].
      unfold closes_at_return, events_in, deferred, trace, result in *.
      destruct (encode_file codec prng w enc (input_name w)) as [t [[c|p|]|v]];
        simpl in *; try done.
      + split; [|unfold closes in *; rewrite omap_app; simpl; by rewrite app_nil_r].
        intros _. apply Forall_app. split; [by apply Hh|by repeat constructor].
      + split; [done|unfold closes in *; rewrite omap_app; simpl; by rewrite app_nil_r]. }
  split; [|done].
  intros h Hin. destruct (returned (result (main codec prng w))) eqn:Hret; [done|].
  specialize (Hhalt eq_refl). unfold events_in in Hhalt.
  rewrite Forall_forall in Hhalt. by apply Hhalt in Hin.
Qed.

(** ** The read that ends the loop *)

Lemma quiet_after_app (P Q : event -> Prop) (t t' : list event) :
  quiet_after P Q t -> quiet_after P Q t' -> (Exists P t -> Forall Q t') ->
  quiet_after P Q (t ++ t').
Proof.
  induction t as [|e t IH]; intros Ht Ht' Hex; [done|].
  destruct Ht as [He Ht]. simpl. split.
  - intros HP. apply Forall_app. split; [by apply He|].
    apply Hex. by left.
  - apply IH; [done..|]. intros Hx. apply Hex. by right.
Qed.

Lemma quiet_after_without (P Q : event -> Prop) (t : list event) :
  Forall (fun e => ~ P e) t -> quiet_after P Q t.
Proof. induction 1 as [|e t He _ IH]; [done|]. split; [by intros ?|done]. Qed.

Lemma quiet_after_split (P Q : event -> Prop) (t1 t2 : list event) (e : event) :
  quiet_after P Q (t1 ++ e :: t2) -> P e -> Forall Q t2.
Proof.
  induction t1 as [|e1 t1 IH]; simpl; intros [He Ht] HP; [by apply He|by apply IH].
Qed.

Lemma then_only_bind {A B : Type} (P Q : event -> Prop) (m : M A) (f : A -> M B) :
  then_only P Q m ->
  (forall a, result m = inr a -> then_only P Q (f a)) ->
  (forall a, result m = inr a -> Exists P (trace m) -> events_in Q (f a)) ->
  then_only P Q (bind m f).
Proof.
  unfold then_only. intros Hm Hf Hex. rewrite trace_bind.
  destruct (result m) as [h|a] eqn:Hr; [done|].
  apply quiet_after_app; [done|by apply Hf|by apply Hex].
Qed.

Lemma then_only_start {A B : Type} (P Q : event -> Prop) (m : M A) (f : A -> M B) :
  events_in (fun e => ~ P e) m ->
  (forall a, result m = inr a -> then_only P Q (f a)) ->
  then_only P Q (bind m f).
Proof.
  intros Hm Hf. apply then_only_bind; [by apply quiet_after_without|done|].
  intros a _ Hex. apply Exists_exists in Hex as (e & Hin & HP).
  unfold events_in in Hm. rewrite Forall_forall in Hm. by destruct (Hm e Hin).
Qed.

Lemma then_only_without {A : Type} (P Q : event -> Prop) (m : M A) :
  events_in (fun e => ~ P e) m -> then_only P Q m.
Proof. apply quiet_after_without. Qed.

Lemma no_read_not_short (size : Z) (e : event) : no_read e -> ~ is_short_read size e.
Proof. destruct e; simpl; tauto. Qed.

Section ShortRead.

Context (codec : Codec) (prng : PRNG) (w : World).

(** The body of the stripe loop after its read. *)
Lemma stripe_after_read (enc : Encoder codec) (fname : string) (stripeSize : Z)
    (v : vars) :
  exists body : nat * list byte * list byte -> M (bool * vars),
    stripe codec prng w enc fname stripeSize v
    = bind (buf_Read w (stripeno v) (data v) (rest v)) body
    /\ (forall x, events_in no_read (body x))
    /\ (forall x brk v', result (body x) = inr (brk, v') ->
                         Z.of_nat x.1.1 < stripeSize -> brk = true).
Proof.
  eexists. split; [reflexivity|]. split.
  - intros [[b data'] rest']. unfold checked, checkErr, die, index, assign.
    destruct (path_split fname) as [dir file]. events_steps.
    apply (events_in_for_each _ (fun _ => True)); [|done|done].
    intros i st _. by apply write_shard_events_quiet.
  - intros [[b data'] rest'] brk v' H Hb. simpl in Hb.
    do 6 (apply result_bind_inr in H as (? & _ & H)).
    destruct (path_split fname) as [dir file].
    do 4 (apply result_bind_inr in H as (? & _ & H)).
    rewrite decide_True in H by done. by injection H as <- _.
Qed.

Lemma stripe_short_read (enc : Encoder codec) (fname : string) (stripeSize : Z)
    (v : vars) :
  then_only (is_short_read stripeSize) no_read
            (stripe codec prng w enc fname stripeSize v)
  /\ (forall brk v',
        result (stripe codec prng w enc fname stripeSize v) = inr (brk, v') ->
        Exists (is_short_read stripeSize)
               (trace (stripe codec prng w enc fname stripeSize v)) ->
        brk = true).
Proof.
  destruct (stripe_after_read enc fname stripeSize v) as (body & -> & Hquiet & Hbrk).
  unfold buf_Read.
  destruct (w_read w (stripeno v) (length (data v)) (length (rest v))) as [n|err].
  - set (b := ((n `min` length (data v)) `min` length (rest v))%nat).
    set (x := (b, take b (rest v) ++ drop b (data v), drop b (rest v))).
    rewrite bind_emit. change (trace (ret x)) with (@nil event).
    change (result (ret x)) with (inr x : halt + (nat * list byte * list byte)).
    rewrite bind_val.
    pose proof (Hquiet x) as Hq. unfold events_in in Hq.
    unfold then_only. cbn [trace result fst snd app quiet_after]. split; [split|].
    + by intros _.
    + apply quiet_after_without. eapply Forall_impl; [exact Hq|].
      apply no_read_not_short.
    + intros brk v' Hr Hex. apply (Hbrk x brk v' Hr).
      apply Exists_cons in Hex as [Hb|Hex]; [exact Hb|].
      apply Exists_exists in Hex as (e & Hin & HP).
      rewrite Forall_forall in Hq.
      by destruct (no_read_not_short stripeSize e (Hq e Hin)).
  - unfold then_only. simpl. split; [by split|discriminate].
Qed.

Lemma stripes_short_read (enc : Encoder codec) (fname : string) (stripeSize : Z)
    (fuel : nat) :
  forall v, then_only (is_short_read stripeSize) no_read
                      (stripes codec prng w fuel enc fname stripeSize v).
Proof.
  induction fuel as [|fuel IH]; intros v; [done|].
  cbn [stripes]. destruct (stripe_short_read enc fname stripeSize v) as [Hthen Hbrk].
  apply then_only_bind; [done| |].
  - intros [[] v'] _; [done|apply IH].
  - intros [brk v'] Hr Hex. rewrite (Hbrk brk v' Hr Hex). apply events_in_quiet.
Qed.

Lemma encode_file_short_read (enc : Encoder codec) (fname : string) :
  then_only (is_short_read (GoInt.mul (w_dataShards w) (w_blockSize w))) no_read
            (encode_file codec prng w enc fname).
Proof.
  unfold encode_file, make.
  do 10 (apply then_only_start;
         [repeat case_match; first [apply events_in_quiet|apply events_in_emit; simpl; tauto]
         |intros ? _]).
  apply then_only_bind; [apply stripes_short_read| |].
  - intros v _. apply then_only_without.
    apply events_in_bind; [apply close_all_only_closes; simpl; tauto|intros _ _].
    apply events_in_bind; [apply events_in_emit; simpl; tauto|intros _ _].
    apply events_in_quiet.
  - intros v _ _.
    apply events_in_bind; [apply close_all_only_closes; simpl; tauto|intros _ _].
    apply events_in_bind; [apply events_in_emit; simpl; tauto|intros _ _].
    apply events_in_quiet.
Qed.

End ShortRead.

(** In every run, a read that delivers fewer bytes than one stripe is the
    last read of the run: the loop handles that stripe as the final one and
    never reads again, whatever is left of the input. *)
Theorem short_read_is_the_last_read (codec : Codec) (prng : PRNG) (w : World)
    (t1 t2 : list event) (s : Z) (b : nat) :
  trace (main codec prng w) = t1 ++ ERead s b :: t2 ->
  Z.of_nat b < GoInt.mul (w_dataShards w) (w_blockSize w) ->
  Forall no_read t2.
Proof.
  intros Ht Hb.
  apply (quiet_after_split
           (is_short_read (GoInt.mul (w_dataShards w) (w_blockSize w))) no_read
           t1 t2 (ERead s b)); [|exact Hb].
  rewrite <- Ht. clear Ht Hb.
  change (then_only (is_short_read (GoInt.mul (w_dataShards w) (w_blockSize w)))
                    no_read (main codec prng w)).
  unfold main. fold (input_name w). repeat case_decide.
  - apply then_only_without. repeat constructor; simpl; tauto.
  - apply then_only_without. repeat constructor; simpl; tauto.
  - apply then_only_start.
    { unfold checked, checkErr, die. case_match; [|apply events_in_quiet].
      repeat constructor; simpl; tauto. }
    intros enc _.
    apply then_only_start; [apply events_in_emit; simpl; tauto|intros _ _].
    apply then_only_start; [case_match; apply events_in_quiet|intros _ _].
    pose proof (encode_file_short_read codec prng w enc (input_name w)) as He.
    unfold then_only, deferred, trace in *.
    destruct (encode_file codec prng w enc (input_name w)) as [t [[c|p|]|v]];
      simpl in *; try done;
      (apply quiet_after_app; [done|by split|by repeat constructor]).
Qed.

Lemma short_read_is_the_last_read_witness :
  Forall no_read (drop 6 (trace (main parity_codec digits_rng short_read_world))).
Proof.
  apply (short_read_is_the_last_read parity_codec digits_rng short_read_world
           (take 5 (trace (main parity_codec digits_rng short_read_world)))
           (drop 6 (trace (main parity_codec digits_rng short_read_world))) 0 3).
  - vm_compute. reflexivity.
  - vm_compute. reflexivity.
Defined.

(** ** A shard sum that overflows *)


(** ** Descriptors that are never closed *)

(** C5 at two failing inputs.  On the five bytes of the sample run, two
    stripes, every destination is opened in stripe 0 and opened again in
    stripe 1, each time right before its write; the run returns and the
    only descriptors it closes are the three opened in stripe 1, so the
    three opened in stripe 0 are never closed.  On forty bytes in a
    process that can hold nine destination descriptors, the tenth open,
    the first of stripe 3, fails: the run exits with status 2 after three
    of its ten stripes and has closed nothing. *)
Theorem C5_descriptors_reopened_and_leaked :
  ~ opened_exactly_once 3 (trace sample_run)
  /\ (fun d => opens_of d (trace sample_run)) <$> seq 0 3 = replicate 3 [0; 1]
  /\ dest_ops (trace sample_run)
     = [OpOpen (Handle 0 0); OpWrite (Handle 0 0); OpOpen (Handle 0 1);
        OpWrite (Handle 0 1); OpOpen (Handle 0 2); OpWrite (Handle 0 2);
        OpOpen (Handle 1 0); OpWrite (Handle 1 0); OpOpen (Handle 1 1);
        OpWrite (Handle 1 1); OpOpen (Handle 1 2); OpWrite (Handle 1 2);
        OpClose (Handle 1 0); OpClose (Handle 1 1); OpClose (Handle 1 2)]
  /\ returned (result sample_run) = true
  /\ (fun d => opens_of d (trace descriptor_limit_run)) <$> seq 0 3
     = [[0; 1; 2; 3]; [0; 1; 2]; [0; 1; 2]]
  /\ closes (trace descriptor_limit_run) = []
  /\ fst <$> ledger (trace descriptor_limit_run) = [0; 1; 2; 3]
  /\ result descriptor_limit_run = inl (Exit 2).
Proof.
  split_and!; try (vm_compute; reflexivity).
  intros H. specialize (H 0%nat ltac:(lia)).
  assert (opens_of 0 (trace sample_run) = [0; 1]) as Ho by (vm_compute; reflexivity).
  rewrite Ho in H. discriminate H.
Qed.

(** ** Every write follows the ledger *)

Lemma all_after_app (P : list event -> event -> Prop) (hist t t' : list event) :
  all_after P hist (t ++ t') <-> all_after P hist t /\ all_after P (hist ++ t) t'.
Proof.
  revert hist. induction t as [|e t IH]; intros hist; simpl.
  - rewrite app_nil_r. tauto.
  - rewrite IH, <- app_assoc. simpl. tauto.
Qed.

Lemma all_after_split (P : list event -> event -> Prop) (t1 t2 : list event) (e : event) :
  all_after P [] (t1 ++ e :: t2) -> P t1 e.
Proof. rewrite all_after_app. simpl. tauto. Qed.

Lemma all_after_plain (P : list event -> event -> Prop) (hist t : list event) :
  Forall (fun e => forall h, P h e) t -> all_after P hist t.
Proof. intros H. revert hist. induction H; intros hist; simpl; auto. Qed.

Lemma events_after_bind {A B : Type} (P : list event -> event -> Prop)
    (m : M A) (f : A -> M B) (hist : list event) :
  events_after P hist m ->
  (forall a, result m = inr a -> events_after P (hist ++ trace m) (f a)) ->
  events_after P hist (bind m f).
Proof.
  unfold events_after. intros Hm Hf. rewrite trace_bind.
  destruct (result m) as [h|a] eqn:Hr; [done|].
  apply all_after_app. split; [done|by apply Hf].
Qed.

Lemma events_after_plain {A : Type} (P : list event -> event -> Prop)
    (m : M A) (hist : list event) :
  events_in (fun e => forall h, P h e) m -> events_after P hist m.
Proof. apply all_after_plain. Qed.





Section WritesFollow.

Context (codec : Codec) (prng : PRNG) (w : World).





End WritesFollow.



(** ** The buffer handed to the codec, in every run *)

Lemma reads_quiet (t : list event) : Forall no_read_no_split t -> reads t = [].
Proof.
  induction 1 as [|e t He _ IH]; [done|].
  destruct e; try exact IH; destruct He.
Qed.

Lemma codec_inputs_quiet (t : list event) :
  Forall no_read_no_split t -> codec_inputs t = [].
Proof.
  induction 1 as [|e t He _ IH]; [done|].
  destruct e; try exact IH; destruct He.
Qed.

Lemma reads_app (t t' : list event) : reads (t ++ t') = reads t ++ reads t'.
Proof. apply omap_app. Qed.

Lemma codec_inputs_app (t t' : list event) :
  codec_inputs (t ++ t') = codec_inputs t ++ codec_inputs t'.
Proof. apply omap_app. Qed.

Lemma previous_buffer_quiet (w : World) (hist t : list event) :
  Forall no_read_no_split t -> previous_buffer w (hist ++ t) = previous_buffer w hist.
Proof.
  intros Ht. unfold previous_buffer.
  by rewrite codec_inputs_app, (codec_inputs_quiet t), app_nil_r.
Qed.

Lemma buffer_in_step_quiet (w : World) (hist t : list event) (v : vars) :
  Forall no_read_no_split t -> buffer_in_step w hist v -> buffer_in_step w (hist ++ t) v.
Proof.
  intros Ht (Hd & Hr & Hl). unfold buffer_in_step.
  rewrite previous_buffer_quiet, reads_app, codec_inputs_app by done.
  by rewrite (reads_quiet t), (codec_inputs_quiet t), !app_nil_r.
Qed.

Lemma quiet_follows_read (w : World) (e : event) :
  no_read_no_split e -> forall h, split_follows_read w h e.
Proof. by destruct e. Qed.

Lemma events_after_quiet {A : Type} (w : World) (m : M A) (hist : list event) :
  events_in no_read_no_split m -> events_after (split_follows_read w) hist m.
Proof.
  intros Hm. apply events_after_plain. unfold events_in in *.
  eapply Forall_impl; [exact Hm|]. apply quiet_follows_read.
Qed.

Lemma write_shard_keeps_buffer (w : World) (dir file : string)
    (shards : list (list byte)) (i : nat) (v v' : vars) :
  result (write_shard w dir file shards i v) = inr v' ->
  data v' = data v /\ rest v' = rest v.
Proof.
  unfold write_shard. intros H.
  repeat (apply result_bind_inr in H as (? & _ & H)).
  by injection H as <-.
Qed.

Lemma bytes_read_snoc (rs : list (Z * nat)) (s : Z) (b : nat) :
  bytes_read (rs ++ [(s, b)]) = (bytes_read rs + b)%nat.
Proof.
  unfold bytes_read. induction rs as [|[s' b'] rs IH]; simpl; [lia|].
  change (list_fmap _ _ ?f ?l) with (f <$> l). rewrite IH. lia.
Qed.

Lemma checked_returned {A : Type} (r : error + A) (a : A) :
  result (checked r) = inr a -> trace (checked r) = [].
Proof. destruct r; [discriminate|done]. Qed.

Lemma buf_Read_returned (w : World) (s : Z) (data rest : list byte)
    (b : nat) (data' rest' : list byte) :
  result (buf_Read w s data rest) = inr (b, data', rest') ->
  trace (buf_Read w s data rest) = [ERead s b]
  /\ data' = take b rest ++ drop b data /\ rest' = drop b rest.
Proof.
  unfold buf_Read. destruct (w_read w s (length data) (length rest)) as [n|err];
    [|discriminate].
  simpl. intros [= <- <- <-]. done.
Qed.

Section SplitBuffers.

Context (codec : Codec) (prng : PRNG) (w : World).

Lemma stripe_splits (enc : Encoder codec) (fname : string) (stripeSize : Z)
    (v : vars) (hist : list event) :
  buffer_in_step w hist v ->
  events_after (split_follows_read w) hist
               (stripe codec prng w enc fname stripeSize v).
Proof.
  intros (Hdata & Hrest & Hlen). unfold stripe.
  apply events_after_bind.
  { apply events_after_plain. unfold buf_Read. events_steps. }
  intros [[b data'] rest'] Hread.
  apply buf_Read_returned in Hread as (-> & -> & ->).
  apply events_after_bind.
  { apply events_after_plain. unfold checked, checkErr, die. events_steps. }
  intros shards0 Hsplit. rewrite (checked_returned _ _ Hsplit), app_nil_r.
  apply events_after_bind.
  - split; [|done]. exists (reads hist), b.
    rewrite reads_app, codec_inputs_app. simpl. rewrite app_nil_r.
    split; [done|]. split; [done|].
    unfold previous_buffer. rewrite codec_inputs_app. simpl. rewrite app_nil_r.
    fold (previous_buffer w hist). by rewrite <- Hdata, <- Hrest.
  - intros _ _. apply events_after_quiet.
    unfold checked, checkErr, die, index, assign.
    destruct (path_split fname) as [dir file]. events_steps.
    apply (events_in_for_each _ (fun _ => True)); [|done|done].
    intros i st _. by apply write_shard_events_quiet.
Qed.

Lemma stripe_keeps_step (enc : Encoder codec) (fname : string) (stripeSize : Z)
    (v v' : vars) (hist : list event) :
  buffer_in_step w hist v ->
  result (stripe codec prng w enc fname stripeSize v) = inr (false, v') ->
  buffer_in_step w (hist ++ trace (stripe codec prng w enc fname stripeSize v)) v'.
Proof.
  intros (Hdata & Hrest & Hlen) H. unfold stripe in *.
  apply result_bind_inr in H as ([[b data'] rest'] & Hread & H).
  rewrite trace_bind, Hread. cbv beta iota.
  apply buf_Read_returned in Hread as (-> & -> & ->).
  apply result_bind_inr in H as (shards0 & Hsplit & H).
  rewrite trace_bind, Hsplit, (checked_returned _ _ Hsplit). cbv beta iota.
  rewrite bind_emit in H |- *. cbn [trace result fst snd] in H |- *.
  match type of H with
  | result ?m = _ =>
      assert (events_in no_read_no_split m) as Hquiet;
      [|assert (data v' = take b (rest v) ++ drop b (data v)
                /\ rest v' = drop b (rest v)) as [Hd' Hr']]
  end.
  - unfold checked, checkErr, die, index, assign.
    destruct (path_split fname) as [dir file]. events_steps.
    apply (events_in_for_each _ (fun _ => True)); [|done|done].
    intros i st _. by apply write_shard_events_quiet.
  - do 4 (apply result_bind_inr in H as (? & _ & H)).
    destruct (path_split fname) as [dir file].
    do 3 (apply result_bind_inr in H as (? & _ & H)).
    apply result_bind_inr in H as (v1 & Hloop & H).
    apply (for_each_preserves
             (fun st => data st = take b (rest v) ++ drop b (data v)
                        /\ rest st = drop b (rest v))) in Hloop.
    + case_decide; [discriminate H|]. by injection H as <-.
    + intros i st st' [Hst1 Hst2] Hr.
      apply write_shard_keeps_buffer in Hr as [-> ->]. done.
    + done.
  - unfold events_in in Hquiet. unfold buffer_in_step.
    match type of Hquiet with Forall _ ?t => set (T := t) in * end.
    change (hist ++ [ERead (stripeno v) b] ++ []
            ++ ESplit (stripeno v) (take b (rest v) ++ drop b (data v)) :: T)
      with (hist ++ [ERead (stripeno v) b;
                     ESplit (stripeno v) (take b (rest v) ++ drop b (data v))]
            ++ T).
    rewrite (app_assoc hist).
    rewrite (previous_buffer_quiet w _ T Hquiet).
    rewrite (reads_app _ T), (codec_inputs_app _ T).
    rewrite (reads_quiet T Hquiet), (codec_inputs_quiet T Hquiet), !app_nil_r.
    unfold previous_buffer. rewrite reads_app, codec_inputs_app.
    change (reads [ERead (stripeno v) b;
                   ESplit (stripeno v) (take b (rest v) ++ drop b (data v))])
      with [(stripeno v, b)].
    change (codec_inputs [ERead (stripeno v) b;
                          ESplit (stripeno v) (take b (rest v) ++ drop b (data v))])
      with [(stripeno v, take b (rest v) ++ drop b (data v))].
    rewrite last_snoc, bytes_read_snoc, !length_app. simpl.
    rewrite Hd', Hr', Hrest, drop_drop, Hlen. done.
Qed.

Lemma stripes_split (enc : Encoder codec) (fname : string) (stripeSize : Z)
    (fuel : nat) :
  forall (v : vars) (hist : list event),
    buffer_in_step w hist v ->
    events_after (split_follows_read w) hist
                 (stripes codec prng w fuel enc fname stripeSize v).
Proof.
  induction fuel as [|fuel IH]; intros v hist Hstep; [done|].
  cbn [stripes]. apply events_after_bind; [by apply stripe_splits|].
  intros [[] v'] Hr; [done|]. apply IH. by apply stripe_keeps_step.
Qed.

End SplitBuffers.

Lemma events_after_start {A B : Type} (w : World) (m : M A) (f : A -> M B)
    (hist : list event) :
  Forall no_read_no_split hist ->
  events_in no_read_no_split m ->
  (forall a, result m = inr a ->
             forall h, Forall no_read_no_split h ->
                       events_after (split_follows_read w) h (f a)) ->
  events_after (split_follows_read w) hist (bind m f).
Proof.
  intros Hhist Hm Hf. apply events_after_bind; [by apply events_after_quiet|].
  intros a Ha. apply Hf; [done|]. apply Forall_app. by split.
Qed.

Section SplitBuffersOfMain.

Context (codec : Codec) (prng : PRNG) (w : World).

Lemma encode_file_splits (enc : Encoder codec) (fname : string) (hist : list event) :
  Forall no_read_no_split hist ->
  events_after (split_follows_read w) hist (encode_file codec prng w enc fname).
Proof.
  intros Hhist. unfold encode_file, make.
  do 6 (apply events_after_start;
        [done
        |repeat case_match; first [apply events_in_quiet|by apply events_in_emit]
        |clear hist Hhist; intros ? _ hist Hhist]).
  apply events_after_start; [done|case_decide; apply events_in_quiet|].
  clear hist Hhist. intros data0 Hdata0 hist Hhist.
  case_decide; [discriminate Hdata0|]. injection Hdata0 as <-.
  do 3 (apply events_after_start;
        [done
        |repeat case_match; apply events_in_quiet
        |clear hist Hhist; intros ? _ hist Hhist]).
  apply events_after_bind.
  - apply stripes_split. unfold buffer_in_step, previous_buffer. simpl.
    rewrite (reads_quiet hist Hhist), (codec_inputs_quiet hist Hhist). done.
  - intros v _. apply events_after_quiet.
    apply events_in_bind; [by apply close_all_only_closes|intros _ _].
    apply events_in_bind; [by apply events_in_emit|intros _ _].
    apply events_in_quiet.
Qed.

Lemma main_splits : events_after (split_follows_read w) [] (main codec prng w).
Proof.
  unfold main. fold (input_name w). repeat case_decide.
  - apply events_after_quiet. by repeat constructor.
  - apply events_after_quiet. by repeat constructor.
  - apply events_after_start; [done| |].
    { unfold checked, checkErr, die. case_match; [|apply events_in_quiet].
      by repeat constructor. }
    intros enc _ hist Hhist.
    apply events_after_start; [done|by apply events_in_emit|].
    clear hist Hhist. intros _ _ hist Hhist.
    apply events_after_start; [done|case_match; apply events_in_quiet|].
    clear hist Hhist. intros _ _ hist Hhist.
    pose proof (encode_file_splits enc (input_name w) hist Hhist) as He.
    unfold events_after, deferred, trace in *.
    destruct (encode_file codec prng w enc (input_name w)) as [t [[c|p|]|v]];
      simpl in *; try done; apply all_after_app; by split.
Qed.

End SplitBuffersOfMain.

(** In every run, the buffer handed to the codec for the first stripe is
    the bytes that the first read delivered, the beginning of the input,
    followed by zero bytes up to the stripe size: after a short first
    read the rest of the buffer is zero. *)
Theorem first_stripe_zero_padded (codec : Codec) (prng : PRNG) (w : World)
    (t1 t2 : list event) (s : Z) (buf : list byte) :
  trace (main codec prng w) = t1 ++ ESplit s buf :: t2 ->
  codec_inputs t1 = [] ->
  exists b : nat,
    reads t1 = [(s, b)]
    /\ buf = take b (stream w)
             ++ replicate (Z.to_nat (GoInt.mul (w_dataShards w) (w_blockSize w)) - b) x00.
Proof.
  intros Ht Hfirst. pose proof (main_splits codec prng w) as Hall.
  unfold events_after in Hall. rewrite Ht in Hall.
  apply all_after_split in Hall as (rs & b & Hreads & Hlen & ->).
  rewrite Hfirst in Hlen. destruct rs; [|discriminate Hlen].
  exists b. split; [done|].
  unfold previous_buffer. rewrite Hfirst. simpl. by rewrite drop_replicate.
Qed.

Lemma first_stripe_zero_padded_witness :
  exists b : nat,
    reads (take 6 (trace (main parity_codec digits_rng short_read_world))) = [(0, b)]
    /\ [x01; x02; x03; x00]
       = take b (stream short_read_world)
         ++ replicate (Z.to_nat (GoInt.mul (w_dataShards short_read_world)
                                           (w_blockSize short_read_world)) - b) x00.
Proof.
  apply (first_stripe_zero_padded parity_codec digits_rng short_read_world
           (take 6 (trace (main parity_codec digits_rng short_read_world)))
           (drop 7 (trace (main parity_codec digits_rng short_read_world)))
           0 [x01; x02; x03; x00]).
  - vm_compute. reflexivity.
  - vm_compute. reflexivity.
Defined.

(** In every run, the buffer handed to the codec for a later stripe is
    the bytes that the read just before delivered, which continue the
    input where the earlier reads stopped, followed by what the buffer of
    the stripe before held beyond them: the buffer is never cleared
    between stripes. *)
Theorem later_stripes_inherit_buffer_tail (codec : Codec) (prng : PRNG) (w : World)
    (t1 t2 : list event) (s s' : Z) (buf buf' : list byte) :
  trace (main codec prng w) = t1 ++ ESplit s buf :: t2 ->
  last (codec_inputs t1) = Some (s', buf') ->
  exists (rs : list (Z * nat)) (b : nat),
    reads t1 = rs ++ [(s, b)]
    /\ length rs = length (codec_inputs t1)
    /\ buf = take b (drop (bytes_read rs) (stream w)) ++ drop b buf'.
Proof.
  intros Ht Hprev. pose proof (main_splits codec prng w) as Hall.
  unfold events_after in Hall. rewrite Ht in Hall.
  apply all_after_split in Hall as (rs & b & Hreads & Hlen & ->).
  exists rs, b. split; [done|]. split; [done|].
  unfold previous_buffer. by rewrite Hprev.
Qed.

Lemma later_stripes_inherit_buffer_tail_witness :
  exists (rs : list (Z * nat)) (b : nat),
    reads (take 17 (trace sample_run)) = rs ++ [(1, b)]
    /\ length rs = length (codec_inputs (take 17 (trace sample_run)))
    /\ [x05; x02; x03; x04]
       = take b (drop (bytes_read rs) (stream (calm "in.bin" 2 1 2 five_bytes)))
         ++ drop b [x01; x02; x03; x04].
Proof.
  apply (later_stripes_inherit_buffer_tail parity_codec digits_rng
           (calm "in.bin" 2 1 2 five_bytes)
           (take 17 (trace sample_run)) (drop 18 (trace sample_run))
           1 0 [x05; x02; x03; x04] [x01; x02; x03; x04]).
  - vm_compute. reflexivity.
  - vm_compute. reflexivity.
Defined.
